(** * DhanSaathi debt manager: the debt strategy engine

    Shallow embedding of [debtmanager/src/utils/financial-calculations]
    (with the types of [debtmanager/src/types]) and the properties of its
    repayment simulation, ordering policies, metrics and validation.

    JavaScript numbers are kept abstract behind the [Number] interface, so
    that every function is transcribed once and can be run on two carriers:
    - [float]: IEEE 754 binary64, which is what the program computes with
      (rounding, signed zeros, infinities and NaN included);
    - [Q]: exact rational arithmetic, an idealisation of the doubles that
      the program never computes with; what is proved on it only is labelled
      as such and set against the double arithmetic. *)

From Stdlib Require Import String Ascii DecimalString.
From Stdlib Require Import List Bool Arith ZArith QArith Qminmax.
From Stdlib Require Import Permutation Sorted Lia Lqa.
From Stdlib Require Import Floats.
Import ListNotations.

Set Implicit Arguments.

(** ** Numbers *)

Declare Scope js_scope.
Delimit Scope js_scope with js.

Class Number (F : Type) : Type := {
  lit : Q -> F;              (* a decimal literal of the source text *)
  add : F -> F -> F;
  sub : F -> F -> F;
  mul : F -> F -> F;
  div : F -> F -> F;
  ltb : F -> F -> bool;      (* a < b *)
  leb : F -> F -> bool;      (* a <= b *)
  mathMin : F -> F -> F;     (* Math.min(a, b) *)
  mathMax : F -> F -> F      (* Math.max(a, b) *)
}.

(* a > b is b < a, also on NaN where both are false *)
Definition gtb {F} `{Number F} (a b : F) : bool := ltb b a.

Infix "+" := add : js_scope.
Infix "-" := sub : js_scope.
Infix "*" := mul : js_scope.
Infix "/" := div : js_scope.
Infix "<?" := ltb : js_scope.
Infix "<=?" := leb : js_scope.
Infix ">?" := gtb (at level 70) : js_scope.

(** *** Exact rationals

    No JavaScript number is a rational: this carrier has no rounding, no
    infinity and no NaN.  A property proved on it alone says what the
    formulas of the program mean, not what the program computes. *)

Definition Qltb (a b : Q) : bool := negb (Qle_bool b a).

#[export] Instance Q_Number : Number Q := {|
  lit := fun q => q;
  add := Qplus;
  sub := Qminus;
  mul := Qmult;
  div := Qdiv;
  ltb := Qltb;
  leb := Qle_bool;
  mathMin := fun a b => if Qle_bool a b then a else b;
  mathMax := fun a b => if Qle_bool a b then b else a
|}.

(** *** IEEE 754 doubles *)

Module Float.

Definition of_Z (z : Z) : float :=
  match z with
  | Z0 => PrimFloat.zero
  | Zpos _ => PrimFloat.of_uint63 (Uint63.of_Z z)
  | Zneg p => PrimFloat.opp (PrimFloat.of_uint63 (Uint63.of_Z (Zpos p)))
  end.

(* The double a literal n/d denotes, the one nearest to it: numerator and
   denominator of the literals of this program are integers below 2^53,
   hence exact doubles, and IEEE division rounds their quotient correctly. *)
Definition of_Q (q : Q) : float :=
  PrimFloat.div (of_Z (Qnum q)) (of_Z (Zpos (Qden q))).

(* Math.min: NaN if either argument is NaN, and -0 below +0 *)
Definition min (a b : float) : float :=
  if PrimFloat.is_nan a then a
  else if PrimFloat.is_nan b then b
  else if PrimFloat.ltb a b then a
  else if PrimFloat.ltb b a then b
  else if PrimFloat.get_sign a then a else b.

(* Math.max: NaN if either argument is NaN, and +0 above -0 *)
Definition max (a b : float) : float :=
  if PrimFloat.is_nan a then a
  else if PrimFloat.is_nan b then b
  else if PrimFloat.ltb a b then b
  else if PrimFloat.ltb b a then a
  else if PrimFloat.get_sign a then b else a.

End Float.

#[export] Instance float_Number : Number float := {|
  lit := Float.of_Q;
  add := PrimFloat.add;
  sub := PrimFloat.sub;
  mul := PrimFloat.mul;
  div := PrimFloat.div;
  ltb := PrimFloat.ltb;
  leb := PrimFloat.leb;
  mathMin := Float.min;
  mathMax := Float.max
|}.

(** ** Data model ([types]) *)

Inductive DebtType : Type :=
  | credit_card | personal_loan | student_loan | auto_loan | mortgage | other.

Module Debt.

Record t (F : Type) : Type := mk {
  id : string;
  name : string;
  balance : F;
  interestRate : F;      (* annual percentage rate *)
  minimumPayment : F;
  dueDate : F;           (* day of month *)
  type : DebtType
}.
Arguments mk {F}.

(* debt.balance = b *)
Definition setBalance {F} (b : F) (d : t F) : t F :=
  mk (id d) (name d) b (interestRate d) (minimumPayment d) (dueDate d)
     (type d).

End Debt.

Inductive RepaymentStrategy : Type := snowball | avalanche | hybrid.

Module PaymentBreakdown.

(* [month] is a counter that runs from 1 to 601 at most, kept as an integer *)
Record t (F : Type) : Type := mk {
  month : Z;
  principal : F;
  interest : F;
  balance : F;
  totalPayment : F
}.
Arguments mk {F}.

End PaymentBreakdown.

Module DebtAnalysis.

Record t (F : Type) : Type := mk {
  strategy : RepaymentStrategy;
  totalInterest : F;
  payoffTimeMonths : Z;
  monthlyPayment : F;
  paymentSchedule : list (PaymentBreakdown.t F);
  debtOrder : list string      (* order of debt payoff by id *)
}.
Arguments mk {F}.

End DebtAnalysis.

(** What a call does: return a value, throw, or (for the model only) run out
    of the fuel that bounds its [while] loop. *)
Inductive outcome (A : Type) : Type :=
  | Returned (a : A)
  | Thrown (msg : string)
  | OutOfFuel.
Arguments Returned {A}.
Arguments Thrown {A}.
Arguments OutOfFuel {A}.

Open Scope js_scope.

(** ** The engine ([utils/financial-calculations]) *)

Section Engine.

Context {F : Type} `{Number F}.

Definition calculateMonthlyRate (annualRate : F) : F :=
  annualRate / lit 100 / lit 12.

(** *** Array helpers *)

(* arr.reduce((sum, x) => sum + f(x), 0) *)
Definition sumOf {A} (f : A -> F) (arr : list A) : F :=
  fold_left (fun sum x => sum + f x) arr (lit 0).

(* arr.includes(s) on an array of strings *)
Definition includes (arr : list string) (s : string) : bool :=
  existsb (String.eqb s) arr.

(* Array.prototype.sort(comparefn).  ECMAScript requires the sort to be
   stable and leaves the order open only for an inconsistent comparator; the
   order is fixed here by the stable insertion sort: an element moves past
   those it compares strictly greater than (a NaN comparison counts as 0).
   With a key that is NaN the comparator is inconsistent and an engine may
   order the array otherwise; nothing below depends on the order then. *)
Fixpoint insertBy {A} (cmp : A -> A -> F) (x : A) (sorted : list A) : list A :=
  match sorted with
  | [] => [x]
  | y :: rest =>
      if cmp x y >? lit 0 then y :: insertBy cmp x rest else x :: y :: rest
  end.

Fixpoint sortBy {A} (cmp : A -> A -> F) (arr : list A) : list A :=
  match arr with
  | [] => []
  | x :: rest => insertBy cmp x (sortBy cmp rest)
  end.

(** *** The monthly pass over the debts *)

(* the locals of one iteration of the while loop, and the payoff order *)
Record MonthAcc : Type := mkAcc {
  monthlyInterest : F;
  monthlyPrincipal : F;
  extraPayment : F;
  order : list string
}.

(* The body of the for loop at index [i], on debtCopies[i]. *)
Definition processDebt (i : nat) (debt : Debt.t F) (acc : MonthAcc)
  : Debt.t F * MonthAcc :=
  if Debt.balance debt <=? lit 0.01 then (debt, acc)            (* continue *)
  else
    let monthlyRate := calculateMonthlyRate (Debt.interestRate debt) in
    let interestPayment := Debt.balance debt * monthlyRate in
    let payment := Debt.minimumPayment debt in
    (* Apply extra payment to first debt with balance *)
    let applyExtra := (extraPayment acc >? lit 0) && (i =? 0)%nat in
    let payment := if applyExtra then payment + extraPayment acc else payment in
    let extra := if applyExtra then lit 0 else extraPayment acc in
    let principalPayment :=
      mathMin (payment - interestPayment) (Debt.balance debt) in
    let balance := Debt.balance debt - principalPayment in
    let acc' := mkAcc (monthlyInterest acc + interestPayment)
                      (monthlyPrincipal acc + principalPayment)
                      extra (order acc) in
    (* Track when debt is paid off *)
    if (balance <=? lit 0.01) && negb (includes (order acc) (Debt.id debt))
    then (Debt.setBalance (lit 0) debt,
          mkAcc (monthlyInterest acc') (monthlyPrincipal acc') extra
                (order acc ++ [Debt.id debt]))
    else (Debt.setBalance balance debt, acc').

(* for (let i = ...; i < debtCopies.length; i++): the copies are distinct
   objects and iteration [i] touches debtCopies[i] only, so the loop is a
   left-to-right pass that rebuilds the array. *)
Fixpoint forDebts (i : nat) (debtCopies : list (Debt.t F)) (acc : MonthAcc)
  : list (Debt.t F) * MonthAcc :=
  match debtCopies with
  | [] => ([], acc)
  | debt :: rest =>
      let '(debt', acc1) := processDebt i debt acc in
      let '(rest', acc2) := forDebts (S i) rest acc1 in
      (debt' :: rest', acc2)
  end.

(** *** The while loop *)

Record LoopState : Type := mkState {
  st_debtCopies : list (Debt.t F);
  st_paymentSchedule : list (PaymentBreakdown.t F);
  st_debtOrder : list string;
  st_month : Z;
  st_totalInterest : F
}.

(* debtCopies.some(debt => debt.balance > 0.01) && month <= 600 *)
Definition loopCond (st : LoopState) : bool :=
  existsb (fun debt => Debt.balance debt >? lit 0.01) (st_debtCopies st)
  && (st_month st <=? 600)%Z.

Definition loopBody (availablePayment totalMinimums : F) (st : LoopState)
  : LoopState :=
  let extraPayment := availablePayment - totalMinimums in
  let '(copies, acc) :=
    forDebts 0 (st_debtCopies st)
             (mkAcc (lit 0) (lit 0) extraPayment (st_debtOrder st)) in
  let totalInterest := st_totalInterest st + monthlyInterest acc in
  let record :=
    PaymentBreakdown.mk (st_month st)
      (monthlyPrincipal acc)
      (monthlyInterest acc)
      (sumOf (@Debt.balance F) copies)
      (monthlyPrincipal acc + monthlyInterest acc) in
  mkState copies (st_paymentSchedule st ++ [record]) (order acc)
          (st_month st + 1)%Z totalInterest.

(* paymentSchedule = [], debtOrder = [], month = 1, totalInterest = 0 *)
Definition initialState (debtCopies : list (Debt.t F)) : LoopState :=
  mkState debtCopies [] [] 1%Z (lit 0).

(* while (cond) body, given [fuel] iterations at most *)
Fixpoint while {S : Type} (fuel : nat) (cond : S -> bool) (body : S -> S)
  (st : S) : option S :=
  if cond st then
    match fuel with
    | O => None
    | Datatypes.S fuel' => while fuel' cond body (body st)
    end
  else Some st.

Definition insufficientPayment : string :=
  "Available payment is less than total minimum payments required".

Definition calculateDebtStrategyFuel (fuel : nat)
  (sortedDebts : list (Debt.t F)) (availablePayment : F)
  (strategy : RepaymentStrategy) : outcome (DebtAnalysis.t F) :=
  let debtCopies := map (fun debt => debt) sortedDebts in
  (* Calculate minimum payments total *)
  let totalMinimums := sumOf (@Debt.minimumPayment F) debtCopies in
  if totalMinimums >? availablePayment then Thrown insufficientPayment
  else
    match while fuel loopCond (loopBody availablePayment totalMinimums)
                (initialState debtCopies) with
    | None => OutOfFuel
    | Some st =>
        Returned (DebtAnalysis.mk strategy
                    (st_totalInterest st)
                    (st_month st - 1)%Z
                    availablePayment
                    (st_paymentSchedule st)
                    (st_debtOrder st))
    end.

(* The loop stops once month exceeds 600: 600 iterations are all it can make
   (see [calculateDebtStrategy_fuel] below). *)
Definition calculateDebtStrategy := calculateDebtStrategyFuel 600.

(** *** The three strategies *)

(* Sort debts by balance (smallest first) *)
Definition snowballOrder (debts : list (Debt.t F)) : list (Debt.t F) :=
  sortBy (fun a b => Debt.balance a - Debt.balance b) debts.

Definition calculateSnowballStrategy (debts : list (Debt.t F))
  (availablePayment : F) : outcome (DebtAnalysis.t F) :=
  let sortedDebts := snowballOrder debts in
  calculateDebtStrategy sortedDebts availablePayment snowball.

(* Sort debts by interest rate (highest first) *)
Definition avalancheOrder (debts : list (Debt.t F)) : list (Debt.t F) :=
  sortBy (fun a b => Debt.interestRate b - Debt.interestRate a) debts.

Definition calculateAvalancheStrategy (debts : list (Debt.t F))
  (availablePayment : F) : outcome (DebtAnalysis.t F) :=
  let sortedDebts := avalancheOrder debts in
  calculateDebtStrategy sortedDebts availablePayment avalanche.

(* { ...debt, hybridScore } *)
Record ScoredDebt : Type := mkScored {
  scored : Debt.t F;
  hybridScore : F
}.

Definition scoreDebts (debts : list (Debt.t F)) : list ScoredDebt :=
  map (fun debt =>
         mkScored debt
           ((Debt.balance debt / lit 10000) * lit 0.4
            + Debt.interestRate debt * lit 0.6))
      debts.

(* Sort by hybrid score (lowest first); the engine reads the Debt fields of
   the scored records only. *)
Definition hybridOrder (debts : list (Debt.t F)) : list (Debt.t F) :=
  map scored
    (sortBy (fun a b => hybridScore a - hybridScore b) (scoreDebts debts)).

Definition calculateHybridStrategy (debts : list (Debt.t F))
  (availablePayment : F) : outcome (DebtAnalysis.t F) :=
  let sortedDebts := hybridOrder debts in
  calculateDebtStrategy sortedDebts availablePayment hybrid.

(* the ordering and the strategy function of each policy, to state a
   property of the three at once *)
Definition orderByPolicy (policy : RepaymentStrategy)
  (debts : list (Debt.t F)) : list (Debt.t F) :=
  match policy with
  | snowball => snowballOrder debts
  | avalanche => avalancheOrder debts
  | hybrid => hybridOrder debts
  end.

Definition strategyFunction (policy : RepaymentStrategy)
  : list (Debt.t F) -> F -> outcome (DebtAnalysis.t F) :=
  match policy with
  | snowball => calculateSnowballStrategy
  | avalanche => calculateAvalancheStrategy
  | hybrid => calculateHybridStrategy
  end.

(** *** Metrics *)

Record DebtMetrics : Type := mkMetrics {
  totalDebt : F;
  totalMinimumPayments : F;
  debtToIncomeRatio : F;
  averageInterestRate : F;
  recommendedPayment : F
}.

(* Every operation it uses (reduce from an initial value, number
   arithmetic, Math.max) is total on numbers: there is no path that throws,
   so the model is a plain function. *)
Definition calculateDebtMetrics (debts : list (Debt.t F)) (monthlyIncome : F)
  : DebtMetrics :=
  let totalDebt := sumOf (@Debt.balance F) debts in
  let totalMinimumPayments := sumOf (@Debt.minimumPayment F) debts in
  let debtToIncomeRatio := (totalMinimumPayments / monthlyIncome) * lit 100 in
  let weightedInterestRate :=
    sumOf (fun debt => Debt.interestRate debt * Debt.balance debt) debts
    / totalDebt in
  mkMetrics totalDebt totalMinimumPayments debtToIncomeRatio
    weightedInterestRate
    (mathMax totalMinimumPayments (monthlyIncome * lit 0.2)).

(** *** Validation *)

(* `${n}` for a non-negative integer n *)
Definition showNat (n : nat) : string :=
  NilEmpty.string_of_uint (Nat.to_uint n).

(* `Debt ${index + 1}: ${text}` *)
Definition debtProblem (index : nat) (text : string) : string :=
  ("Debt " ++ showNat (index + 1) ++ ": " ++ text)%string.

(* errors.push(msg) when the test holds *)
Definition pushIf (test : bool) (msg : string) (errors : list string)
  : list string :=
  if test then errors ++ [msg] else errors.

(* the callback of debts.forEach *)
Definition validateDebt (debt : Debt.t F) (index : nat)
  (errors : list string) : list string :=
  let errors :=
    pushIf (Debt.balance debt <=? lit 0)
      (debtProblem index "Balance must be greater than 0") errors in
  let errors :=
    pushIf ((Debt.interestRate debt <? lit 0)
            || (Debt.interestRate debt >? lit 50))
      (debtProblem index "Interest rate must be between 0% and 50%") errors in
  let errors :=
    pushIf (Debt.minimumPayment debt <=? lit 0)
      (debtProblem index "Minimum payment must be greater than 0") errors in
  let monthlyRate := calculateMonthlyRate (Debt.interestRate debt) in
  let interestOnlyPayment := Debt.balance debt * monthlyRate in
  pushIf (Debt.minimumPayment debt <=? interestOnlyPayment)
    (debtProblem index "Minimum payment is too low to cover interest") errors.

(* arr.forEach((x, index) => ...) threading the state the callback mutates *)
Fixpoint forEachFrom {A S : Type} (callback : A -> nat -> S -> S)
  (index : nat) (arr : list A) (s : S) : S :=
  match arr with
  | [] => s
  | x :: rest =>
      forEachFrom callback (Datatypes.S index) rest (callback x index s)
  end.

Definition validateDebts (debts : list (Debt.t F)) : list string :=
  forEachFrom validateDebt 0 debts [].

End Engine.

(** ** Objects and arrays: who owns what

    The engine receives references: [debts] is a reference to the caller's
    array, whose elements are references to the caller's debt records.  The
    model below keeps objects and arrays in a store, so that copying
    ([...debts], [{...debt}], [map]) and mutating ([sort] in place,
    [debt.balance -= ...]) are distinguishable, and runs the three strategy
    functions on it. *)

Declare Scope store_scope.

Module Store.

(* a reference is the position of its target in the store *)
Abbreviation ref := nat (only parsing).

Section StoreModel.

Context {F : Type} `{Number F}.

(* a debt record; scored records also carry the hybridScore property *)
Record Obj : Type := mkObj {
  fields : Debt.t F;
  score : option F
}.

Record heap : Type := mkHeap {
  objects : list Obj;
  arrays : list (list ref)
}.

(** *** Computations on the store; [None] is a dangling reference or a
    missing property, which typed callers never produce *)

Definition M (A : Type) : Type := heap -> option (A * heap).

Definition ret {A} (a : A) : M A := fun h => Some (a, h).

Definition bind {A B} (m : M A) (k : A -> M B) : M B :=
  fun h => match m h with
           | Some (a, h') => k a h'
           | None => None
           end.

Definition stuck {A} : M A := fun _ => None.

Notation "x <- m ;; k" := (bind m (fun x => k))
  (at level 61, m at next level, right associativity).

(* the results of [visit] on the elements, visited in order *)
Fixpoint mapM {A B} (visit : A -> M B) (elems : list A) : M (list B) :=
  match elems with
  | [] => ret []
  | x :: rest =>
      y <- visit x ;; ys <- mapM visit rest ;; ret (y :: ys)
  end.

Fixpoint update {A} (l : list A) (i : nat) (x : A) : list A :=
  match l, i with
  | [], _ => []
  | _ :: rest, O => x :: rest
  | y :: rest, S j => y :: update rest j x
  end.

Definition newObj (o : Obj) : M ref :=
  fun h => Some (length (objects h), mkHeap (objects h ++ [o]) (arrays h)).

Definition readObj (r : ref) : M Obj :=
  fun h => match nth_error (objects h) r with
           | Some o => Some (o, h)
           | None => None
           end.

(* debt.balance = b, on the record behind [r] *)
Definition writeBalance (r : ref) (b : F) : M unit :=
  fun h => match nth_error (objects h) r with
           | Some o =>
               Some (tt, mkHeap
                           (update (objects h) r
                              (mkObj (Debt.setBalance b (fields o)) (score o)))
                           (arrays h))
           | None => None
           end.

Definition newArray (elems : list ref) : M ref :=
  fun h => Some (length (arrays h), mkHeap (objects h) (arrays h ++ [elems])).

Definition readArray (a : ref) : M (list ref) :=
  fun h => match nth_error (arrays h) a with
           | Some elems => Some (elems, h)
           | None => None
           end.

Definition writeArray (a : ref) (elems : list ref) : M unit :=
  fun h => match nth_error (arrays h) a with
           | Some _ => Some (tt, mkHeap (objects h) (update (arrays h) a elems))
           | None => None
           end.

(** *** Array operations of the source *)

(* [...arr]: a new array of the same element references *)
Definition spread (arr : ref) : M ref :=
  elems <- readArray arr ;; newArray elems.

(* arr.map(x => ({...})): a new array of new records *)
Definition mapObjects (callback : Obj -> Obj) (arr : ref) : M ref :=
  elems <- readArray arr ;;
  new <- mapM (fun r => o <- readObj r ;; newObj (callback o)) elems ;;
  newArray new.

(* arr.sort((a, b) => cmp(a.key, b.key)): sorts [arr] in place and returns
   it.  The comparator only reads, so each element's key is read once. *)
Definition sortByKey (key : Obj -> option F) (cmp : F -> F -> F) (arr : ref)
  : M ref :=
  elems <- readArray arr ;;
  keyed <- mapM (fun r => o <- readObj r ;;
                          match key o with
                          | Some k => ret (r, k)
                          | None => stuck
                          end) elems ;;
  _ <- writeArray arr
         (map fst (sortBy (fun a b => cmp (snd a) (snd b)) keyed)) ;;
  ret arr.

(** *** The engine on the store *)

(* The locals of calculateDebtStrategy other than debtCopies.  The arrays
   paymentSchedule and debtOrder are created by the call, which alone pushes
   to them: they are kept as values. *)
Record Locals : Type := mkLocals {
  paymentSchedule : list (PaymentBreakdown.t F);
  debtOrder : list string;
  month : Z;
  totalInterest : F
}.

(* The body of the for loop on debtCopies[i], the record behind [r]: the
   arithmetic is [processDebt]'s, and the assignments to debt.balance are one
   write, of the last value assigned, through [r]. *)
Definition processDebtAt (i : nat) (r : ref) (acc : @MonthAcc F)
  : M (@MonthAcc F) :=
  debt <- readObj r ;;
  if Debt.balance (fields debt) <=? lit 0.01 then ret acc        (* continue *)
  else
    let '(debt', acc') := processDebt i (fields debt) acc in
    _ <- writeBalance r (Debt.balance debt') ;;
    ret acc'.

Fixpoint forDebtsAt (i : nat) (debtCopies : list ref) (acc : @MonthAcc F)
  : M (@MonthAcc F) :=
  match debtCopies with
  | [] => ret acc
  | r :: rest =>
      acc1 <- processDebtAt i r acc ;; forDebtsAt (S i) rest acc1
  end.

Definition loopCondAt (debtCopies : list ref) (l : Locals) : M bool :=
  copies <- mapM readObj debtCopies ;;
  ret (existsb (fun debt => Debt.balance (fields debt) >? lit 0.01) copies
       && (month l <=? 600)%Z).

Definition loopBodyAt (availablePayment totalMinimums : F)
  (debtCopies : list ref) (l : Locals) : M Locals :=
  acc <- forDebtsAt 0 debtCopies
           (mkAcc (lit 0) (lit 0) (availablePayment - totalMinimums)
                  (debtOrder l)) ;;
  copies <- mapM readObj debtCopies ;;
  let record :=
    PaymentBreakdown.mk (month l)
      (monthlyPrincipal acc)
      (monthlyInterest acc)
      (sumOf (fun debt => Debt.balance (fields debt)) copies)
      (monthlyPrincipal acc + monthlyInterest acc) in
  ret (mkLocals (paymentSchedule l ++ [record]) (order acc)
                (month l + 1)%Z (totalInterest l + monthlyInterest acc)).

Fixpoint whileM {S : Type} (fuel : nat) (cond : S -> M bool)
  (body : S -> M S) (s : S) : M (option S) :=
  continue <- cond s ;;
  if continue then
    match fuel with
    | O => ret None
    | Datatypes.S fuel' => s' <- body s ;; whileM fuel' cond body s'
    end
  else ret (Some s).

Definition calculateDebtStrategyAt (fuel : nat) (sortedDebts : ref)
  (availablePayment : F) (strategy : RepaymentStrategy)
  : M (outcome (DebtAnalysis.t F)) :=
  debtCopiesArr <- mapObjects (fun debt => debt) sortedDebts ;;
  debtCopies <- readArray debtCopiesArr ;;
  copies <- mapM readObj debtCopies ;;
  let totalMinimums :=
    sumOf (fun debt => Debt.minimumPayment (fields debt)) copies in
  if totalMinimums >? availablePayment then ret (Thrown insufficientPayment)
  else
    final <- whileM fuel (loopCondAt debtCopies)
               (loopBodyAt availablePayment totalMinimums debtCopies)
               (mkLocals [] [] 1%Z (lit 0)) ;;
    match final with
    | None => ret OutOfFuel
    | Some l =>
        ret (Returned (DebtAnalysis.mk strategy (totalInterest l)
                         (month l - 1)%Z availablePayment
                         (paymentSchedule l) (debtOrder l)))
    end.

Definition calculateSnowballStrategyAt (debts : ref) (availablePayment : F)
  : M (outcome (DebtAnalysis.t F)) :=
  copy <- spread debts ;;
  sortedDebts <- sortByKey (fun debt => Some (Debt.balance (fields debt)))
                   (fun a b => a - b) copy ;;
  calculateDebtStrategyAt 600 sortedDebts availablePayment snowball.

Definition calculateAvalancheStrategyAt (debts : ref) (availablePayment : F)
  : M (outcome (DebtAnalysis.t F)) :=
  copy <- spread debts ;;
  sortedDebts <- sortByKey (fun debt => Some (Debt.interestRate (fields debt)))
                   (fun a b => b - a) copy ;;
  calculateDebtStrategyAt 600 sortedDebts availablePayment avalanche.

Definition calculateHybridStrategyAt (debts : ref) (availablePayment : F)
  : M (outcome (DebtAnalysis.t F)) :=
  scoredDebts <-
    mapObjects
      (fun debt =>
         mkObj (fields debt)
           (Some ((Debt.balance (fields debt) / lit 10000) * lit 0.4
                  + Debt.interestRate (fields debt) * lit 0.6)))
      debts ;;
  sortedDebts <- sortByKey score (fun a b => a - b) scoredDebts ;;
  calculateDebtStrategyAt 600 sortedDebts availablePayment hybrid.

Definition strategyFunctionAt (policy : RepaymentStrategy)
  : ref -> F -> M (outcome (DebtAnalysis.t F)) :=
  match policy with
  | snowball => calculateSnowballStrategyAt
  | avalanche => calculateAvalancheStrategyAt
  | hybrid => calculateHybridStrategyAt
  end.

End StoreModel.

Notation "x <- m ;; k" := (bind m (fun x => k))
  (at level 61, m at next level, right associativity) : store_scope.

End Store.

(** ** Facts about the loops *)

Section LoopFacts.

Context {F : Type} `{Number F}.

(** An invariant kept by the body holds when the loop exits, and the
    condition is then false. *)
Lemma while_invariant {S : Type} (P : S -> Prop) (cond : S -> bool)
  (body : S -> S) :
  (forall s, P s -> cond s = true -> P (body s)) ->
  forall fuel s s',
    P s -> while fuel cond body s = Some s' -> P s' /\ cond s' = false.
Proof.
  intros step fuel.
  induction fuel as [|fuel IH]; intros s s' Ps; simpl;
    destruct (cond s) eqn:Hc; intro E; try discriminate.
  - inversion E; subst; auto.
  - eapply IH; [apply step; eassumption | exact E].
  - inversion E; subst; auto.
Qed.

(** A measure that the body decreases bounds the fuel the loop needs. *)
Lemma while_terminates {S : Type} (measure : S -> nat) (cond : S -> bool)
  (body : S -> S) :
  (forall s, cond s = true -> measure (body s) < measure s)%nat ->
  forall fuel s,
    (measure s <= fuel)%nat -> exists s', while fuel cond body s = Some s'.
Proof.
  intros dec fuel.
  induction fuel as [|fuel IH]; intros s Hm; simpl;
    destruct (cond s) eqn:Hc; eauto.
  - specialize (dec s Hc). lia.
  - apply IH. specialize (dec s Hc). lia.
Qed.

(** More fuel does not change a result. *)
Lemma while_more_fuel {S : Type} (cond : S -> bool) (body : S -> S) :
  forall fuel s s' extra,
    while fuel cond body s = Some s' ->
    while (fuel + extra) cond body s = Some s'.
Proof.
  induction fuel as [|fuel IH]; intros s s' extra; simpl;
    destruct (cond s) eqn:Hc; intro E; try discriminate.
  - destruct extra; simpl; rewrite Hc; exact E.
  - apply IH; exact E.
  - exact E.
Qed.

Lemma forDebts_length (debtCopies : list (Debt.t F)) :
  forall i acc, length (fst (forDebts i debtCopies acc)) = length debtCopies.
Proof.
  induction debtCopies as [|debt rest IH]; intros i acc; simpl; auto.
  destruct (processDebt i debt acc) as [debt' acc1].
  specialize (IH (S i) acc1).
  destruct (forDebts (S i) rest acc1) as [rest' acc2]; simpl in *.
  now rewrite IH.
Qed.

Lemma loopBody_month (availablePayment totalMinimums : F) (st : @LoopState F) :
  st_month (loopBody availablePayment totalMinimums st) = (st_month st + 1)%Z.
Proof.
  unfold loopBody.
  destruct (forDebts _ _ _) as [copies acc]; reflexivity.
Qed.

Lemma loopBody_schedule_length (availablePayment totalMinimums : F)
  (st : @LoopState F) :
  length (st_paymentSchedule (loopBody availablePayment totalMinimums st))
  = S (length (st_paymentSchedule st)).
Proof.
  unfold loopBody.
  destruct (forDebts _ _ _) as [copies acc]; simpl.
  rewrite length_app; simpl; lia.
Qed.

Lemma loopCond_month (st : @LoopState F) :
  loopCond st = true -> (st_month st <= 600)%Z.
Proof.
  unfold loopCond; intro E.
  apply andb_true_iff in E as [_ E]. now apply Z.leb_le in E.
Qed.

(* iterations left before the month counter passes the ceiling *)
Definition monthsLeft (st : @LoopState F) : nat := Z.to_nat (601 - st_month st).

Lemma loopBody_monthsLeft (availablePayment totalMinimums : F) (st : @LoopState F) :
  loopCond st = true ->
  (monthsLeft (loopBody availablePayment totalMinimums st) < monthsLeft st)%nat.
Proof.
  intro E. apply loopCond_month in E.
  unfold monthsLeft. rewrite loopBody_month. lia.
Qed.

(** The loop of the simulation always exits within 600 iterations. *)
Lemma simulation_terminates (availablePayment totalMinimums : F)
  (debtCopies : list (Debt.t F)) (extra : nat) :
  exists st,
    while (600 + extra) loopCond (loopBody availablePayment totalMinimums)
          (initialState debtCopies) = Some st.
Proof.
  apply while_terminates with (measure := monthsLeft).
  - intros s; apply loopBody_monthsLeft.
  - unfold monthsLeft, initialState; simpl. lia.
Qed.


(** The engine returns exactly when the guard on the minimum payments lets
    it through, and what it returns is read off the final loop state. *)
Lemma calculateDebtStrategy_returned (sortedDebts : list (Debt.t F))
  (availablePayment : F) (strategy : RepaymentStrategy)
  (a : DebtAnalysis.t F) :
  calculateDebtStrategy sortedDebts availablePayment strategy = Returned a <->
  (sumOf (@Debt.minimumPayment F) sortedDebts >? availablePayment) = false /\
  exists st,
    while 600 loopCond
      (loopBody availablePayment (sumOf (@Debt.minimumPayment F) sortedDebts))
      (initialState sortedDebts) = Some st /\
    a = DebtAnalysis.mk strategy (st_totalInterest st) (st_month st - 1)%Z
          availablePayment (st_paymentSchedule st) (st_debtOrder st).
Proof.
  unfold calculateDebtStrategy, calculateDebtStrategyFuel.
  rewrite map_id.
  destruct (_ >? _).
  - split; [discriminate | intros [E _]; discriminate].
  - destruct (while 600 _ _ _) as [st|].
    + split.
      * intro E; inversion E; subst. split; eauto.
      * intros [_ [st' [E ->]]]. inversion E; subst. reflexivity.
    + split; [discriminate | intros [_ [st' [E _]]]; discriminate].
Qed.

End LoopFacts.

(** ** Ordering policies *)

Section Ordering.

Context {F : Type} `{Number F}.

Lemma insertBy_perm {A} (cmp : A -> A -> F) (x : A) (sorted : list A) :
  Permutation (insertBy cmp x sorted) (x :: sorted).
Proof.
  induction sorted as [|y rest IH]; simpl; auto.
  destruct (_ >? _); auto.
  rewrite IH. apply perm_swap.
Qed.

Lemma sortBy_perm {A} (cmp : A -> A -> F) (arr : list A) :
  Permutation (sortBy cmp arr) arr.
Proof.
  induction arr as [|x rest IH]; simpl; auto.
  rewrite insertBy_perm. now constructor.
Qed.

Lemma scoreDebts_scored (debts : list (Debt.t F)) :
  map (@scored F) (scoreDebts debts) = debts.
Proof.
  unfold scoreDebts. rewrite map_map; simpl. apply map_id.
Qed.

(** C6. Under each of the three policies the sequence of debts handed to
    the engine is a permutation of the input list, so it carries the same
    multiset of debt ids. *)
Theorem order_is_permutation (debts : list (Debt.t F)) :
  (Permutation (snowballOrder debts) debts
   /\ Permutation (avalancheOrder debts) debts
   /\ Permutation (hybridOrder debts) debts)
  /\ Permutation (map (@Debt.id F) (snowballOrder debts)) (map (@Debt.id F) debts)
  /\ Permutation (map (@Debt.id F) (avalancheOrder debts)) (map (@Debt.id F) debts)
  /\ Permutation (map (@Debt.id F) (hybridOrder debts)) (map (@Debt.id F) debts).
Proof.
  assert (Hs : Permutation (snowballOrder debts) debts)
    by apply sortBy_perm.
  assert (Ha : Permutation (avalancheOrder debts) debts)
    by apply sortBy_perm.
  assert (Hh : Permutation (hybridOrder debts) debts).
  { unfold hybridOrder.
    rewrite <- (scoreDebts_scored debts) at 2.
    apply Permutation_map, sortBy_perm. }
  repeat split; auto using Permutation_map.
Qed.

End Ordering.

(** ** What the three orders sort by *)

Section Sorted.

Context {F : Type} `{Number F}.

(* the blended score of the hybrid policy *)
Definition blendedScore (debt : Debt.t F) : F :=
  (Debt.balance debt / lit 10000) * lit 0.4
  + Debt.interestRate debt * lit 0.6.

(** Inserting with a comparator that agrees with an order [R] on the
    elements that satisfy [P] keeps such elements in that order. *)
Lemma insertBy_sorted {A} (P : A -> Prop) (R : A -> A -> Prop)
  (cmp : A -> A -> F) :
  (forall x y z, R x y -> R y z -> R x z) ->
  (forall x y, P x -> P y -> (cmp x y >? lit 0) = true -> R y x) ->
  (forall x y, P x -> P y -> (cmp x y >? lit 0) = false -> R x y) ->
  forall (x : A) (sorted : list A),
    P x -> Forall P sorted ->
    StronglySorted R sorted -> StronglySorted R (insertBy cmp x sorted).
Proof.
  intros trans before after x sorted Px Ps Hs.
  induction Hs as [|y rest Hs IH Hy]; cbn [insertBy].
  - repeat constructor.
  - inversion Ps as [|y' rest' Py Prest]; subst.
    destruct (cmp x y >? lit 0) eqn:E.
    + constructor; auto.
      rewrite Forall_forall in *. intros z Hz.
      apply (Permutation_in _ (insertBy_perm cmp x rest)) in Hz.
      destruct Hz as [<- | Hz]; auto.
    + constructor; [constructor; auto|].
      constructor; auto.
      apply Forall_impl with (2 := Hy). intros z Hz. eauto.
Qed.

Lemma sortBy_sorted {A} (P : A -> Prop) (R : A -> A -> Prop)
  (cmp : A -> A -> F) :
  (forall x y z, R x y -> R y z -> R x z) ->
  (forall x y, P x -> P y -> (cmp x y >? lit 0) = true -> R y x) ->
  (forall x y, P x -> P y -> (cmp x y >? lit 0) = false -> R x y) ->
  forall arr : list A, Forall P arr -> StronglySorted R (sortBy cmp arr).
Proof.
  intros trans before after arr.
  induction arr as [|x rest IH]; intro Pa; simpl; [constructor|].
  inversion Pa as [|x' rest' Px Prest]; subst.
  apply insertBy_sorted with (P := P); auto.
  apply (Permutation_Forall (Permutation_sym (sortBy_perm cmp rest))).
  exact Prest.
Qed.

(* an order [le] on the keys with which the test [x - y > 0] of a comparator
   agrees, for the keys that are [ok] *)
Variable le : F -> F -> Prop.
Variable ok : F -> Prop.
Hypothesis le_transitive : forall x y z, le x y -> le y z -> le x z.
Hypothesis positive_difference :
  forall x y, ok x -> ok y -> (x - y >? lit 0) = true -> le y x.
Hypothesis other_difference :
  forall x y, ok x -> ok y -> (x - y >? lit 0) = false -> le x y.

(* .sort((a, b) => key(a) - key(b)) *)
Lemma sorted_ascending {A} (key : A -> F) (arr : list A) :
  Forall (fun x => ok (key x)) arr ->
  StronglySorted (fun a b => le (key a) (key b))
                 (sortBy (fun a b => key a - key b) arr).
Proof.
  apply sortBy_sorted; eauto.
Qed.

(* .sort((a, b) => key(b) - key(a)) *)
Lemma sorted_descending {A} (key : A -> F) (arr : list A) :
  Forall (fun x => ok (key x)) arr ->
  StronglySorted (fun a b => le (key b) (key a))
                 (sortBy (fun a b => key b - key a) arr).
Proof.
  apply sortBy_sorted; eauto.
Qed.

Lemma scored_sorted (scoredDebts : list (@ScoredDebt F)) :
  Forall (fun s => hybridScore s = blendedScore (scored s)) scoredDebts ->
  StronglySorted (fun a b => le (hybridScore a) (hybridScore b))
                 scoredDebts ->
  StronglySorted (fun a b => le (blendedScore a) (blendedScore b))
                 (map scored scoredDebts).
Proof.
  intros Hall Hs. revert Hall.
  induction Hs as [|s rest Hs IH Hrest]; intro Hall; simpl; [constructor|].
  inversion Hall as [|s' rest' Es Erest]; subst.
  constructor; auto.
  rewrite Forall_forall in *. intros d Hd.
  apply in_map_iff in Hd as [t [<- Ht]].
  rewrite <- Es, <- (Erest t Ht). auto.
Qed.

(** What each policy hands the engine: the debts by ascending balance, by
    descending rate, by ascending blended score. *)
Lemma policies_sort (debts : list (Debt.t F)) :
  (Forall (fun debt => ok (Debt.balance debt)) debts ->
   StronglySorted (fun a b => le (Debt.balance a) (Debt.balance b))
                  (snowballOrder debts))
  /\ (Forall (fun debt => ok (Debt.interestRate debt)) debts ->
      StronglySorted
        (fun a b => le (Debt.interestRate b) (Debt.interestRate a))
        (avalancheOrder debts))
  /\ (Forall (fun debt => ok (blendedScore debt)) debts ->
      StronglySorted (fun a b => le (blendedScore a) (blendedScore b))
                     (hybridOrder debts)).
Proof.
  split; [|split]; intro Hok.
  - now apply sorted_ascending.
  - now apply sorted_descending.
  - unfold hybridOrder. apply scored_sorted.
    + rewrite Forall_forall. intros s Hin.
      apply (Permutation_in _ (sortBy_perm _ (scoreDebts debts))) in Hin.
      unfold scoreDebts in Hin. apply in_map_iff in Hin as [d [<- _]].
      reflexivity.
    + apply sorted_ascending. unfold scoreDebts.
      rewrite Forall_map. exact Hok.
Qed.

End Sorted.

(** ** The simulation: errors, totals, the empty list *)

Section Simulation.

Context {F : Type} `{Number F}.

Lemma strategyFunction_unfold (policy : RepaymentStrategy)
  (debts : list (Debt.t F)) (availablePayment : F) :
  strategyFunction policy debts availablePayment
  = calculateDebtStrategy (orderByPolicy policy debts) availablePayment policy.
Proof. destruct policy; reflexivity. Qed.

Lemma calculateDebtStrategy_thrown (sortedDebts : list (Debt.t F))
  (availablePayment : F) (strategy : RepaymentStrategy) (msg : string) :
  calculateDebtStrategy sortedDebts availablePayment strategy = Thrown msg <->
  (sumOf (@Debt.minimumPayment F) sortedDebts >? availablePayment) = true
  /\ msg = insufficientPayment.
Proof.
  unfold calculateDebtStrategy, calculateDebtStrategyFuel.
  rewrite map_id.
  destruct (_ >? _).
  - split.
    + intro E; inversion E; auto.
    + intros [_ ->]; reflexivity.
  - destruct (while _ _ _ _); split; try discriminate;
      intros [E _]; discriminate.
Qed.


Lemma sumOf_snoc {A} (f : A -> F) (arr : list A) (x : A) :
  sumOf f (arr ++ [x]) = sumOf f arr + f x.
Proof. unfold sumOf. now rewrite fold_left_app. Qed.

(* what the loop keeps true of its bookkeeping *)
Definition bookkeeping (st : @LoopState F) : Prop :=
  st_totalInterest st
  = sumOf (@PaymentBreakdown.interest F) (st_paymentSchedule st)
  /\ Z.of_nat (length (st_paymentSchedule st)) = (st_month st - 1)%Z.

Lemma bookkeeping_initial (debtCopies : list (Debt.t F)) :
  bookkeeping (initialState debtCopies).
Proof. split; reflexivity. Qed.

Lemma bookkeeping_step (availablePayment totalMinimums : F)
  (st : @LoopState F) :
  bookkeeping st -> bookkeeping (loopBody availablePayment totalMinimums st).
Proof.
  intros [Hi Hm]. split.
  - unfold loopBody.
    destruct (forDebts _ _ _) as [copies acc]; simpl.
    rewrite sumOf_snoc; simpl. now rewrite Hi.
  - rewrite loopBody_schedule_length, loopBody_month. lia.
Qed.

(** C5. The total interest of a returned analysis is the sum, taken from 0
    in schedule order, of the interest fields of its payment records. *)
Theorem total_interest_is_sum (sortedDebts : list (Debt.t F))
  (availablePayment : F) (strategy : RepaymentStrategy)
  (a : DebtAnalysis.t F) :
  calculateDebtStrategy sortedDebts availablePayment strategy = Returned a ->
  DebtAnalysis.totalInterest a
  = fold_left (fun sum p => sum + PaymentBreakdown.interest p)
      (DebtAnalysis.paymentSchedule a) (lit 0).
Proof.
  intro R. apply calculateDebtStrategy_returned in R as (_ & st & W & ->).
  apply while_invariant with (P := bookkeeping) in W
    as [[Hi _] _]; auto using bookkeeping_initial.
  intros s Ps _. now apply bookkeeping_step.
Qed.

(** On the empty debt list the guard reads [0 > availablePayment]; when it
    is false the loop does not run and the result is the empty analysis. *)
Lemma empty_debt_list_passes (policy : RepaymentStrategy)
  (availablePayment : F) :
  (lit 0 >? availablePayment) = false ->
  strategyFunction policy [] availablePayment
  = Returned (DebtAnalysis.mk policy (lit 0) 0%Z availablePayment [] []).
Proof.
  intro E.
  destruct policy; unfold strategyFunction, calculateSnowballStrategy,
    calculateAvalancheStrategy, calculateHybridStrategy, calculateDebtStrategy,
    calculateDebtStrategyFuel; simpl; unfold sumOf; simpl; now rewrite E.
Qed.

End Simulation.

(** ** The payoff order *)

Section PayoffOrder.

Context {F : Type} `{Number F}.

(* a debt the monthly pass skips, and one it works on *)
Definition paidOff (debt : Debt.t F) : Prop :=
  (Debt.balance debt <=? lit 0.01) = true.
Definition owing (debt : Debt.t F) : Prop :=
  (Debt.balance debt <=? lit 0.01) = false.

(* the debt copies when the loop of the simulation exits *)
Definition finalState (sortedDebts : list (Debt.t F)) (availablePayment : F)
  : option (@LoopState F) :=
  while 600 loopCond
    (loopBody availablePayment (sumOf (@Debt.minimumPayment F) sortedDebts))
    (initialState sortedDebts).

Lemma includes_In (arr : list string) (s : string) :
  includes arr s = true <-> In s arr.
Proof.
  unfold includes. rewrite existsb_exists. split.
  - intros [x [Hx E]]. apply String.eqb_eq in E. now subst.
  - intro Hs. exists s. split; auto. apply String.eqb_refl.
Qed.

Lemma includes_not_In (arr : list string) (s : string) :
  includes arr s = false <-> ~ In s arr.
Proof.
  rewrite <- includes_In. destruct (includes arr s); split; congruence.
Qed.

(** One debt in one month: either the payoff order is untouched, or the
    debt was owing, its id was not yet recorded, it is recorded now and its
    balance is set to 0. *)
Lemma processDebt_order (i : nat) (debt : Debt.t F) (acc : @MonthAcc F) :
  let '(debt', acc') := processDebt i debt acc in
  Debt.id debt' = Debt.id debt /\
  ((order acc' = order acc /\
    (paidOff debt' -> paidOff debt \/ In (Debt.id debt) (order acc)))
   \/
   (order acc' = order acc ++ [Debt.id debt] /\
    ~ In (Debt.id debt) (order acc) /\
    owing debt /\ debt' = Debt.setBalance (lit 0) debt)).
Proof.
  unfold processDebt, paidOff, owing.
  destruct (Debt.balance debt <=? lit 0.01) eqn:Hskip.
  - split; auto.
  - match goal with
    | |- context [if ?c && negb ?inc then _ else _] =>
        destruct c eqn:Hpaid; destruct inc eqn:Hinc; simpl
    end; split; auto.
    + left; split; auto. intros _. right. now apply includes_In.
    + right. repeat split; auto. now apply includes_not_In.
    + left; split; auto. intro E. rewrite Hpaid in E. discriminate.
    + left; split; auto. intro E. rewrite Hpaid in E. discriminate.
Qed.

(** The monthly pass: what it appends to the payoff order. *)
Lemma forDebts_order (debtCopies : list (Debt.t F)) :
  forall (i : nat) (acc : @MonthAcc F),
    let '(copies', acc') := forDebts i debtCopies acc in
    map (@Debt.id F) copies' = map (@Debt.id F) debtCopies /\
    length copies' = length debtCopies /\
    exists new,
      order acc' = order acc ++ new /\
      NoDup new /\
      (forall id, In id new ->
         ~ In id (order acc) /\
         exists debt,
           In (debt, Debt.setBalance (lit 0) debt) (combine debtCopies copies')
           /\ Debt.id debt = id /\ owing debt) /\
      (forall debt debt',
         In (debt, debt') (combine debtCopies copies') ->
         paidOff debt' ->
         paidOff debt \/ In (Debt.id debt) (order acc')).
Proof.
  induction debtCopies as [|debt rest IH]; intros i acc; simpl.
  - split; [reflexivity|]. split; [reflexivity|].
    exists []. rewrite app_nil_r.
    split; [reflexivity|]. split; [apply NoDup_nil|].
    split; [intros id []| intros d d' []].
  - pose proof (processDebt_order i debt acc) as P.
    destruct (processDebt i debt acc) as [debt' acc1].
    specialize (IH (S i) acc1).
    destruct (forDebts (S i) rest acc1) as [rest' acc2].
    destruct P as [Hid P].
    destruct IH as (Hids & Hlen & new & Hnew & Hnd & Hin & Hrec).
    simpl. split; [congruence|]. split; [congruence|].
    destruct P as [[Ho Hp] | (Ho & Hfresh & Howing & ->)].
    + exists new. rewrite Hnew, Ho.
      split; [reflexivity|]. split; [exact Hnd|]. split.
      * intros id Hi. destruct (Hin id Hi) as [Hn [d (Hd & Hdi & Hdo)]].
        split; [now rewrite <- Ho|]. exists d. simpl. auto.
      * intros d d' [E | Hd] Hpaid.
        -- inversion E; subst.
           destruct (Hp Hpaid) as [Hp' | Hp']; auto.
           right. apply in_or_app; auto.
        -- rewrite <- Ho, <- Hnew. eauto.
    + exists (Debt.id debt :: new). rewrite Hnew, Ho, <- app_assoc. simpl.
      assert (Hlater : forall id, In id new -> ~ In id (order acc ++ [Debt.id debt])).
      { intros id Hi. rewrite <- Ho. now apply Hin. }
      split; [reflexivity|]. split; [|split].
      * constructor; auto. intro Hn.
        apply (Hlater _ Hn). apply in_or_app; right; simpl; auto.
      * intros id [<- | Hi].
        -- split; auto. exists debt. simpl. auto.
        -- destruct (Hin id Hi) as [_ [d (Hd & Hdi & Hdo)]].
           split.
           ++ intro Hold. apply (Hlater _ Hi). apply in_or_app; auto.
           ++ exists d. simpl. auto.
      * intros d d' [E | Hd] Hpaid.
        -- inversion E; subst. right.
           apply in_or_app; right; simpl; auto.
        -- replace (order acc ++ Debt.id debt :: new)
             with (order acc2)
             by (rewrite Hnew, Ho, <- app_assoc; reflexivity).
           eauto.
Qed.

Lemma combine_map_eq {A B} (f : A -> B) (l1 l2 : list A) :
  map f l2 = map f l1 ->
  forall a b, In (a, b) (combine l1 l2) -> f b = f a.
Proof.
  revert l2; induction l1 as [|x l1 IH]; intros [|y l2] E a b; simpl;
    try contradiction.
  inversion E. intros [P | P]; [inversion P; subst; auto | eauto].
Qed.

Lemma in_combine_partner {A} (l1 l2 : list A) :
  length l2 = length l1 ->
  forall b, In b l2 -> exists a, In (a, b) (combine l1 l2).
Proof.
  revert l2; induction l1 as [|x l1 IH]; intros [|y l2] E b; simpl;
    try contradiction; try discriminate.
  intros [<- | Hb]; eauto.
  destruct (IH l2) with (b := b) as [a Ha]; auto.
  eauto.
Qed.

(* what the loop keeps true of the payoff order *)
Definition orderInvariant (sortedDebts : list (Debt.t F))
  (st : @LoopState F) : Prop :=
  map (@Debt.id F) (st_debtCopies st) = map (@Debt.id F) sortedDebts
  /\ NoDup (st_debtOrder st)
  /\ incl (st_debtOrder st) (map (@Debt.id F) sortedDebts)
  /\ (Forall owing sortedDebts ->
      Forall (fun debt => paidOff debt -> In (Debt.id debt) (st_debtOrder st))
             (st_debtCopies st)).

Lemma orderInvariant_initial (sortedDebts : list (Debt.t F)) :
  orderInvariant sortedDebts (initialState sortedDebts).
Proof.
  repeat split; simpl; auto using NoDup_nil, incl_nil_l.
  intro Ho. apply Forall_impl with (2 := Ho).
  unfold owing, paidOff. congruence.
Qed.

(** A month of the simulation, from any state: the ids it appends to the
    payoff order are new to it and pairwise distinct; each belongs to a debt
    that was owing when the month began and whose balance the month set to
    0; and every debt that ends the month at or below the threshold was
    there before or has its id in the order by the end of that month. *)
Lemma loopBody_order (availablePayment totalMinimums : F)
  (st : @LoopState F) :
  let st' := loopBody availablePayment totalMinimums st in
  let months := combine (st_debtCopies st) (st_debtCopies st') in
  map (@Debt.id F) (st_debtCopies st') = map (@Debt.id F) (st_debtCopies st)
  /\ length (st_debtCopies st') = length (st_debtCopies st)
  /\ exists new,
      st_debtOrder st' = st_debtOrder st ++ new
      /\ NoDup new
      /\ (forall id, In id new ->
            ~ In id (st_debtOrder st)
            /\ exists debt,
                In (debt, Debt.setBalance (lit 0) debt) months
                /\ Debt.id debt = id /\ owing debt)
      /\ (forall debt debt',
            In (debt, debt') months -> paidOff debt' ->
            paidOff debt \/ In (Debt.id debt) (st_debtOrder st')).
Proof.
  unfold loopBody.
  pose proof (forDebts_order (st_debtCopies st) 0
    (mkAcc (lit 0) (lit 0) (availablePayment - totalMinimums)
           (st_debtOrder st))) as P.
  destruct (forDebts _ _ _) as [copies acc]. simpl in *. exact P.
Qed.

Lemma orderInvariant_step (sortedDebts : list (Debt.t F))
  (availablePayment totalMinimums : F) (st : @LoopState F) :
  orderInvariant sortedDebts st ->
  orderInvariant sortedDebts (loopBody availablePayment totalMinimums st).
Proof.
  intros (Hids & Hnd & Hincl & Hrec).
  destruct (loopBody_order availablePayment totalMinimums st)
    as (Hids' & Hlen & new & Hnew & Hndn & Hin & Hpaid).
  set (st' := loopBody availablePayment totalMinimums st) in *.
  repeat split.
  - congruence.
  - rewrite Hnew. apply NoDup_app; auto.
    intros id Ho Hn. now destruct (Hin id Hn).
  - rewrite Hnew. apply incl_app; auto.
    intros id Hn. destruct (Hin id Hn) as [_ [debt (Hd & <- & _)]].
    rewrite <- Hids. apply in_map. now apply in_combine_l in Hd.
  - intro Ho. specialize (Hrec Ho). rewrite Forall_forall in *.
    intros debt' Hd' Hp.
    destruct (in_combine_partner _ _ Hlen _ Hd') as [debt Hd].
    rewrite (combine_map_eq _ _ _ Hids' _ _ Hd).
    destruct (Hpaid _ _ Hd Hp) as [Hp0 | Hr]; auto.
    rewrite Hnew. apply in_or_app; left.
    apply Hrec; auto. now apply in_combine_l in Hd.
Qed.

Lemma paid_order_complete (sortedDebts : list (Debt.t F))
  (st : @LoopState F) :
  orderInvariant sortedDebts st ->
  NoDup (map (@Debt.id F) sortedDebts) ->
  Forall owing sortedDebts ->
  Forall paidOff (st_debtCopies st) ->
  Permutation (st_debtOrder st) (map (@Debt.id F) sortedDebts).
Proof.
  intros (Hids & Hnd & Hincl & Hrec) Hndi Ho Hp.
  apply NoDup_Permutation; auto.
  intro id; split; [apply Hincl|].
  rewrite <- Hids. intro Hi. apply in_map_iff in Hi as [debt [<- Hd]].
  specialize (Hrec Ho). rewrite Forall_forall in Hrec, Hp. auto.
Qed.

(** C4 (as amended). In a returned analysis every id of the payoff order
    occurs once and is the id of an input debt.  In each simulated month the
    ids appended are those of debts that were owing at the start of the
    month and reach the 0.01 threshold in it (their balance is then set to
    0), each appended in that very month.  When the debts have pairwise
    distinct ids, all start above the threshold and all end at or below it,
    the payoff order is a permutation of the input ids, so its length is the
    number of input debts. *)
Theorem payoff_order (sortedDebts : list (Debt.t F)) (availablePayment : F)
  (strategy : RepaymentStrategy) (a : DebtAnalysis.t F) :
  calculateDebtStrategy sortedDebts availablePayment strategy = Returned a ->
  NoDup (DebtAnalysis.debtOrder a)
  /\ incl (DebtAnalysis.debtOrder a) (map (@Debt.id F) sortedDebts)
  /\ (forall totalMinimums st,
        let st' := loopBody availablePayment totalMinimums st in
        let months := combine (st_debtCopies st) (st_debtCopies st') in
        exists new,
          st_debtOrder st' = st_debtOrder st ++ new
          /\ NoDup new
          /\ (forall id, In id new ->
                ~ In id (st_debtOrder st)
                /\ exists debt,
                    In (debt, Debt.setBalance (lit 0) debt) months
                    /\ Debt.id debt = id /\ owing debt)
          /\ (forall debt debt',
                In (debt, debt') months -> owing debt -> paidOff debt' ->
                In (Debt.id debt) (st_debtOrder st')))
  /\ (forall st,
        finalState sortedDebts availablePayment = Some st ->
        NoDup (map (@Debt.id F) sortedDebts) ->
        Forall owing sortedDebts ->
        Forall paidOff (st_debtCopies st) ->
        Permutation (DebtAnalysis.debtOrder a) (map (@Debt.id F) sortedDebts)
        /\ length (DebtAnalysis.debtOrder a) = length sortedDebts).
Proof.
  intro R. apply calculateDebtStrategy_returned in R as (_ & st & W & ->).
  simpl.
  assert (Inv : orderInvariant sortedDebts st).
  { apply while_invariant with (P := orderInvariant sortedDebts) in W
      as [Inv _]; auto using orderInvariant_initial.
    intros s Ps _. now apply orderInvariant_step. }
  split; [apply Inv|]. split; [apply Inv|]. split.
  - intros totalMinimums s.
    destruct (loopBody_order availablePayment totalMinimums s)
      as (_ & _ & new & Hnew & Hndn & Hin & Hpaid).
    exists new. repeat split; auto; try (now apply Hin).
    intros debt debt' Hd Ho Hp.
    destruct (Hpaid _ _ Hd Hp) as [Hp0 | Hr]; auto.
    unfold owing, paidOff in *. congruence.
  - intros st0 E Hnd Ho Hp.
    unfold finalState in E. rewrite W in E. inversion E; subst st0.
    pose proof (paid_order_complete Inv Hnd Ho Hp) as P.
    split; auto.
    rewrite <- (length_map (@Debt.id F) sortedDebts).
    now apply Permutation_length.
Qed.

End PayoffOrder.

(** ** Termination within the ceiling *)

Section Ceiling.

Context {F : Type} `{Number F}.

Definition withinCeiling (st : @LoopState F) : Prop :=
  bookkeeping st /\ (st_month st <= 601)%Z.

(** With a sufficient budget the engine returns, and what it returns has at
    most 600 payment records, as many as the payoff time counts. *)
Lemma returns_within_ceiling (sortedDebts : list (Debt.t F))
  (availablePayment : F) (strategy : RepaymentStrategy) :
  (sumOf (@Debt.minimumPayment F) sortedDebts >? availablePayment) = false ->
  exists a,
    calculateDebtStrategy sortedDebts availablePayment strategy = Returned a
    /\ (length (DebtAnalysis.paymentSchedule a) <= 600)%nat
    /\ DebtAnalysis.payoffTimeMonths a
       = Z.of_nat (length (DebtAnalysis.paymentSchedule a)).
Proof.
  intro Hbudget.
  destruct (simulation_terminates availablePayment
              (sumOf (@Debt.minimumPayment F) sortedDebts) sortedDebts 0)
    as [st W].
  rewrite Nat.add_0_r in W.
  eexists. split.
  - apply calculateDebtStrategy_returned. split; [exact Hbudget|].
    exists st. split; [exact W | reflexivity].
  - simpl.
    apply while_invariant with (P := withinCeiling) in W as [[[_ Hl] Hm] _].
    + split; lia.
    + intros s [Hb Hm] Hc. split.
      * now apply bookkeeping_step.
      * rewrite loopBody_month. apply loopCond_month in Hc. lia.
    + split; [apply bookkeeping_initial | simpl; lia].
Qed.

(* the records are numbered from 1 and each totals its two parts *)
Definition numbered (st : @LoopState F) : Prop :=
  Z.of_nat (length (st_paymentSchedule st)) = (st_month st - 1)%Z
  /\ forall (i : nat) (p : PaymentBreakdown.t F),
       nth_error (st_paymentSchedule st) i = Some p ->
       PaymentBreakdown.month p = (Z.of_nat i + 1)%Z
       /\ PaymentBreakdown.totalPayment p
          = PaymentBreakdown.principal p + PaymentBreakdown.interest p.

Lemma numbered_step (availablePayment totalMinimums : F)
  (st : @LoopState F) :
  numbered st -> numbered (loopBody availablePayment totalMinimums st).
Proof.
  intros [Hl Hn]. split.
  - rewrite loopBody_schedule_length, loopBody_month. lia.
  - unfold loopBody.
    destruct (forDebts _ _ _) as [copies acc]; simpl.
    intros i p Hp.
    destruct (Nat.lt_ge_cases i (length (st_paymentSchedule st)))
      as [Hlt | Hge].
    + rewrite nth_error_app1 in Hp by lia. auto.
    + rewrite nth_error_app2 in Hp by lia.
      destruct (i - length (st_paymentSchedule st))%nat as [|k] eqn:Hk.
      * simpl in Hp. inversion Hp; subst p; simpl. split; [lia | reflexivity].
      * destruct k; discriminate.
Qed.

(** X2. What a returned analysis looks like: it carries the strategy label and
    the budget it was given, its payoff time is the number of its payment
    records, and the records are numbered 1, 2, ... in order, each with a
    total payment that is the sum of its principal and interest. *)
Theorem returned_analysis_shape (sortedDebts : list (Debt.t F))
  (availablePayment : F) (strategy : RepaymentStrategy)
  (a : DebtAnalysis.t F) :
  calculateDebtStrategy sortedDebts availablePayment strategy = Returned a ->
  DebtAnalysis.strategy a = strategy
  /\ DebtAnalysis.monthlyPayment a = availablePayment
  /\ DebtAnalysis.payoffTimeMonths a
     = Z.of_nat (length (DebtAnalysis.paymentSchedule a))
  /\ forall (i : nat) (p : PaymentBreakdown.t F),
       nth_error (DebtAnalysis.paymentSchedule a) i = Some p ->
       PaymentBreakdown.month p = (Z.of_nat i + 1)%Z
       /\ PaymentBreakdown.totalPayment p
          = PaymentBreakdown.principal p + PaymentBreakdown.interest p.
Proof.
  intro R. apply calculateDebtStrategy_returned in R as (_ & st & W & ->).
  simpl.
  apply while_invariant with (P := numbered) in W as [[Hl Hn] _].
  - split; [reflexivity|]. split; [reflexivity|]. split; [lia | exact Hn].
  - intros s Ps _. now apply numbered_step.
  - split; [reflexivity|]. intros [|i] p Hp; discriminate.
Qed.

End Ceiling.

(** ** Exact arithmetic: comparisons *)

Module Exact.

Open Scope Q_scope.

Lemma leb_true (a b : Q) : leb a b = true <-> a <= b.
Proof. apply Qle_bool_iff. Qed.

Lemma leb_false (a b : Q) : leb a b = false <-> b < a.
Proof.
  split.
  - intro E. apply Qnot_le_lt. intro L. apply leb_true in L. congruence.
  - intro L. destruct (leb a b) eqn:E; auto.
    apply leb_true in E. now apply Qlt_not_le in L.
Qed.

Lemma gtb_true (a b : Q) : gtb a b = true <-> b < a.
Proof.
  change (gtb a b) with (negb (leb a b)).
  rewrite negb_true_iff. apply leb_false.
Qed.

Lemma gtb_false (a b : Q) : gtb a b = false <-> a <= b.
Proof.
  change (gtb a b) with (negb (leb a b)).
  rewrite negb_false_iff. apply leb_true.
Qed.

Lemma mathMin_spec (a b : Q) :
  (a <= b /\ mathMin a b = a) \/ (b < a /\ mathMin a b = b).
Proof.
  simpl. destruct (Qle_bool a b) eqn:E.
  - left. split; auto. now apply Qle_bool_iff.
  - right. split; auto. now apply leb_false.
Qed.

(* the interest a debt accrues in a month *)
Definition monthlyInterestOf (debt : Debt.t Q) : Q :=
  Debt.balance debt * calculateMonthlyRate (Debt.interestRate debt).

Lemma monthlyRate_nonneg (rate : Q) :
  0 <= rate -> 0 <= calculateMonthlyRate rate.
Proof.
  intro Hr. unfold calculateMonthlyRate; simpl.
  unfold Qdiv. repeat apply Qmult_le_0_compat; auto; discriminate.
Qed.

Lemma interest_monotone (b b' rate : Q) :
  0 <= rate -> b' <= b ->
  b' * calculateMonthlyRate rate <= b * calculateMonthlyRate rate.
Proof.
  intros Hr Hb. apply Qmult_le_compat_r; auto using monthlyRate_nonneg.
Qed.

Lemma principal_bounds (payment interest balance : Q) :
  let principal := mathMin (payment - interest)%js balance in
  principal <= balance
  /\ (interest <= payment -> 0 <= balance -> 0 <= principal).
Proof.
  intro principal. unfold principal.
  destruct (mathMin_spec (payment - interest)%js balance)
    as [[Hm ->] | [Hm ->]]; simpl in *; split; intros; lra.
Qed.

Lemma budget_nonneg_extra (sortedDebts : list (Debt.t Q))
  (availablePayment : Q) :
  (sumOf (@Debt.minimumPayment Q) sortedDebts >? availablePayment)%js = false ->
  sumOf (@Debt.minimumPayment Q) sortedDebts <= availablePayment.
Proof. apply gtb_false. Qed.

End Exact.

(** ** Validation *)

Section Validation.

Context {F : Type} `{Number F}.

(* the four checks on a debt *)
Inductive Check : Type :=
  | BalancePositive
  | RateInRange
  | MinimumPositive
  | MinimumCoversInterest.

Definition checks : list Check :=
  [BalancePositive; RateInRange; MinimumPositive; MinimumCoversInterest].

(* when a debt violates a check *)
Definition violated (debt : Debt.t F) (c : Check) : bool :=
  match c with
  | BalancePositive => Debt.balance debt <=? lit 0
  | RateInRange =>
      (Debt.interestRate debt <? lit 0) || (Debt.interestRate debt >? lit 50)
  | MinimumPositive => Debt.minimumPayment debt <=? lit 0
  | MinimumCoversInterest =>
      Debt.minimumPayment debt
      <=? Debt.balance debt * calculateMonthlyRate (Debt.interestRate debt)
  end.

Definition problemText (c : Check) : string :=
  match c with
  | BalancePositive => "Balance must be greater than 0"
  | RateInRange => "Interest rate must be between 0% and 50%"
  | MinimumPositive => "Minimum payment must be greater than 0"
  | MinimumCoversInterest => "Minimum payment is too low to cover interest"
  end.

(* one problem string for each check that the debt at [index] violates *)
Definition problemsOf (index : nat) (debt : Debt.t F) : list string :=
  map (fun c => debtProblem index (problemText c))
      (filter (violated debt) checks).

(* the debts with their indices, from [index] on *)
Definition indexedFrom (index : nat) (debts : list (Debt.t F))
  : list (nat * Debt.t F) :=
  combine (seq index (length debts)) debts.

Lemma validateDebt_problems (debt : Debt.t F) (index : nat)
  (errors : list string) :
  validateDebt debt index errors = errors ++ problemsOf index debt.
Proof.
  unfold validateDebt, problemsOf, pushIf, checks; simpl.
  destruct (Debt.balance debt <=? lit 0);
    destruct ((Debt.interestRate debt <? lit 0)
              || (Debt.interestRate debt >? lit 50));
    destruct (Debt.minimumPayment debt <=? lit 0);
    destruct (Debt.minimumPayment debt <=? _);
    simpl; repeat rewrite <- app_assoc; simpl;
    try reflexivity; now rewrite app_nil_r.
Qed.

Lemma forEachFrom_validateDebt (debts : list (Debt.t F)) :
  forall (index : nat) (errors : list string),
    forEachFrom validateDebt index debts errors
    = errors
      ++ flat_map (fun '(i, debt) => problemsOf i debt)
                  (indexedFrom index debts).
Proof.
  induction debts as [|debt rest IH]; intros index errors; simpl.
  - now rewrite app_nil_r.
  - rewrite IH, validateDebt_problems, <- app_assoc. reflexivity.
Qed.

Lemma indexedFrom_nth (debts : list (Debt.t F)) :
  forall (index i : nat) (debt : Debt.t F),
    nth_error debts i = Some debt ->
    In (index + i, debt)%nat (indexedFrom index debts).
Proof.
  induction debts as [|d rest IH]; intros index [|i] debt E; simpl in *;
    try discriminate.
  - inversion E; subst. left. f_equal. lia.
  - right. replace (index + S i)%nat with (S index + i)%nat by lia.
    now apply IH.
Qed.

Lemma problems_count (debts : list (Debt.t F)) :
  forall index : nat,
    length (flat_map (fun '(i, debt) => problemsOf i debt)
                     (indexedFrom index debts))
    = list_sum (map (fun debt => length (filter (violated debt) checks))
                    debts).
Proof.
  induction debts as [|debt rest IH]; intro index; simpl; auto.
  rewrite length_app. unfold indexedFrom in IH. rewrite IH.
  unfold problemsOf. now rewrite length_map.
Qed.

Lemma validateDebts_spec (debts : list (Debt.t F)) :
  validateDebts debts
  = flat_map (fun '(i, debt) => problemsOf i debt) (indexedFrom 0 debts)
  /\ length (validateDebts debts)
     = list_sum (map (fun debt => length (filter (violated debt) checks))
                     debts)
  /\ (forall (i : nat) (debt : Debt.t F) (c : Check),
        nth_error debts i = Some debt ->
        violated debt c = true ->
        In (debtProblem i (problemText c)) (validateDebts debts)).
Proof.
  assert (E : validateDebts debts
              = flat_map (fun '(i, debt) => problemsOf i debt)
                         (indexedFrom 0 debts)).
  { unfold validateDebts. now rewrite forEachFrom_validateDebt. }
  split; [exact E|]. split.
  - rewrite E. apply problems_count.
  - intros i debt c Hn Hv. rewrite E.
    apply in_flat_map. exists (i, debt). split.
    + now apply (indexedFrom_nth debts 0 i).
    + unfold problemsOf.
      apply (in_map (fun c => debtProblem i (problemText c))).
      apply filter_In. split; auto.
      unfold checks. destruct c; simpl; auto.
Qed.

End Validation.



(** ** Metrics in double arithmetic *)

Module Doubles.

Open Scope float_scope.














#[local] Set Warnings "-inexact-float".

(** The literals of the program denote the doubles that JavaScript reads
    them as. *)
Lemma literals_are_doubles :
  lit 0.01%Q = 0.01 /\ lit 0.4%Q = 0.4 /\ lit 0.6%Q = 0.6 /\ lit 0.2%Q = 0.2
  /\ lit 100%Q = 100 /\ lit 12%Q = 12 /\ lit 50%Q = 50
  /\ lit 10000%Q = 10000.
Proof. repeat split; reflexivity. Qed.

#[local] Set Warnings "+inexact-float".







End Doubles.

(** ** The empty debt list *)

Lemma nonneg_double_passes (x : float) :
  PrimFloat.leb 0 x = true -> PrimFloat.ltb x 0 = false.
Proof.
  rewrite leb_spec, ltb_spec.
  change (Prim2SF 0) with (S754_zero false).
  destruct (Prim2SF x) as [s | s | | s m e]; simpl; auto;
    destruct s; simpl; auto; discriminate.
Qed.

(** C10. On the empty debt list, for any non-negative budget, each
    strategy function returns: total interest 0, payoff time 0, the budget
    as monthly payment, an empty payment schedule and an empty payoff order.
    This holds on every carrier of numbers for a budget that 0 does not
    exceed, hence for the non-negative rationals and the non-negative
    doubles. *)
Theorem empty_debt_list (policy : RepaymentStrategy) :
  (forall (F : Type) (N : Number F) (availablePayment : F),
      (lit 0 >? availablePayment)%js = false ->
      strategyFunction policy [] availablePayment
      = Returned (DebtAnalysis.mk policy (lit 0) 0%Z availablePayment [] []))
  /\ (forall availablePayment : Q,
        (0 <= availablePayment)%Q ->
        strategyFunction policy [] availablePayment
        = Returned (DebtAnalysis.mk policy 0%Q 0%Z availablePayment [] []))
  /\ (forall availablePayment : float,
        PrimFloat.leb 0 availablePayment = true ->
        strategyFunction policy [] availablePayment
        = Returned (DebtAnalysis.mk policy 0%float 0%Z availablePayment
                      [] [])).
Proof.
  split; [|split].
  - intros F N availablePayment. apply empty_debt_list_passes.
  - intros availablePayment Hb.
    apply Exact.gtb_false in Hb.
    exact (empty_debt_list_passes policy availablePayment Hb).
  - intros availablePayment Hb.
    apply nonneg_double_passes in Hb.
    exact (empty_debt_list_passes policy availablePayment Hb).
Qed.

(** ** Ownership: what a call leaves in place *)

Module Ownership.

Import Store.
Open Scope store_scope.

Section OwnershipFacts.

Context {F : Type} `{Number F}.

Local Abbreviation Obj := (@Store.Obj F).
Local Abbreviation heap := (@Store.heap F).
Local Abbreviation Locals := (@Store.Locals F).

(* the record behind [r] *)
Definition pointsTo (h : heap) (r : ref) (o : Obj) : Prop :=
  nth_error (objects h) r = Some o.

(* the array behind [arr] lists references to the records [objs] *)
Definition holds (h : heap) (arr : ref) (objs : list Obj) : Prop :=
  exists elems,
    nth_error (arrays h) arr = Some elems /\ Forall2 (pointsTo h) elems objs.

(* [h'] is [h] with more records and arrays allocated: every record and
   every array of [h] is still there, unchanged, behind the same reference *)
Definition extends (h h' : heap) : Prop :=
  (exists objs, objects h' = objects h ++ objs)
  /\ (exists arrs, arrays h' = arrays h ++ arrs).

Lemma extends_refl (h : heap) : extends h h.
Proof. split; exists []; now rewrite app_nil_r. Qed.

Lemma extends_trans (h1 h2 h3 : heap) :
  extends h1 h2 -> extends h2 h3 -> extends h1 h3.
Proof.
  intros [[o1 E1] [a1 A1]] [[o2 E2] [a2 A2]]. split.
  - exists (o1 ++ o2). now rewrite E2, E1, app_assoc.
  - exists (a1 ++ a2). now rewrite A2, A1, app_assoc.
Qed.

Lemma extends_pointsTo (h h' : heap) (r : ref) (o : Obj) :
  extends h h' -> pointsTo h r o -> pointsTo h' r o.
Proof.
  intros [[objs E] _] P. unfold pointsTo in *. rewrite E.
  rewrite nth_error_app1; auto. apply nth_error_Some. congruence.
Qed.

Lemma extends_holds (h h' : heap) (arr : ref) (objs : list Obj) :
  extends h h' -> holds h arr objs -> holds h' arr objs.
Proof.
  intros X (elems & A & P). exists elems. split.
  - destruct X as [_ [arrs E]]. rewrite E.
    rewrite nth_error_app1; auto. apply nth_error_Some. congruence.
  - apply Forall2_impl with (2 := P). intros r o.
    now apply extends_pointsTo.
Qed.

Lemma update_app_r {A} (base rest : list A) (i : nat) (x : A) :
  update (base ++ rest) (length base + i) x = base ++ update rest i x.
Proof. induction base as [|b base IH]; simpl; auto. now rewrite IH. Qed.

Lemma nth_error_middle {A} (base done todo : list A) (x : A) :
  nth_error (base ++ done ++ x :: todo) (length base + length done) = Some x.
Proof.
  rewrite nth_error_app2 by lia.
  replace (length base + length done - length base)%nat
    with (length done) by lia.
  rewrite nth_error_app2 by lia. now rewrite Nat.sub_diag.
Qed.

Lemma update_middle {A} (base done todo : list A) (old x : A) :
  update (base ++ done ++ old :: todo) (length base + length done) x
  = base ++ done ++ x :: todo.
Proof.
  rewrite update_app_r. f_equal.
  rewrite <- (Nat.add_0_r (length done)). now rewrite update_app_r.
Qed.

(** Reading the records of an array leaves the store as it is. *)
Lemma mapM_readObj (h : heap) (elems : list ref) (objs : list Obj) :
  Forall2 (pointsTo h) elems objs ->
  mapM readObj elems h = Some (objs, h).
Proof.
  induction 1 as [|r o elems objs P _ IH]; simpl; auto.
  unfold bind at 1, readObj at 1. rewrite P.
  unfold bind at 1. rewrite IH. reflexivity.
Qed.

(** Copying the records of an array allocates the copies, in order, after
    the records of the store. *)
Lemma mapM_copy (callback : Obj -> Obj) (elems : list ref)
  (objs : list Obj) :
  forall h,
    Forall2 (pointsTo h) elems objs ->
    mapM (fun r => o <- readObj r ;; newObj (callback o)) elems h
    = Some (seq (length (objects h)) (length elems),
            mkHeap (objects h ++ map callback objs) (arrays h)).
Proof.
  revert objs.
  induction elems as [|r elems IH]; intros objs h P; inversion P; subst;
    simpl.
  - unfold ret. rewrite app_nil_r. now destruct h.
  - unfold bind at 1. unfold bind at 1, readObj at 1.
    match goal with P : pointsTo h r _ |- _ => rewrite P end.
    unfold newObj at 1. unfold bind at 1.
    rewrite IH with (objs := l').
    + simpl. unfold ret. rewrite length_app, <- app_assoc. simpl.
      now rewrite Nat.add_1_r.
    + simpl. match goal with P : Forall2 _ elems _ |- _ =>
        apply Forall2_impl with (2 := P) end.
      intros r' o' P'. unfold pointsTo in *; simpl.
      rewrite nth_error_app1; auto. apply nth_error_Some. congruence.
Qed.

Lemma mapObjects_spec (callback : Obj -> Obj) (h : heap) (arr : ref)
  (objs : list Obj) :
  holds h arr objs ->
  mapObjects callback arr h
  = Some (length (arrays h),
          mkHeap (objects h ++ map callback objs)
                 (arrays h ++ [seq (length (objects h)) (length objs)])).
Proof.
  intros (elems & A & P). unfold mapObjects.
  unfold bind at 1, readArray. rewrite A.
  unfold bind at 1. rewrite (mapM_copy callback P).
  unfold newArray; simpl. now rewrite (Forall2_length P).
Qed.

Lemma spread_spec (h : heap) (arr : ref) (elems : list ref) :
  nth_error (arrays h) arr = Some elems ->
  spread arr h
  = Some (length (arrays h), mkHeap (objects h) (arrays h ++ [elems])).
Proof.
  intro A. unfold spread, bind, readArray. rewrite A. reflexivity.
Qed.

(** *** Sorting a fresh array *)

Lemma insertBy_Forall2 {A B} (R : A -> B -> Prop)
  (cmp1 : A -> A -> F) (cmp2 : B -> B -> F) :
  (forall a a' b b', R a a' -> R b b' -> cmp1 a b = cmp2 a' b') ->
  forall x x' s s',
    R x x' -> Forall2 R s s' ->
    Forall2 R (insertBy cmp1 x s) (insertBy cmp2 x' s').
Proof.
  intros agree x x' s s' Rx Rs.
  induction Rs as [|y y' s s' Ry Rs IH]; simpl; auto.
  rewrite (agree _ _ _ _ Rx Ry).
  destruct (_ >? _); auto.
Qed.

Lemma sortBy_Forall2 {A B} (R : A -> B -> Prop)
  (cmp1 : A -> A -> F) (cmp2 : B -> B -> F) :
  (forall a a' b b', R a a' -> R b b' -> cmp1 a b = cmp2 a' b') ->
  forall l l', Forall2 R l l' -> Forall2 R (sortBy cmp1 l) (sortBy cmp2 l').
Proof.
  intros agree l l' Rl.
  induction Rl as [|x x' l l' Rx Rl IH]; simpl; auto.
  now apply insertBy_Forall2.
Qed.

Lemma sortBy_map {A B} (g : A -> B) (cmp : B -> B -> F) (l : list A) :
  sortBy cmp (map g l) = map g (sortBy (fun a b => cmp (g a) (g b)) l).
Proof.
  assert (P : Forall2 (fun b a => b = g a) (sortBy cmp (map g l))
                      (sortBy (fun a b => cmp (g a) (g b)) l)).
  { apply sortBy_Forall2.
    - intros a a' b b' -> ->. reflexivity.
    - induction l; simpl; auto. }
  induction P as [|b a bs as' E _ IH]; simpl; congruence.
Qed.

(* reading the keys of the elements *)
Lemma mapM_keys {T} (view : T -> Obj) (keyT : T -> F)
  (key : Obj -> option F) (h : heap) (elems : list ref) (ts : list T) :
  (forall t, key (view t) = Some (keyT t)) ->
  Forall2 (fun r t => pointsTo h r (view t)) elems ts ->
  exists keyed,
    mapM (fun r => o <- readObj r ;;
                   match key o with
                   | Some k => ret (r, k)
                   | None => stuck
                   end) elems h = Some (keyed, h)
    /\ Forall2 (fun rk t => pointsTo h (fst rk) (view t) /\ snd rk = keyT t)
               keyed ts.
Proof.
  intros Hkey P.
  induction P as [|r t elems ts Pr _ (keyed & E & K)]; simpl.
  - exists []. split; auto.
  - exists ((r, keyT t) :: keyed). split; auto.
    unfold bind at 1. unfold bind at 1, readObj at 1. rewrite Pr, Hkey.
    unfold ret at 1. unfold bind at 1. rewrite E. reflexivity.
Qed.

(** Sorting the array allocated last rewrites that array only, and lists
    its elements in the comparator's order. *)
Lemma sortByKey_fresh {T} (view : T -> Obj) (keyT : T -> F)
  (key : Obj -> option F) (cmp : F -> F -> F)
  (objs : list Obj) (arrs : list (list ref)) (elems : list ref)
  (ts : list T) :
  (forall t, key (view t) = Some (keyT t)) ->
  Forall2 (fun r t => pointsTo (mkHeap objs (arrs ++ [elems])) r (view t))
          elems ts ->
  exists sorted,
    sortByKey key cmp (length arrs) (mkHeap objs (arrs ++ [elems]))
    = Some (length arrs, mkHeap objs (arrs ++ [sorted]))
    /\ Forall2 (fun r t => pointsTo (mkHeap objs (arrs ++ [sorted])) r (view t))
               sorted (sortBy (fun x y => cmp (keyT x) (keyT y)) ts).
Proof.
  intros Hkey P.
  destruct (mapM_keys view keyT key Hkey P) as (keyed & E & K).
  exists (map fst (sortBy (fun a b => cmp (snd a) (snd b)) keyed)).
  split.
  - unfold sortByKey. unfold bind at 1, readArray; simpl.
    rewrite nth_error_app2, Nat.sub_diag by lia; simpl.
    unfold bind at 1. rewrite E.
    unfold bind at 1, writeArray; simpl.
    rewrite nth_error_app2, Nat.sub_diag by lia; simpl.
    rewrite <- (Nat.add_0_r (length arrs)) at 2.
    rewrite update_app_r. reflexivity.
  - assert (S : Forall2
             (fun rk t => pointsTo (mkHeap objs (arrs ++ [elems])) (fst rk)
                            (view t) /\ snd rk = keyT t)
             (sortBy (fun a b => cmp (snd a) (snd b)) keyed)
             (sortBy (fun x y => cmp (keyT x) (keyT y)) ts)).
    { apply sortBy_Forall2; auto.
      intros a a' b b' [_ Ea] [_ Eb]. now rewrite Ea, Eb. }
    induction S as [|rk t ks ts' [Pk _] _ IH]; simpl; auto.
Qed.

(** *** The engine on the store computes what the engine on values does *)

(* the records [objs] with the debt fields [debts] *)
Definition withFields (debts : list (Debt.t F)) (objs : list Obj)
  : list Obj :=
  map (fun '(debt, o) => mkObj debt (score o)) (combine debts objs).

Lemma withFields_fields (debts : list (Debt.t F)) (objs : list Obj) :
  length debts = length objs -> map fields (withFields debts objs) = debts.
Proof.
  revert objs; induction debts as [|d debts IH]; intros [|o objs] E;
    simpl in *; try discriminate; auto.
  f_equal. apply IH. lia.
Qed.

Lemma withFields_length (debts : list (Debt.t F)) (objs : list Obj) :
  length debts = length objs -> length (withFields debts objs) = length objs.
Proof.
  intro E. unfold withFields. rewrite length_map, length_combine. lia.
Qed.

Lemma processDebt_skip (i : nat) (debt : Debt.t F) (acc : @MonthAcc F) :
  (Debt.balance debt <=? lit 0.01) = true ->
  processDebt i debt acc = (debt, acc).
Proof. intro E. unfold processDebt. now rewrite E. Qed.

Lemma processDebt_writes_balance (i : nat) (debt : Debt.t F)
  (acc : @MonthAcc F) :
  (Debt.balance debt <=? lit 0.01) = false ->
  Debt.setBalance (Debt.balance (fst (processDebt i debt acc))) debt
  = fst (processDebt i debt acc).
Proof.
  intro E. unfold processDebt. rewrite E.
  destruct (_ && negb _)%bool; reflexivity.
Qed.

(** The pass over the copies, which sit in the store after [base] and the
    records [done] already passed: it rewrites the balances of the copies
    and nothing else. *)
Lemma forDebtsAt_spec (base : list Obj) (arrs : list (list ref))
  (todo : list Obj) :
  forall (done : list Obj) (i : nat) (acc : @MonthAcc F),
    forDebtsAt i (seq (length base + length done) (length todo)) acc
      (mkHeap (base ++ done ++ todo) arrs)
    = Some (snd (forDebts i (map fields todo) acc),
            mkHeap (base ++ done
                    ++ withFields (fst (forDebts i (map fields todo) acc)) todo)
                   arrs).
Proof.
  induction todo as [|o rest IH]; intros done i acc; simpl.
  - reflexivity.
  - unfold bind at 1. unfold processDebtAt at 1.
    unfold bind at 1, readObj at 1; simpl.
    rewrite nth_error_middle.
    assert (Next : forall o' : Obj,
      base ++ done ++ o' :: rest = base ++ (done ++ [o']) ++ rest).
    { intro o'. now rewrite <- app_assoc. }
    assert (Len : forall o' : Obj,
      S (length base + length done) = (length base + length (done ++ [o']))%nat).
    { intro o'. rewrite length_app; simpl; lia. }
    destruct (Debt.balance (fields o) <=? lit 0.01) eqn:Hskip.
    + rewrite (processDebt_skip i (fields o) acc Hskip).
      unfold ret at 1.
      rewrite (Next o), (Len o), IH.
      destruct (forDebts (S i) (map fields rest) acc) as [rest' acc2]; simpl.
      rewrite <- app_assoc. simpl. now destruct o.
    + pose proof (processDebt_writes_balance i (fields o) acc Hskip) as W.
      destruct (processDebt i (fields o) acc) as [debt' acc1]; simpl in *.
      unfold bind at 1, writeBalance at 1; simpl.
      rewrite nth_error_middle, update_middle, W.
      unfold ret at 1.
      rewrite (Next (mkObj debt' (score o))), (Len (mkObj debt' (score o))), IH.
      destruct (forDebts (S i) (map fields rest) acc1) as [rest' acc2]; simpl.
      now rewrite <- app_assoc.
Qed.

Lemma fresh_pointsTo (base cur : list Obj) (arrs : list (list ref)) :
  Forall2 (pointsTo (mkHeap (base ++ cur) arrs))
          (seq (length base) (length cur)) cur.
Proof.
  revert base. induction cur as [|o cur IH]; intro base; simpl; auto.
  constructor.
  - unfold pointsTo; simpl.
    rewrite nth_error_app2, Nat.sub_diag by lia. reflexivity.
  - specialize (IH (base ++ [o])).
    rewrite length_app, <- app_assoc in IH; simpl in IH.
    now rewrite Nat.add_1_r in IH.
Qed.

(* the state of the loop on values that a store state stands for *)
Definition toState (cur : list Obj) (l : Locals) : @LoopState F :=
  mkState (map fields cur) (paymentSchedule l) (debtOrder l) (month l)
          (totalInterest l).

Lemma existsb_fields (f : Debt.t F -> bool) (objs : list Obj) :
  existsb (fun o => f (fields o)) objs = existsb f (map fields objs).
Proof. induction objs as [|o objs IH]; simpl; congruence. Qed.

Lemma sumOf_fields (f : Debt.t F -> F) (objs : list Obj) :
  sumOf (fun o => f (fields o)) objs = sumOf f (map fields objs).
Proof.
  unfold sumOf. generalize (lit 0).
  induction objs as [|o objs IH]; intro start; simpl; auto.
Qed.

Lemma loopCondAt_spec (base cur : list Obj) (arrs : list (list ref))
  (l : Locals) :
  loopCondAt (seq (length base) (length cur)) l (mkHeap (base ++ cur) arrs)
  = Some (loopCond (toState cur l), mkHeap (base ++ cur) arrs).
Proof.
  unfold loopCondAt, bind.
  rewrite (mapM_readObj (fresh_pointsTo base cur arrs)).
  unfold ret, loopCond; simpl.
  now rewrite (existsb_fields (fun debt => Debt.balance debt >? lit 0.01)).
Qed.

Lemma loopBodyAt_spec (availablePayment totalMinimums : F)
  (base cur : list Obj) (arrs : list (list ref)) (l : Locals) :
  exists cur' l',
    loopBodyAt availablePayment totalMinimums
      (seq (length base) (length cur)) l (mkHeap (base ++ cur) arrs)
    = Some (l', mkHeap (base ++ cur') arrs)
    /\ length cur' = length cur
    /\ toState cur' l' = loopBody availablePayment totalMinimums (toState cur l).
Proof.
  unfold loopBodyAt, loopBody; simpl.
  pose proof (forDebtsAt_spec base arrs cur [] 0
    (mkAcc (lit 0) (lit 0) (availablePayment - totalMinimums) (debtOrder l)))
    as P.
  simpl in P. rewrite Nat.add_0_r in P.
  pose proof (forDebts_length (map fields cur) 0
    (mkAcc (lit 0) (lit 0) (availablePayment - totalMinimums) (debtOrder l)))
    as L.
  destruct (forDebts 0 (map fields cur) _) as [copies acc]; simpl in *.
  rewrite length_map in L.
  eexists (withFields copies cur). eexists.
  split; [|split].
  - unfold bind at 1. rewrite P.
    unfold bind at 1.
    rewrite <- (withFields_length copies cur L) at 1.
    rewrite (mapM_readObj (fresh_pointsTo base (withFields copies cur) arrs)).
    unfold ret. reflexivity.
  - now apply withFields_length.
  - unfold toState; simpl.
    rewrite (sumOf_fields (@Debt.balance F)).
    now rewrite (withFields_fields copies cur L).
Qed.

Lemma whileM_spec (availablePayment totalMinimums : F) (base : list Obj)
  (arrs : list (list ref)) (fuel : nat) :
  forall (cur : list Obj) (l : Locals),
  exists cur' final,
    whileM fuel (loopCondAt (seq (length base) (length cur)))
      (loopBodyAt availablePayment totalMinimums
         (seq (length base) (length cur)))
      l (mkHeap (base ++ cur) arrs)
    = Some (final, mkHeap (base ++ cur') arrs)
    /\ while fuel loopCond (loopBody availablePayment totalMinimums)
         (toState cur l)
       = option_map (toState cur') final.
Proof.
  induction fuel as [|fuel IH]; intros cur l; simpl.
  - unfold bind at 1. rewrite loopCondAt_spec.
    destruct (loopCond (toState cur l)).
    + exists cur, None. split; reflexivity.
    + exists cur, (Some l). split; reflexivity.
  - unfold bind at 1. rewrite loopCondAt_spec.
    destruct (loopCond (toState cur l)).
    + destruct (loopBodyAt_spec availablePayment totalMinimums base cur arrs l)
        as (cur1 & l1 & B & Len & St).
      unfold bind at 1. rewrite B, <- Len, <- St. apply IH.
    + exists cur, (Some l). split; reflexivity.
Qed.

Lemma calculateDebtStrategyAt_spec (fuel : nat) (h : heap) (sortedDebts : ref)
  (objs : list Obj) (availablePayment : F) (strategy : RepaymentStrategy) :
  holds h sortedDebts objs ->
  exists h',
    calculateDebtStrategyAt fuel sortedDebts availablePayment strategy h
    = Some (calculateDebtStrategyFuel fuel (map fields objs) availablePayment
              strategy, h')
    /\ extends h h'.
Proof.
  intro Hh. unfold calculateDebtStrategyAt, calculateDebtStrategyFuel.
  unfold bind at 1. rewrite (mapObjects_spec (fun debt => debt) Hh).
  rewrite !map_id.
  set (arrs := arrays h ++ [seq (length (objects h)) (length objs)]).
  unfold bind at 1, readArray at 1; simpl.
  unfold arrs at 1. rewrite nth_error_app2, Nat.sub_diag by lia; simpl.
  unfold bind at 1.
  rewrite (mapM_readObj (fresh_pointsTo (objects h) objs arrs)).
  rewrite (sumOf_fields (@Debt.minimumPayment F)).
  assert (X : forall cur, length cur = length objs ->
            extends h (mkHeap (objects h ++ cur) arrs)).
  { intros cur _. split; simpl; eauto. unfold arrs; eauto. }
  destruct (_ >? _).
  - eexists. split; [reflexivity | now apply X].
  - destruct (whileM_spec availablePayment
                (sumOf (@Debt.minimumPayment F) (map fields objs))
                (objects h) arrs fuel objs (mkLocals [] [] 1%Z (lit 0)))
      as (cur' & final & W & P).
    unfold bind at 1. rewrite W.
    change (toState objs (mkLocals [] [] 1%Z (lit 0)))
      with (initialState (map fields objs)) in P.
    rewrite P.
    exists (mkHeap (objects h ++ cur') arrs).
    split; [destruct final; reflexivity|].
    split; simpl; eauto. unfold arrs; eauto.
Qed.

(* sorting a copy of the caller's array by a key of the debt fields *)
Lemma sorted_copy_spec (keyD : Debt.t F -> F) (cmp : F -> F -> F)
  (h : heap) (debts : ref) (objs : list Obj) (availablePayment : F)
  (strategy : RepaymentStrategy) :
  holds h debts objs ->
  exists h',
    (copy <- spread debts ;;
     sortedDebts <- sortByKey (fun debt => Some (keyD (fields debt))) cmp copy ;;
     calculateDebtStrategyAt 600 sortedDebts availablePayment strategy) h
    = Some (calculateDebtStrategy
              (sortBy (fun a b => cmp (keyD a) (keyD b)) (map fields objs))
              availablePayment strategy, h')
    /\ extends h h'.
Proof.
  intros (elems & A & P).
  unfold bind at 1. rewrite (spread_spec h debts A).
  destruct (@sortByKey_fresh Obj (fun o : Obj => o) (fun o => keyD (fields o))
              (fun debt => Some (keyD (fields debt))) cmp
              (objects h) (arrays h) elems objs)
    as (sorted & E & Ps); auto.
  unfold bind at 1. rewrite E.
  destruct (calculateDebtStrategyAt_spec 600
              (h := mkHeap (objects h) (arrays h ++ [sorted]))
              (sortedDebts := length (arrays h))
              (objs := sortBy (fun x y => cmp (keyD (fields x))
                                              (keyD (fields y))) objs)
              availablePayment strategy)
    as (h' & R & X).
  - exists sorted. split; auto. simpl.
    rewrite nth_error_app2, Nat.sub_diag by lia. reflexivity.
  - exists h'. split.
    + rewrite R. unfold calculateDebtStrategy. now rewrite sortBy_map.
    + apply extends_trans with (2 := X).
      split; simpl; [exists []; now rewrite app_nil_r | eauto].
Qed.

Lemma Forall2_view {T} (view : T -> Obj) (h : heap) (ts : list T) :
  forall elems,
    Forall2 (pointsTo h) elems (map view ts) ->
    Forall2 (fun r t => pointsTo h r (view t)) elems ts.
Proof.
  induction ts as [|t ts IH]; intros elems P; inversion P; subst;
    constructor; auto.
Qed.

(* a scored record of the pure engine, as the store holds it *)
Definition scoredObj (s : @ScoredDebt F) : Obj :=
  mkObj (scored s) (Some (hybridScore s)).

Lemma hybrid_spec (h : heap) (debts : ref) (objs : list Obj)
  (availablePayment : F) :
  holds h debts objs ->
  exists h',
    calculateHybridStrategyAt debts availablePayment h
    = Some (calculateHybridStrategy (map fields objs) availablePayment, h')
    /\ extends h h'.
Proof.
  intro Hh. unfold calculateHybridStrategyAt.
  unfold bind at 1. rewrite (mapObjects_spec _ Hh).
  set (n := length (objects h)).
  set (elems := seq n (length objs)).
  match goal with
  | |- context [mkHeap (objects h ++ map ?f objs)] => set (callback := f)
  end.
  assert (V : map callback objs = map scoredObj (scoreDebts (map fields objs))).
  { unfold scoreDebts. rewrite !map_map. reflexivity. }
  destruct (@sortByKey_fresh _ scoredObj (@hybridScore F) score
              (fun a b => a - b) (objects h ++ map callback objs) (arrays h)
              elems (scoreDebts (map fields objs)))
    as (sorted & E & Ps).
  - reflexivity.
  - pose proof (fresh_pointsTo (objects h) (map callback objs)
                  (arrays h ++ [elems])) as P.
    rewrite length_map in P. fold n in P. fold elems in P.
    rewrite V in P at 2. now apply Forall2_view.
  - unfold bind at 1. rewrite E.
    destruct (calculateDebtStrategyAt_spec 600
                (h := mkHeap (objects h ++ map callback objs)
                             (arrays h ++ [sorted]))
                (sortedDebts := length (arrays h))
                (objs := map scoredObj
                           (sortBy (fun x y => hybridScore x - hybridScore y)
                                   (scoreDebts (map fields objs))))
                availablePayment hybrid)
      as (h' & R & X).
    + exists sorted. split.
      * simpl. rewrite nth_error_app2, Nat.sub_diag by lia. reflexivity.
      * clear -Ps. induction Ps; constructor; auto.
    + exists h'. split.
      * rewrite R. unfold calculateHybridStrategy, calculateDebtStrategy,
          hybridOrder.
        rewrite map_map. reflexivity.
      * apply extends_trans with (2 := X). split; simpl; eauto.
Qed.

Lemma strategyFunctionAt_spec (policy : RepaymentStrategy) (h : heap)
  (debts : ref) (objs : list Obj) (availablePayment : F) :
  holds h debts objs ->
  exists h',
    strategyFunctionAt policy debts availablePayment h
    = Some (strategyFunction policy (map fields objs) availablePayment, h')
    /\ extends h h'.
Proof.
  intro Hh. destruct policy; simpl.
  - apply (sorted_copy_spec (@Debt.balance F) (fun a b => a - b)
             availablePayment snowball Hh).
  - apply (sorted_copy_spec (@Debt.interestRate F) (fun a b => b - a)
             availablePayment avalanche Hh).
  - now apply hybrid_spec.
Qed.

(** C7. Called on a reference to the caller's array of debt records, each
    of the three strategy functions runs to an outcome (the one the engine
    computes from the records' fields) and leaves a store in which every
    record and every array that existed before the call is unchanged behind
    its reference, new records and arrays being allocated after them: the
    caller's array lists the same references, and each input debt has the
    fields, balance included, it had before. *)
Theorem strategies_leave_input_unchanged (policy : RepaymentStrategy)
  (h : heap) (debts : ref) (objs : list Obj) (availablePayment : F) :
  holds h debts objs ->
  exists h',
    strategyFunctionAt policy debts availablePayment h
    = Some (strategyFunction policy (map fields objs) availablePayment, h')
    /\ extends h h'
    /\ holds h' debts objs
    /\ (forall (r : ref) (o : Obj), pointsTo h r o -> pointsTo h' r o)
    /\ (forall (a : ref) (elems : list ref),
          nth_error (arrays h) a = Some elems ->
          nth_error (arrays h') a = Some elems).
Proof.
  intro Hh.
  destruct (strategyFunctionAt_spec policy availablePayment Hh)
    as (h' & R & X).
  exists h'. split; [exact R|]. split; [exact X|].
  split; [now apply extends_holds with (h := h)|].
  split.
  - intros r o. now apply extends_pointsTo.
  - intros a elems A. destruct X as [_ [arrs E]]. rewrite E.
    rewrite nth_error_app1; auto. apply nth_error_Some. congruence.
Qed.

End OwnershipFacts.

End Ownership.

(** * Rounding of IEEE 754 doubles *)

(* [binary_round_aux] of the specification of floats rounds a mantissa to
   the nearest representable one, ties to even; it follows that the
   operations on doubles keep the order of amounts that are not negative. *)

Module Rounding.

Open Scope Z_scope.

(* the number of binary digits of a mantissa *)
Definition dig (m : positive) : Z := Zpos (digits2_pos m).

Lemma dig_xO (m : positive) : dig (m~0) = dig m + 1.
Proof. unfold dig. simpl. lia. Qed.

Lemma dig_xI (m : positive) : dig (m~1) = dig m + 1.
Proof. unfold dig. simpl. lia. Qed.

Lemma dig_pos (m : positive) : 1 <= dig m.
Proof. unfold dig. lia. Qed.

Lemma dig_bounds (m : positive) : 2 ^ (dig m - 1) <= Zpos m < 2 ^ dig m.
Proof.
  induction m as [m IH|m IH|].
  - rewrite dig_xI. pose proof (dig_pos m).
    replace (dig m + 1 - 1) with (Z.succ (dig m - 1)) by lia.
    replace (dig m + 1) with (Z.succ (dig m)) by lia.
    rewrite !Z.pow_succ_r by lia. lia.
  - rewrite dig_xO. pose proof (dig_pos m).
    replace (dig m + 1 - 1) with (Z.succ (dig m - 1)) by lia.
    replace (dig m + 1) with (Z.succ (dig m)) by lia.
    rewrite !Z.pow_succ_r by lia. lia.
  - simpl. lia.
Qed.

Lemma pow2_pos (k : Z) : 0 <= k -> 0 < 2 ^ k.
Proof. intro. apply Z.pow_pos_nonneg; lia. Qed.

(* the digits of a number below a power of two *)
Lemma dig_le (m : positive) (d : Z) : Zpos m < 2 ^ d -> 0 <= d -> dig m <= d.
Proof.
  intros Hm Hd. destruct (dig_bounds m) as [L _].
  pose proof (dig_pos m).
  assert (2 ^ (dig m - 1) < 2 ^ d) by lia.
  apply Z.pow_lt_mono_r_iff in H0; lia.
Qed.

Lemma dig_ge (m : positive) (d : Z) : 2 ^ d <= Zpos m -> 0 <= d -> d + 1 <= dig m.
Proof.
  intros Hm Hd. destruct (dig_bounds m) as [_ U].
  pose proof (dig_pos m).
  assert (2 ^ d < 2 ^ dig m) by lia.
  apply Z.pow_lt_mono_r_iff in H0; lia.
Qed.

(** ** Shifting a mantissa right *)

Lemma iter_pos_nat {A} (f : A -> A) (n : positive) :
  forall x, iter_pos f n x = Nat.iter (Pos.to_nat n) f x.
Proof.
  induction n as [n IH|n IH|]; intro x.
  - change (iter_pos f n~1 x) with (iter_pos f n (iter_pos f n (f x))).
    rewrite !IH, Pos2Nat.inj_xI, Nat.iter_succ_r.
    replace (2 * Pos.to_nat n)%nat
      with (Pos.to_nat n + Pos.to_nat n)%nat by lia.
    now rewrite Nat.iter_add.
  - change (iter_pos f n~0 x) with (iter_pos f n (iter_pos f n x)).
    rewrite !IH, Pos2Nat.inj_xO.
    replace (2 * Pos.to_nat n)%nat
      with (Pos.to_nat n + Pos.to_nat n)%nat by lia.
    now rewrite Nat.iter_add.
  - reflexivity.
Qed.

Lemma shr_1_nonneg (m : Z) (r s : bool) :
  0 <= m ->
  shr_1 (Build_shr_record m r s)
  = Build_shr_record (Z.div2 m) (Z.odd m) (r || s).
Proof.
  intro Hm. destruct m as [|[p|p|]|]; try reflexivity. lia.
Qed.

(* where the mantissa [M] lies after [k] bits were shifted out: the
   quotient, and the remainder against the half *)
Definition located (M k : Z) (mrs : shr_record) : Prop :=
  0 <= shr_m mrs
  /\ 0 <= M - shr_m mrs * 2 ^ k < 2 ^ k
  /\ shr_r mrs = (2 ^ k <=? 2 * (M - shr_m mrs * 2 ^ k))
  /\ shr_s mrs = negb (M - shr_m mrs * 2 ^ k =? 0)
                 && negb (2 * (M - shr_m mrs * 2 ^ k) =? 2 ^ k).

Lemma located_start (M : Z) :
  0 <= M -> located M 0 (Build_shr_record M false false).
Proof.
  intro HM. unfold located. simpl.
  replace (M - M * 1) with 0 by lia. simpl. repeat split; lia.
Qed.

Lemma located_step (M k : Z) (mrs : shr_record) :
  0 <= k -> located M k mrs -> located M (k + 1) (shr_1 mrs).
Proof.
  intros Hk. destruct mrs as [q r s]. unfold located.
  cbn [shr_m shr_r shr_s].
  intros (Hq & Hrem & Hr & Hs).
  rewrite shr_1_nonneg by exact Hq. cbn [shr_m shr_r shr_s].
  replace (k + 1) with (Z.succ k) by lia. rewrite Z.pow_succ_r by exact Hk.
  pose proof (@pow2_pos k Hk) as HP.
  set (P := 2 ^ k) in *.
  pose proof (Z.div2_odd q) as Hq2.
  set (h := Z.div2 q) in *.
  assert (Hh : 0 <= h) by (apply Z.div2_nonneg; exact Hq).
  assert (E : q * P = 2 * (h * P) + Z.b2z (Z.odd q) * P)
    by (rewrite Hq2 at 1; ring).
  clearbody h. clear Hq2.
  replace (h * (2 * P)) with (2 * (h * P)) by ring.
  set (X := h * P) in *. set (Y := q * P) in *.
  subst r s.
  destruct (Z.odd q); cbn [Z.b2z] in E;
    destruct (Z.eqb_spec (M - Y) 0);
    destruct (Z.eqb_spec (2 * (M - Y)) P);
    destruct (Z.leb_spec P (2 * (M - Y)));
    destruct (Z.eqb_spec (M - 2 * X) 0);
    destruct (Z.eqb_spec (2 * (M - 2 * X)) (2 * P));
    destruct (Z.leb_spec (2 * P) (2 * (M - 2 * X)));
    cbn [negb andb orb]; repeat split; try reflexivity; lia.
Qed.

Lemma located_iter (M : Z) (n : nat) :
  0 <= M ->
  located M (Z.of_nat n) (Nat.iter n shr_1 (Build_shr_record M false false)).
Proof.
  intro HM. induction n as [|n IH].
  - now apply located_start.
  - rewrite Nat2Z.inj_succ. simpl. unfold Z.succ.
    apply located_step; [lia | exact IH].
Qed.

Lemma shr_located (M e n : Z) :
  0 <= M -> 0 <= n ->
  located M n (fst (shr (Build_shr_record M false false) e n))
  /\ snd (shr (Build_shr_record M false false) e n) = e + n.
Proof.
  intros HM Hn. destruct n as [|p|p]; simpl.
  - split; [now apply located_start | lia].
  - split; [|reflexivity].
    rewrite iter_pos_nat, <- (positive_nat_Z p).
    now apply located_iter.
  - lia.
Qed.

(** ** Rounding to nearest, ties to even *)

Definition rne (mrs : shr_record) : Z :=
  round_nearest_even (shr_m mrs) (loc_of_shr_record mrs).

(* [q'] is an integer nearest to M / 2^k, and even when there are two *)
Definition nearest (M k q' : Z) : Prop :=
  (2 * q' - 1) * 2 ^ k <= 2 * M <= (2 * q' + 1) * 2 ^ k
  /\ (2 * M = (2 * q' - 1) * 2 ^ k -> Z.even q' = true)
  /\ (2 * M = (2 * q' + 1) * 2 ^ k -> Z.even q' = true).

Lemma even_next (q : Z) : Z.even q = false -> Z.even (q + 1) = true.
Proof. intro E. rewrite Z.even_add, E. reflexivity. Qed.

Lemma rne_nearest (M k : Z) (mrs : shr_record) :
  0 <= k -> located M k mrs ->
  nearest M k (rne mrs) /\ shr_m mrs <= rne mrs <= shr_m mrs + 1.
Proof.
  intros Hk. destruct mrs as [q r s]. unfold located, nearest, rne.
  cbn [shr_m shr_r shr_s].
  intros (Hq & Hrem & Hr & Hs).
  pose proof (@pow2_pos k Hk) as HP. set (P := 2 ^ k) in *.
  assert (E1 : forall x, (2 * x - 1) * P = 2 * (x * P) - P) by (intro; ring).
  assert (E2 : forall x, (2 * x + 1) * P = 2 * (x * P) + P) by (intro; ring).
  assert (E3 : (q + 1) * P = q * P + P) by ring.
  set (Y := q * P) in *.
  destruct (Z.eqb_spec (M - Y) 0);
    destruct (Z.eqb_spec (2 * (M - Y)) P);
    destruct (Z.leb_spec P (2 * (M - Y)));
    cbn [negb andb] in Hs; subst r s;
    cbn [loc_of_shr_record round_nearest_even]; try lia;
    try match goal with
        | |- context [if ?c then _ else _] => destruct c eqn:Ev
        end;
    rewrite ?E1, ?E2, ?E3; fold Y; repeat split; try lia;
    try (intros _; exact Ev);
    try (intros _; apply even_next; exact Ev).
Qed.

(** Nearest integers are ordered as the numbers they round. *)
Lemma nearest_mono (M1 k1 q1 M2 k2 q2 : Z) :
  0 <= k1 -> 0 <= k2 ->
  nearest M1 k1 q1 -> nearest M2 k2 q2 ->
  M1 * 2 ^ k2 <= M2 * 2 ^ k1 ->
  q1 <= q2.
Proof.
  intros Hk1 Hk2 ([L1 _] & T1 & _) ([_ U2] & _ & T2) Hord.
  pose proof (@pow2_pos k1 Hk1) as HP1. pose proof (@pow2_pos k2 Hk2) as HP2.
  set (P1 := 2 ^ k1) in *. set (P2 := 2 ^ k2) in *.
  destruct (Z.le_gt_cases q1 q2) as [|Hgt]; [assumption|exfalso].
  assert (A : (2 * q1 - 1) * P1 * P2 <= 2 * M1 * P2)
    by (apply Z.mul_le_mono_nonneg_r; lia).
  assert (B : 2 * M2 * P1 <= (2 * q2 + 1) * P2 * P1)
    by (apply Z.mul_le_mono_nonneg_r; lia).
  assert (C : (2 * q2 + 1) * (P1 * P2) <= (2 * q1 - 1) * (P1 * P2))
    by (apply Z.mul_le_mono_nonneg_r; nia).
  assert (D : (2 * q1 - 1) * (P1 * P2) = (2 * q2 + 1) * (P1 * P2)) by nia.
  assert (Eq : q1 = q2 + 1).
  { apply Z.mul_reg_r in D; [lia | nia]. }
  assert (F1 : 2 * M1 * P2 = (2 * q1 - 1) * P1 * P2) by nia.
  assert (F2 : 2 * M2 * P1 = (2 * q2 + 1) * P2 * P1) by nia.
  apply Z.mul_reg_r in F1; [|lia]. apply Z.mul_reg_r in F2; [|lia].
  specialize (T1 F1). specialize (T2 F2).
  subst q1. rewrite Z.even_add, T2 in T1. discriminate.
Qed.

(** ** The result of rounding *)

Lemma fexp_eq (z : Z) : fexp prec emax z = Z.max (z - 53) (-1074).
Proof. reflexivity. Qed.

(* the second half of binary_round_aux: the rounded mantissa [q] at the
   exponent [t] is renormalised and checked for overflow *)
Definition out (q t : Z) : spec_float :=
  let '(mrs, e) := shr_fexp prec emax q t loc_Exact in
  match shr_m mrs with
  | Z0 => S754_zero false
  | Zpos m =>
      if e <=? emax - prec then S754_finite false m e
      else S754_infinity false
  | Zneg _ => S754_nan
  end.

Lemma round_aux_out (M E : Z) :
  binary_round_aux prec emax false M E loc_Exact
  = out (rne (fst (shr_fexp prec emax M E loc_Exact)))
        (snd (shr_fexp prec emax M E loc_Exact)).
Proof.
  unfold binary_round_aux, out, rne.
  destruct (shr_fexp prec emax M E loc_Exact) as [mrs e]. reflexivity.
Qed.

Lemma shr_none (mrs : shr_record) (e n : Z) :
  n <= 0 -> shr mrs e n = (mrs, e).
Proof. intro Hn. destruct n; try reflexivity. lia. Qed.

Lemma out_zero (t : Z) : -1074 <= t -> out 0 t = S754_zero false.
Proof.
  intro Ht. unfold out, shr_fexp. rewrite fexp_eq, shr_none; [reflexivity|].
  simpl Zdigits2. lia.
Qed.

Lemma out_pos (q : positive) (t : Z) :
  -1074 <= t -> Zpos q < 2 ^ 53 ->
  out (Zpos q) t
  = if t <=? 971 then S754_finite false q t else S754_infinity false.
Proof.
  intros Ht Hq. unfold out, shr_fexp. rewrite fexp_eq, shr_none.
  - reflexivity.
  - change (Zdigits2 (Zpos q)) with (dig q).
    pose proof (@dig_le q 53 Hq). lia.
Qed.

Lemma out_carry (t : Z) :
  -1074 <= t ->
  out (2 ^ 53) t
  = if t + 1 <=? 971 then S754_finite false 4503599627370496 (t + 1)
    else S754_infinity false.
Proof.
  intro Ht. unfold out, shr_fexp. rewrite fexp_eq.
  change (Zdigits2 (2 ^ 53)) with 54.
  replace (Z.max (54 + t - 53) (-1074) - t) with 1 by lia.
  reflexivity.
Qed.

(* a float that is not negative: a zero, a positive number or +infinity *)
Definition nonneg (f : spec_float) : Prop :=
  match f with
  | S754_zero _ | S754_finite false _ _ | S754_infinity false => True
  | _ => False
  end.

Definition SFle (a b : spec_float) : Prop := SFleb a b = true.

Lemma out_nonneg (q t : Z) :
  -1074 <= t -> 0 <= q <= 2 ^ 53 -> nonneg (out q t).
Proof.
  intros Ht [L U]. destruct (Z.eq_dec q (2 ^ 53)) as [->|N].
  - rewrite out_carry by exact Ht. destruct (t + 1 <=? 971); exact I.
  - destruct q as [|q|q]; try lia.
    + now rewrite out_zero.
    + rewrite out_pos by lia. destruct (t <=? 971); exact I.
Qed.

(** Rounded mantissas at one exponent give floats in the same order. *)
Lemma out_mono (q1 q2 t : Z) :
  -1074 <= t -> 0 <= q1 -> q1 <= q2 -> q2 <= 2 ^ 53 ->
  SFle (out q1 t) (out q2 t).
Proof.
  intros Ht L H U. unfold SFle.
  destruct (Z.eq_dec q2 (2 ^ 53)) as [->|N2].
  - rewrite (@out_carry t Ht).
    destruct (Z.eq_dec q1 (2 ^ 53)) as [->|N1].
    + rewrite (@out_carry t Ht).
      destruct (t + 1 <=? 971); [|reflexivity].
      unfold SFleb, SFcompare. rewrite Z.compare_refl.
      now rewrite Pos.compare_cont_refl.
    + destruct q1 as [|q1|q1]; try lia.
      * rewrite out_zero by exact Ht. destruct (t + 1 <=? 971); reflexivity.
      * rewrite out_pos by lia.
        destruct (Z.leb_spec t 971); destruct (Z.leb_spec (t + 1) 971);
          try lia; try reflexivity.
        unfold SFleb, SFcompare.
        replace (t ?= t + 1) with Lt by (symmetry; apply Z.compare_lt_iff; lia).
        reflexivity.
  - destruct q2 as [|q2|q2]; try lia.
    + assert (q1 = 0) by lia. subst q1. now rewrite out_zero.
    + rewrite (@out_pos q2) by lia.
      destruct q1 as [|q1|q1]; try lia.
      * rewrite out_zero by exact Ht. destruct (t <=? 971); reflexivity.
      * rewrite out_pos by lia. destruct (t <=? 971); [|reflexivity].
        unfold SFleb, SFcompare. rewrite Z.compare_refl.
        change (Pos.compare_cont Eq q1 q2) with (Pos.compare q1 q2).
        destruct (Pos.compare_spec q1 q2); try reflexivity. lia.
Qed.

Lemma SFle_zero_nonneg (s : bool) (f : spec_float) :
  nonneg f -> SFle (S754_zero s) f.
Proof. destruct f as [| [] | | [] ]; simpl; intros []; reflexivity. Qed.

Lemma SFle_finite (m1 m2 : positive) (e1 e2 : Z) :
  e1 < e2 \/ (e1 = e2 /\ Zpos m1 <= Zpos m2) ->
  SFle (S754_finite false m1 e1) (S754_finite false m2 e2).
Proof.
  unfold SFle, SFleb, SFcompare. intros [H | [-> H]].
  - replace (e1 ?= e2) with Lt by (symmetry; apply Z.compare_lt_iff; lia).
    reflexivity.
  - rewrite Z.compare_refl.
    change (Pos.compare_cont Eq m1 m2) with (Pos.compare m1 m2).
    destruct (Pos.compare_spec m1 m2); try reflexivity. lia.
Qed.

(** A float rounded at a lower exponent is below any normal float rounded
    at a higher one. *)
Lemma out_mono_exp (q1 q2 t1 t2 : Z) :
  -1074 <= t1 -> t1 < t2 ->
  0 <= q1 <= 2 ^ 53 -> 2 ^ 52 <= q2 <= 2 ^ 53 ->
  SFle (out q1 t1) (out q2 t2).
Proof.
  intros Ht1 Ht [L1 U1] [L2 U2].
  destruct q1 as [|q1|q1]; try lia.
  { rewrite out_zero by exact Ht1. apply SFle_zero_nonneg.
    apply out_nonneg; lia. }
  destruct q2 as [|q2|q2]; try lia.
  destruct (Z.eq_dec (Zpos q1) (2 ^ 53)) as [E1|N1];
    destruct (Z.eq_dec (Zpos q2) (2 ^ 53)) as [E2|N2];
    rewrite ?E1, ?E2, ?out_carry, ?out_pos by lia;
    repeat match goal with
    | |- context [Z.leb ?a ?b] => destruct (Z.leb_spec a b)
    end; try lia; try reflexivity;
    apply SFle_finite; lia.
Qed.

(** What binary_round_aux computes for a positive mantissa that lies at or
    below its target exponent: a nearest mantissa at that exponent. *)
Lemma round_aux_spec (M : positive) (E : Z) :
  let t := fexp prec emax (dig M + E) in
  E <= t ->
  exists q',
    nearest (Zpos M) (t - E) q'
    /\ 0 <= q' <= 2 ^ 53
    /\ (-1074 < t -> 2 ^ 52 <= q')
    /\ binary_round_aux prec emax false (Zpos M) E loc_Exact = out q' t.
Proof.
  intros t Ht. rewrite round_aux_out. unfold shr_fexp.
  change (Zdigits2 (Zpos M)) with (dig M). fold t.
  cbn [shr_record_of_loc].
  destruct (@shr_located (Zpos M) E (t - E)) as [Hloc He]; try lia.
  rewrite He. replace (E + (t - E)) with t by lia.
  set (mrs := fst (shr _ E (t - E))) in *.
  destruct (@rne_nearest (Zpos M) (t - E) mrs) as [Hn [Hb1 Hb2]];
    [lia | exact Hloc |].
  exists (rne mrs). split; [exact Hn|].
  destruct Hloc as (Hq & [Hr1 Hr2] & _).
  pose proof (@pow2_pos (t - E)) as HP. specialize (HP ltac:(lia)).
  destruct (dig_bounds M) as [DL DU]. pose proof (dig_pos M) as D1.
  assert (Ht' : dig M + E - 53 <= t) by (subst t; rewrite fexp_eq; lia).
  assert (Hq53 : shr_m mrs < 2 ^ 53).
  { assert (2 ^ dig M <= 2 ^ (53 + (t - E)))
      by (apply Z.pow_le_mono_r; lia).
    rewrite Z.pow_add_r in H by lia.
    set (P := 2 ^ (t - E)) in *. nia. }
  split; [lia|]. split; [|reflexivity].
  intro Hn1.
  assert (Hk : t - E = dig M - 53) by (subst t; rewrite fexp_eq in *; lia).
  assert (2 ^ (dig M - 1) = 2 ^ 52 * 2 ^ (t - E)).
  { rewrite <- Z.pow_add_r by lia. f_equal. lia. }
  set (P := 2 ^ (t - E)) in *.
  assert (2 ^ 52 <= shr_m mrs) by nia. lia.
Qed.

(** ** Rounding keeps the order *)

(* M1 * 2^E1 <= M2 * 2^E2, stated on integers above a common exponent *)
Definition vle (M1 E1 M2 E2 : Z) : Prop :=
  exists c, c <= E1 /\ c <= E2 /\ M1 * 2 ^ (E1 - c) <= M2 * 2 ^ (E2 - c).

Lemma vle_at (M1 E1 M2 E2 c : Z) :
  vle M1 E1 M2 E2 -> c <= E1 -> c <= E2 ->
  M1 * 2 ^ (E1 - c) <= M2 * 2 ^ (E2 - c).
Proof.
  intros (c0 & H1 & H2 & H) Hc1 Hc2.
  set (d := Z.min c c0).
  assert (Hd : M1 * 2 ^ (E1 - d) <= M2 * 2 ^ (E2 - d)).
  { replace (E1 - d) with (E1 - c0 + (c0 - d)) by lia.
    replace (E2 - d) with (E2 - c0 + (c0 - d)) by lia.
    rewrite !Z.pow_add_r by lia.
    pose proof (@pow2_pos (c0 - d)). rewrite !Z.mul_assoc.
    apply Z.mul_le_mono_nonneg_r; lia. }
  replace (E1 - d) with (E1 - c + (c - d)) in Hd by lia.
  replace (E2 - d) with (E2 - c + (c - d)) in Hd by lia.
  rewrite !Z.pow_add_r, !Z.mul_assoc in Hd by lia.
  pose proof (@pow2_pos (c - d)).
  apply Z.mul_le_mono_pos_r in Hd; lia.
Qed.

Lemma vle_digits (M1 M2 : positive) (E1 E2 : Z) :
  vle (Zpos M1) E1 (Zpos M2) E2 -> dig M1 + E1 <= dig M2 + E2.
Proof.
  intros (c & H1 & H2 & H).
  destruct (dig_bounds M1) as [L1 _]. destruct (dig_bounds M2) as [_ U2].
  pose proof (dig_pos M1). pose proof (dig_pos M2).
  pose proof (@pow2_pos (E1 - c)). pose proof (@pow2_pos (E2 - c)).
  assert (A : 2 ^ (dig M1 - 1 + (E1 - c)) <= Zpos M1 * 2 ^ (E1 - c)).
  { rewrite Z.pow_add_r by lia. apply Z.mul_le_mono_nonneg_r; lia. }
  assert (B : Zpos M2 * 2 ^ (E2 - c) < 2 ^ (dig M2 + (E2 - c))).
  { rewrite Z.pow_add_r by lia. apply Z.mul_lt_mono_pos_r; lia. }
  assert (C : 2 ^ (dig M1 - 1 + (E1 - c)) < 2 ^ (dig M2 + (E2 - c))) by lia.
  apply Z.pow_lt_mono_r_iff in C; lia.
Qed.

(** binary_round_aux is monotone on positive mantissas. *)
Lemma round_aux_mono (M1 M2 : positive) (E1 E2 : Z) :
  E1 <= fexp prec emax (dig M1 + E1) ->
  E2 <= fexp prec emax (dig M2 + E2) ->
  vle (Zpos M1) E1 (Zpos M2) E2 ->
  SFle (binary_round_aux prec emax false (Zpos M1) E1 loc_Exact)
       (binary_round_aux prec emax false (Zpos M2) E2 loc_Exact).
Proof.
  intros H1 H2 Hv.
  destruct (@round_aux_spec M1 E1 H1) as (q1 & N1 & B1 & _ & ->).
  destruct (@round_aux_spec M2 E2 H2) as (q2 & N2 & B2 & L2 & ->).
  pose proof (vle_digits Hv) as Hd.
  set (t1 := fexp prec emax (dig M1 + E1)) in *.
  set (t2 := fexp prec emax (dig M2 + E2)) in *.
  assert (Ht1 : -1074 <= t1) by (subst t1; rewrite fexp_eq; lia).
  assert (Ht : t1 <= t2) by (subst t1 t2; rewrite !fexp_eq; lia).
  destruct (Z.eq_dec t1 t2) as [E|N].
  - rewrite <- E in *. apply out_mono; try lia.
    apply (@nearest_mono (Zpos M1) (t1 - E1) q1 (Zpos M2) (t1 - E2) q2);
      try lia; auto.
    set (c := Z.min E1 E2).
    pose proof (@vle_at _ _ _ _ c Hv ltac:(lia) ltac:(lia)) as Hc.
    pose proof (@pow2_pos (E1 - c) ltac:(lia)).
    pose proof (@pow2_pos (E2 - c) ltac:(lia)).
    pose proof (@pow2_pos (t1 - E1) ltac:(lia)).
    pose proof (@pow2_pos (t1 - E2) ltac:(lia)).
    assert (T1 : 2 ^ (E1 - c) * 2 ^ (t1 - E1) = 2 ^ (t1 - c))
      by (rewrite <- Z.pow_add_r by lia; f_equal; lia).
    assert (T2 : 2 ^ (E2 - c) * 2 ^ (t1 - E2) = 2 ^ (t1 - c))
      by (rewrite <- Z.pow_add_r by lia; f_equal; lia).
    pose proof (@pow2_pos (t1 - c) ltac:(lia)).
    set (A1 := 2 ^ (E1 - c)) in *. set (A2 := 2 ^ (E2 - c)) in *.
    set (K1 := 2 ^ (t1 - E1)) in *. set (K2 := 2 ^ (t1 - E2)) in *.
    set (T := 2 ^ (t1 - c)) in *.
    assert (X : Zpos M1 * A1 * (K1 * K2) <= Zpos M2 * A2 * (K1 * K2))
      by (apply Z.mul_le_mono_nonneg_r; nia).
    assert (Y : Zpos M1 * K2 * T <= Zpos M2 * K1 * T).
    { replace (Zpos M1 * K2 * T) with (Zpos M1 * A1 * (K1 * K2))
        by (rewrite <- T1; ring).
      replace (Zpos M2 * K1 * T) with (Zpos M2 * A2 * (K1 * K2))
        by (rewrite <- T2; ring).
      exact X. }
    apply Z.mul_le_mono_pos_r in Y; lia.
  - apply out_mono_exp; lia.
Qed.

(** ** Aligned mantissas *)

Lemma iter_xO (m d : positive) :
  Zpos (Pos.iter xO m d) = Zpos m * 2 ^ Zpos d.
Proof.
  induction d as [|d IH] using Pos.peano_ind.
  - simpl. lia.
  - rewrite Pos.iter_succ, Pos2Z.inj_succ, Z.pow_succ_r by lia.
    rewrite Pos2Z.inj_xO, IH. ring.
Qed.

Lemma shl_align_spec (m : positive) (e e' : Z) :
  snd (shl_align m e e') = Z.min e e'
  /\ Zpos (fst (shl_align m e e'))
     = Zpos m * 2 ^ (e - snd (shl_align m e e')).
Proof.
  unfold shl_align. destruct (e' - e) as [|d|d] eqn:E; simpl fst; simpl snd.
  - split; [lia|]. rewrite Z.sub_diag. simpl. lia.
  - split; [lia|]. rewrite Z.sub_diag. simpl. lia.
  - split; [lia|]. rewrite iter_xO. f_equal. f_equal. lia.
Qed.

Lemma dig_shift (M m : positive) (j : Z) :
  0 <= j -> Zpos M = Zpos m * 2 ^ j -> dig M = dig m + j.
Proof.
  intros Hj E. destruct (dig_bounds m) as [L U]. pose proof (dig_pos m).
  pose proof (@pow2_pos j Hj).
  assert (A : 2 ^ (dig m - 1 + j) <= Zpos M).
  { rewrite Z.pow_add_r, E by lia. apply Z.mul_le_mono_nonneg_r; lia. }
  assert (B : Zpos M < 2 ^ (dig m + j)).
  { rewrite Z.pow_add_r, E by lia. apply Z.mul_lt_mono_pos_r; lia. }
  apply dig_ge in A; [|lia]. apply dig_le in B; lia.
Qed.

(** binary_round is binary_round_aux on a mantissa at or below its target
    exponent, of the same value. *)
Lemma round_as_aux (M : positive) (E : Z) :
  exists M' E',
    binary_round prec emax false M E
    = binary_round_aux prec emax false (Zpos M') E' loc_Exact
    /\ E' <= E
    /\ Zpos M' = Zpos M * 2 ^ (E - E')
    /\ dig M' + E' = dig M + E
    /\ E' <= fexp prec emax (dig M' + E').
Proof.
  unfold binary_round.
  change (Zpos (digits2_pos M)) with (dig M).
  destruct (shl_align_spec M E (fexp prec emax (dig M + E))) as [H1 H2].
  destruct (shl_align M E (fexp prec emax (dig M + E))) as [M' E'].
  simpl fst in *; simpl snd in *.
  exists M', E'. split; [reflexivity|]. split; [lia|]. split; [exact H2|].
  assert (D : dig M' = dig M + (E - E')) by (apply dig_shift; [lia | exact H2]).
  split; [lia|]. replace (dig M' + E') with (dig M + E) by lia. lia.
Qed.

Lemma vle_scaled (M1 E1 M2 E2 M1' E1' M2' E2' : Z) :
  E1' <= E1 -> M1' = M1 * 2 ^ (E1 - E1') ->
  E2' <= E2 -> M2' = M2 * 2 ^ (E2 - E2') ->
  vle M1 E1 M2 E2 -> vle M1' E1' M2' E2'.
Proof.
  intros H1 -> H2 -> Hv.
  set (c := Z.min E1' E2').
  exists c. split; [lia|]. split; [lia|].
  rewrite <- !Z.mul_assoc, <- !Z.pow_add_r by lia.
  replace (E1 - E1' + (E1' - c)) with (E1 - c) by lia.
  replace (E2 - E2' + (E2' - c)) with (E2 - c) by lia.
  apply vle_at; [exact Hv | lia | lia].
Qed.

(** binary_round is monotone on positive mantissas. *)
Lemma round_mono (M1 M2 : positive) (E1 E2 : Z) :
  vle (Zpos M1) E1 (Zpos M2) E2 ->
  SFle (binary_round prec emax false M1 E1)
       (binary_round prec emax false M2 E2).
Proof.
  intro Hv.
  destruct (round_as_aux M1 E1) as (M1' & E1' & -> & L1 & V1 & _ & B1).
  destruct (round_as_aux M2 E2) as (M2' & E2' & -> & L2 & V2 & _ & B2).
  apply round_aux_mono; auto.
  apply (vle_scaled L1 V1 L2 V2 Hv).
Qed.

Lemma round_aux_nonneg (M : positive) (E : Z) :
  E <= fexp prec emax (dig M + E) ->
  nonneg (binary_round_aux prec emax false (Zpos M) E loc_Exact).
Proof.
  intro H. destruct (@round_aux_spec M E H) as (q & _ & B & _ & ->).
  apply out_nonneg; [rewrite fexp_eq; lia | exact B].
Qed.

Lemma round_nonneg (M : positive) (E : Z) :
  nonneg (binary_round prec emax false M E).
Proof.
  destruct (round_as_aux M E) as (M' & E' & -> & _ & _ & _ & B).
  now apply round_aux_nonneg.
Qed.

(** ** Floats in canonical form *)

Lemma bounded_facts (m : positive) (e : Z) :
  bounded prec emax m e = true ->
  fexp prec emax (dig m + e) = e /\ e <= 971.
Proof.
  unfold bounded, canonical_mantissa. intro H.
  apply andb_true_iff in H as [H1 H2].
  apply Z.eqb_eq in H1. apply Z.leb_le in H2.
  change (Zpos (digits2_pos m)) with (dig m) in H1.
  split; [exact H1 | exact H2].
Qed.

(** Rounding a float that is representable gives that float. *)
Lemma round_exact (m M : positive) (e E : Z) :
  bounded prec emax m e = true ->
  E <= e -> Zpos M = Zpos m * 2 ^ (e - E) ->
  binary_round prec emax false M E = S754_finite false m e.
Proof.
  intros Hb HE HM. destruct (@bounded_facts m e Hb) as [Hc He].
  pose proof (@dig_shift M m (e - E) ltac:(lia) HM) as D.
  destruct (round_as_aux M E) as (M' & E' & -> & L & V & DD & B).
  destruct (@round_aux_spec M' E' B) as (q & (N & _ & _) & _ & _ & ->).
  replace (dig M' + E') with (dig m + e) in * by lia.
  rewrite Hc in *.
  assert (V' : Zpos M' = Zpos m * 2 ^ (e - E')).
  { rewrite V, HM, <- Z.mul_assoc, <- Z.pow_add_r by lia.
    f_equal. f_equal. lia. }
  pose proof (@pow2_pos (e - E') ltac:(lia)) as HP.
  set (P := 2 ^ (e - E')) in *.
  assert (q = Zpos m) by nia. subst q.
  rewrite out_pos.
  - replace (e <=? 971) with true by (symmetry; apply Z.leb_le; lia).
    reflexivity.
  - rewrite fexp_eq in Hc. lia.
  - rewrite fexp_eq in Hc. pose proof (dig_bounds m) as [_ U].
    assert (dig m <= 53) by lia.
    assert (2 ^ dig m <= 2 ^ 53) by (apply Z.pow_le_mono_r; lia). lia.
Qed.

(** The order of two positive floats in canonical form is the order of
    their values. *)
Lemma SFle_vle (m1 m2 : positive) (e1 e2 : Z) :
  bounded prec emax m1 e1 = true -> bounded prec emax m2 e2 = true ->
  SFle (S754_finite false m1 e1) (S754_finite false m2 e2) ->
  vle (Zpos m1) e1 (Zpos m2) e2.
Proof.
  intros B1 B2 H.
  destruct (@bounded_facts m1 e1 B1) as [C1 _].
  destruct (@bounded_facts m2 e2 B2) as [C2 _].
  rewrite fexp_eq in C1, C2.
  unfold SFle, SFleb, SFcompare in H.
  destruct (Z.compare_spec e1 e2) as [E|L|G]; try discriminate.
  - subst e2. exists e1. split; [lia|]. split; [lia|].
    rewrite Z.sub_diag. simpl.
    change (Pos.compare_cont Eq m1 m2) with (Pos.compare m1 m2) in H.
    destruct (Pos.compare_spec m1 m2); try discriminate; lia.
  - exists e1. split; [lia|]. split; [lia|].
    rewrite Z.sub_diag. change (2 ^ 0) with 1. rewrite Z.mul_1_r.
    destruct (dig_bounds m1) as [_ U1]. destruct (dig_bounds m2) as [L2 _].
    assert (D2 : dig m2 = 53) by lia. rewrite D2 in L2.
    assert (D1 : dig m1 <= 53) by lia.
    assert (2 ^ dig m1 <= 2 ^ 53) by (apply Z.pow_le_mono_r; lia).
    assert (2 ^ 1 <= 2 ^ (e2 - e1)) by (apply Z.pow_le_mono_r; lia).
    change (2 ^ 53) with (2 ^ 52 * 2 ^ 1) in H0.
    set (P := 2 ^ (e2 - e1)) in *. nia.
Qed.

(** ** The order of floats that are not negative *)

Definition valid (f : spec_float) : Prop := valid_binary f = true.

Lemma SFle_finite_iff (m1 m2 : positive) (e1 e2 : Z) :
  SFle (S754_finite false m1 e1) (S754_finite false m2 e2)
  <-> e1 < e2 \/ (e1 = e2 /\ Zpos m1 <= Zpos m2).
Proof.
  split; [|apply SFle_finite].
  unfold SFle, SFleb, SFcompare.
  destruct (Z.compare_spec e1 e2) as [E|L|G]; try discriminate; auto.
  change (Pos.compare_cont Eq m1 m2) with (Pos.compare m1 m2).
  destruct (Pos.compare_spec m1 m2); try discriminate; intros _; right; lia.
Qed.

Lemma SFle_refl (f : spec_float) : nonneg f -> SFle f f.
Proof.
  destruct f as [s| [] | | [] m e]; simpl; intros []; try reflexivity.
  apply SFle_finite. lia.
Qed.

Lemma SFle_inf (f : spec_float) : nonneg f -> SFle f (S754_infinity false).
Proof. destruct f as [s| [] | | [] m e]; simpl; intros []; reflexivity. Qed.

Lemma SFle_trans (a b c : spec_float) :
  nonneg a -> nonneg b -> nonneg c -> SFle a b -> SFle b c -> SFle a c.
Proof.
  destruct a as [sa| [] | | [] ma ea]; simpl; intros [];
    destruct b as [sb| [] | | [] mb eb]; simpl; intros [];
    destruct c as [sc| [] | | [] mc ec]; simpl; intros [];
    try reflexivity; try discriminate; auto.
  rewrite !SFle_finite_iff. lia.
Qed.

(** ** Multiplication *)

Lemma mul_below (mx my : positive) (ex ey : Z) :
  bounded prec emax mx ex = true -> bounded prec emax my ey = true ->
  ex + ey <= fexp prec emax (dig (mx * my) + (ex + ey)).
Proof.
  intros Bx By.
  destruct (@bounded_facts mx ex Bx) as [Cx _].
  destruct (@bounded_facts my ey By) as [Cy _].
  rewrite fexp_eq in *.
  destruct (dig_bounds mx) as [Lx _]. destruct (dig_bounds my) as [Ly _].
  pose proof (dig_pos mx). pose proof (dig_pos my).
  assert (A : 2 ^ (dig mx - 1 + (dig my - 1)) <= Zpos (mx * my)).
  { rewrite Z.pow_add_r, Pos2Z.inj_mul by lia.
    apply Z.mul_le_mono_nonneg; try lia; apply Z.pow_nonneg; lia. }
  apply dig_ge in A; lia.
Qed.

Lemma SFmul_finite (mx my : positive) (ex ey : Z) :
  SFmul prec emax (S754_finite false mx ex) (S754_finite false my ey)
  = binary_round_aux prec emax false (Zpos (mx * my)) (ex + ey) loc_Exact.
Proof. reflexivity. Qed.

Lemma SFmul_nonneg (a r : spec_float) :
  valid a -> valid r -> nonneg a -> nonneg r ->
  SFmul prec emax a r <> S754_nan ->
  nonneg (SFmul prec emax a r).
Proof.
  destruct a as [sa| [] | | [] ma ea]; simpl; intros Va Vr [];
    destruct r as [sr| [] | | [] mr er]; simpl; intros [] N;
    try exact I; try congruence.
  now apply round_aux_nonneg, mul_below.
Qed.

(** Multiplying by a factor that is not negative keeps the order. *)
Lemma SFmul_mono (a a' r : spec_float) :
  valid a -> valid a' -> valid r ->
  nonneg a -> nonneg a' -> nonneg r ->
  SFle a a' ->
  SFmul prec emax a r <> S754_nan ->
  SFmul prec emax a' r <> S754_nan ->
  SFle (SFmul prec emax a r) (SFmul prec emax a' r).
Proof.
  intros Va Va' Vr Na Na' Nr H N N'.
  pose proof (SFmul_nonneg Va Vr Na Nr N) as P.
  pose proof (SFmul_nonneg Va' Vr Na' Nr N') as P'.
  destruct a as [sa| [] | | [] ma ea]; try contradiction;
    destruct a' as [sa'| [] | | [] ma' ea']; try contradiction;
    try discriminate H;
    destruct r as [sr| [] | | [] mr er]; try contradiction;
    try (exfalso; apply N; reflexivity);
    try (exfalso; apply N'; reflexivity);
    try reflexivity;
    try (apply SFle_zero_nonneg; exact P');
    try (apply SFle_inf; exact P).
  rewrite !SFmul_finite. unfold valid in *. simpl in Va, Va', Vr.
  apply round_aux_mono; try (now apply mul_below).
  apply (SFle_vle Va Va') in H. destruct H as (c & H1 & H2 & H).
  exists (c + er). split; [lia|]. split; [lia|].
  replace (ea + er - (c + er)) with (ea - c) by lia.
  replace (ea' + er - (c + er)) with (ea' - c) by lia.
  rewrite !Pos2Z.inj_mul.
  replace (Zpos ma * Zpos mr * 2 ^ (ea - c))
    with (Zpos ma * 2 ^ (ea - c) * Zpos mr) by ring.
  replace (Zpos ma' * Zpos mr * 2 ^ (ea' - c))
    with (Zpos ma' * 2 ^ (ea' - c) * Zpos mr) by ring.
  apply Z.mul_le_mono_nonneg_r; lia.
Qed.

(** ** Addition *)

(* the mantissa of m * 2^e written at the exponent ez <= e *)
Definition aligned (m : positive) (e ez : Z) : positive :=
  fst (shl_align m e ez).

Lemma aligned_value (m : positive) (e ez : Z) :
  ez <= e -> Zpos (aligned m e ez) = Zpos m * 2 ^ (e - ez).
Proof.
  intro H. unfold aligned.
  destruct (shl_align_spec m e ez) as [H1 H2].
  rewrite H2, H1. f_equal. f_equal. lia.
Qed.

Lemma SFadd_finite (mx my : positive) (ex ey : Z) :
  SFadd prec emax (S754_finite false mx ex) (S754_finite false my ey)
  = binary_round prec emax false
      (aligned mx ex (Z.min ex ey) + aligned my ey (Z.min ex ey))
      (Z.min ex ey).
Proof. reflexivity. Qed.

Lemma SFadd_nonneg (a c : spec_float) :
  nonneg a -> nonneg c -> nonneg (SFadd prec emax a c).
Proof.
  destruct a as [sa| [] | | [] ma ea]; simpl; intros [];
    destruct c as [sc| [] | | [] mc ec]; simpl; intros [];
    try exact I; try (destruct sa, sc; exact I).
  apply round_nonneg.
Qed.

(* a float is what rounding its own value gives *)
Lemma finite_as_round (m : positive) (e ez : Z) :
  bounded prec emax m e = true -> ez <= e ->
  S754_finite false m e = binary_round prec emax false (aligned m e ez) ez.
Proof.
  intros B H. symmetry. apply round_exact; auto.
  now apply aligned_value.
Qed.

Lemma pow_split (x e ez c : Z) :
  c <= ez -> ez <= e -> x * 2 ^ (e - ez) * 2 ^ (ez - c) = x * 2 ^ (e - c).
Proof.
  intros H1 H2. rewrite <- Z.mul_assoc, <- Z.pow_add_r by lia.
  f_equal. f_equal. lia.
Qed.

(** Adding a float that is not negative keeps the order. *)
Lemma SFadd_mono_l (a a' c : spec_float) :
  valid a -> valid a' -> valid c ->
  nonneg a -> nonneg a' -> nonneg c ->
  SFle a a' ->
  SFle (SFadd prec emax a c) (SFadd prec emax a' c).
Proof.
  intros Va Va' Vc Na Na' Nc H.
  pose proof (SFadd_nonneg _ _ Na Nc) as P.
  pose proof (SFadd_nonneg _ _ Na' Nc) as P'.
  unfold valid in *.
  destruct a as [sa| [] | | [] ma ea]; try contradiction;
    destruct a' as [sa'| [] | | [] ma' ea']; try contradiction;
    try discriminate H;
    destruct c as [sc| [] | | [] mc ec]; try contradiction;
    simpl in Va, Va', Vc;
    try reflexivity;
    try (apply SFle_inf; exact P);
    try (now apply SFle_zero_nonneg);
    try exact H.
  - (* 0 + 0 and 0 + 0 *)
    destruct sa, sa', sc; reflexivity.
  - (* 0 + c and 0 + c *)
    apply SFle_refl. exact I.
  - (* 0 + 0 and a' + 0 *)
    destruct sa, sc; reflexivity.
  - (* 0 + c and a' + c *)
    change (SFadd prec emax (S754_zero sa) (S754_finite false mc ec))
      with (S754_finite false mc ec).
    rewrite SFadd_finite.
    rewrite (@finite_as_round mc ec (Z.min ea' ec) Vc) by lia.
    apply round_mono. exists (Z.min ea' ec).
    split; [lia|]. split; [lia|]. lia.
  - (* a + c and a' + c *)
    rewrite !SFadd_finite. apply round_mono.
    apply (SFle_vle Va Va') in H.
    set (c0 := Z.min (Z.min ea ec) (Z.min ea' ec)).
    pose proof (@vle_at _ _ _ _ c0 H ltac:(lia) ltac:(lia)) as Hc.
    exists c0. split; [lia|]. split; [lia|].
    rewrite !Pos2Z.inj_add, !aligned_value by lia.
    rewrite !Z.mul_add_distr_r, !pow_split by lia. lia.
Qed.

Lemma SFadd_mono_r (a c c' : spec_float) :
  valid a -> valid c -> valid c' ->
  nonneg a -> nonneg c -> nonneg c' ->
  SFle c c' ->
  SFle (SFadd prec emax a c) (SFadd prec emax a c').
Proof.
  intros Va Vc Vc' Na Nc Nc' H.
  pose proof (SFadd_nonneg _ _ Na Nc) as P.
  pose proof (SFadd_nonneg _ _ Na Nc') as P'.
  unfold valid in *.
  destruct c as [sc| [] | | [] mc ec]; try contradiction;
    destruct c' as [sc'| [] | | [] mc' ec']; try contradiction;
    try discriminate H;
    destruct a as [sa| [] | | [] ma ea]; try contradiction;
    simpl in Va, Vc, Vc';
    try reflexivity;
    try (apply SFle_inf; exact P);
    try (now apply SFle_zero_nonneg);
    try exact H.
  - destruct sa, sc, sc'; reflexivity.
  - apply SFle_refl. exact I.
  - destruct sa, sc; reflexivity.
  - change (SFadd prec emax (S754_finite false ma ea) (S754_zero sc))
      with (S754_finite false ma ea).
    rewrite SFadd_finite.
    rewrite (@finite_as_round ma ea (Z.min ea ec') Va) by lia.
    apply round_mono. exists (Z.min ea ec').
    split; [lia|]. split; [lia|]. lia.
  - rewrite !SFadd_finite. apply round_mono.
    apply (SFle_vle Vc Vc') in H.
    set (c0 := Z.min (Z.min ea ec) (Z.min ea ec')).
    pose proof (@vle_at _ _ _ _ c0 H ltac:(lia) ltac:(lia)) as Hc.
    exists c0. split; [lia|]. split; [lia|].
    rewrite !Pos2Z.inj_add, !aligned_value by lia.
    rewrite !Z.mul_add_distr_r, !pow_split by lia. lia.
Qed.

(** ** Subtraction *)

Lemma SFsub_finite (mx my : positive) (ex ey : Z) :
  SFsub prec emax (S754_finite false mx ex) (S754_finite false my ey)
  = binary_normalize prec emax
      (Zpos (aligned mx ex (Z.min ex ey))
       - Zpos (aligned my ey (Z.min ex ey)))
      (Z.min ex ey) false.
Proof. reflexivity. Qed.

(** Taking away a smaller amount leaves an amount that is not negative and
    not above the one it was taken from. *)
Lemma SFsub_le (b p : spec_float) :
  valid b -> valid p -> nonneg b -> nonneg p ->
  p <> S754_infinity false ->
  SFle p b ->
  nonneg (SFsub prec emax b p) /\ SFle (SFsub prec emax b p) b.
Proof.
  intros Vb Vp Nb Np Pfin H. unfold valid in *.
  destruct b as [sb| [] | | [] mb eb]; try contradiction;
    destruct p as [sp| [] | | [] mp ep]; try contradiction;
    try discriminate H; try congruence;
    simpl in Vb, Vp;
    try (split; [exact I | reflexivity]).
  - destruct sb, sp; split; try exact I; reflexivity.
  - split; [exact I|]. apply SFle_refl. exact I.
  - rewrite SFsub_finite.
    apply (SFle_vle Vp Vb) in H.
    pose proof (@vle_at _ _ _ _ (Z.min eb ep) H ltac:(lia) ltac:(lia)) as Hc.
    rewrite <- !aligned_value in Hc by lia.
    destruct (Zpos (aligned mb eb (Z.min eb ep))
              - Zpos (aligned mp ep (Z.min eb ep))) as [|d|d] eqn:D;
      try lia; simpl binary_normalize.
    + split; [exact I | reflexivity].
    + split; [apply round_nonneg|].
      rewrite (@finite_as_round mb eb (Z.min eb ep) Vb) by lia.
      apply round_mono. exists (Z.min eb ep).
      split; [lia|]. split; [lia|]. rewrite Z.sub_diag. lia.
Qed.

(** ** Further facts on floats that are not negative *)

Lemma SFle_nonneg (a b : spec_float) : nonneg a -> SFle a b -> nonneg b.
Proof.
  destruct a as [sa| [] | | [] ma ea]; simpl; intros [];
    destruct b as [sb| [] | | [] mb eb]; simpl; try exact (fun _ => I);
    discriminate.
Qed.

(* a float that is neither negative nor infinite *)
Definition bounded_amount (f : spec_float) : Prop :=
  nonneg f /\ f <> S754_infinity false.

Lemma SFle_bounded (a b : spec_float) :
  nonneg a -> SFle a b -> bounded_amount b -> bounded_amount a.
Proof.
  intros Na H [Nb Fb]. split; [exact Na|]. intros ->.
  destruct b as [sb| [] | | [] mb eb]; try contradiction;
    try discriminate H; congruence.
Qed.

(** A product at or below a finite float has finite factors. *)
Lemma SFmul_factors (a r m : spec_float) :
  nonneg a -> nonneg r ->
  SFle (SFmul prec emax a r) m -> bounded_amount m ->
  bounded_amount a /\ bounded_amount r.
Proof.
  intros Na Nr H [Nm Fm].
  destruct a as [sa| [] | | [] ma ea]; try contradiction;
    destruct r as [sr| [] | | [] mr er]; try contradiction;
    try (split; split; try exact I; discriminate);
    simpl in H; try discriminate H;
    destruct m as [sm| [] | | [] mm em]; try contradiction;
    try discriminate H; congruence.
Qed.

Lemma SFmul_bounded (a r : spec_float) :
  valid a -> valid r -> bounded_amount a -> bounded_amount r ->
  nonneg (SFmul prec emax a r).
Proof.
  intros Va Vr [Na Fa] [Nr Fr]. apply SFmul_nonneg; auto.
  destruct a as [sa| [] | | [] ma ea]; try contradiction; try congruence;
    destruct r as [sr| [] | | [] mr er]; try contradiction; try congruence;
    try discriminate.
  rewrite SFmul_finite. intro E.
  pose proof (@round_aux_nonneg (ma * mr) (ea + er)
                (mul_below _ _ _ _ Va Vr)) as P.
  rewrite E in P. exact P.
Qed.

(** Adding a float that is not negative does not give less. *)
Lemma SFadd_ge (m e : spec_float) :
  valid m -> valid e -> nonneg m -> nonneg e ->
  SFle m (SFadd prec emax m e).
Proof.
  intros Vm Ve Nm Ne.
  assert (Z : SFle m (SFadd prec emax m (S754_zero false))).
  { destruct m as [sm| [] | | [] mm em]; try contradiction.
    - destruct sm; reflexivity.
    - reflexivity.
    - apply SFle_refl. exact I. }
  eapply SFle_trans; [exact Nm | | | exact Z |].
  - apply SFadd_nonneg; [exact Nm | exact I].
  - apply SFadd_nonneg; assumption.
  - apply SFadd_mono_r; auto; try exact I; try reflexivity.
    now apply SFle_zero_nonneg.
Qed.

(** ** Division *)

Lemma shr_1_keeps (mrs : shr_record) :
  0 <= shr_m mrs -> 0 <= shr_m (shr_1 mrs).
Proof.
  destruct mrs as [m r s]. cbn [shr_m]. intro H.
  rewrite shr_1_nonneg by exact H. cbn [shr_m].
  now apply Z.div2_nonneg.
Qed.

Lemma shr_keeps (mrs : shr_record) (e n : Z) :
  0 <= shr_m mrs -> 0 <= shr_m (fst (shr mrs e n)).
Proof.
  intro H. destruct n as [|p|p]; simpl; auto.
  rewrite iter_pos_nat.
  induction (Pos.to_nat p) as [|k IH]; simpl; auto.
  now apply shr_1_keeps.
Qed.

Lemma shr_fexp_keeps (m e : Z) (l : location) :
  0 <= m -> 0 <= shr_m (fst (shr_fexp prec emax m e l)).
Proof.
  intro H. unfold shr_fexp. apply shr_keeps.
  destruct l as [|[]]; exact H.
Qed.

Lemma round_nearest_even_keeps (m : Z) (l : location) :
  0 <= m -> 0 <= round_nearest_even m l.
Proof.
  intro H. destruct l as [|[]]; simpl; try lia.
  destruct (Z.even m); lia.
Qed.

(** Whatever the location, rounding a mantissa that is not negative gives a
    float that is not negative. *)
Lemma round_aux_any_nonneg (m e : Z) (l : location) :
  0 <= m -> nonneg (binary_round_aux prec emax false m e l).
Proof.
  intro H. unfold binary_round_aux.
  pose proof (@shr_fexp_keeps m e l H) as H1.
  destruct (shr_fexp prec emax m e l) as [mrs' e']. simpl fst in H1.
  pose proof (@shr_fexp_keeps
    (round_nearest_even (shr_m mrs') (loc_of_shr_record mrs')) e' loc_Exact
    (round_nearest_even_keeps _ H1)) as H2.
  destruct (shr_fexp prec emax _ e' loc_Exact) as [mrs'' e''].
  simpl fst in H2.
  destruct (shr_m mrs'') as [|p|p]; try lia; try exact I.
  destruct (e'' <=? emax - prec); exact I.
Qed.

Lemma SFdiv_nonneg (x : spec_float) (my : positive) (ey : Z) :
  nonneg x -> nonneg (SFdiv prec emax x (S754_finite false my ey)).
Proof.
  destruct x as [sx| [] | | [] mx ex]; simpl; intros []; try exact I.
  unfold SFdiv_core_binary.
  match goal with
  | |- context [Z.div_eucl ?a ?b] =>
      pose proof (Z.div_eucl_eq a b ltac:(lia)) as E;
      pose proof (Z.mod_pos_bound a b ltac:(lia)) as B;
      unfold Z.modulo in B;
      assert (Ha : 0 <= a);
      [| destruct (Z.div_eucl a b) as [q r] eqn:D ]
  end.
  - destruct (ex - ey - _) as [|p|p]; try lia.
    rewrite Z.shiftl_mul_pow2 by lia.
    apply Z.mul_nonneg_nonneg; [lia | apply Z.pow_nonneg; lia].
  - apply round_aux_any_nonneg. nia.
Qed.

(** ** Comparisons of floats of any sign *)

Lemma SFcompare_antisym (a b : spec_float) (c : comparison) :
  SFcompare a b = Some c -> SFcompare b a = Some (CompOpp c).
Proof.
  destruct a as [sa| [] | | [] ma ea]; destruct b as [sb| [] | | [] mb eb];
    simpl; intro E; inversion E; subst; clear E; try reflexivity;
    rewrite (Z.compare_antisym eb ea);
    destruct (eb ?= ea)%Z; simpl; try reflexivity;
    change (Pos.compare_cont Eq ma mb) with (Pos.compare ma mb);
    change (Pos.compare_cont Eq mb ma) with (Pos.compare mb ma);
    rewrite (Pos.compare_antisym mb ma);
    destruct (Pos.compare mb ma); reflexivity.
Qed.

(* the comparison of two positive finite floats, on exponents first *)
Definition cmpFinite (m1 : positive) (e1 : Z) (m2 : positive) (e2 : Z)
  : comparison :=
  match e1 ?= e2 with
  | Lt => Lt
  | Gt => Gt
  | Eq => Pos.compare m1 m2
  end.

Lemma cmpFinite_spec (m1 m2 : positive) (e1 e2 : Z) :
  match cmpFinite m1 e1 m2 e2 with
  | Lt => e1 < e2 \/ (e1 = e2 /\ (m1 < m2)%positive)
  | Eq => e1 = e2 /\ m1 = m2
  | Gt => e2 < e1 \/ (e1 = e2 /\ (m2 < m1)%positive)
  end.
Proof.
  unfold cmpFinite.
  destruct (Z.compare_spec e1 e2); auto.
  destruct (Pos.compare_spec m1 m2); auto.
Qed.

(* where a float that is not NaN lies: below zero, at zero or above, and
   how far *)
Inductive place : Type :=
  | BelowAll
  | Below (m : positive) (e : Z)
  | AtZero
  | Above (m : positive) (e : Z)
  | AboveAll.

Definition placeOf (f : spec_float) : place :=
  match f with
  | S754_zero _ | S754_nan => AtZero
  | S754_infinity true => BelowAll
  | S754_infinity false => AboveAll
  | S754_finite true m e => Below m e
  | S754_finite false m e => Above m e
  end.

Definition placeLe (p q : place) : Prop :=
  match p, q with
  | BelowAll, _ | _, AboveAll => True
  | _, BelowAll | AboveAll, _ => False
  | Below m1 e1, Below m2 e2 => cmpFinite m1 e1 m2 e2 <> Lt
  | Below _ _, _ => True
  | AtZero, Below _ _ => False
  | AtZero, _ => True
  | Above _ _, Below _ _ | Above _ _, AtZero => False
  | Above m1 e1, Above m2 e2 => cmpFinite m1 e1 m2 e2 <> Gt
  end.

Lemma SFle_place (a b : spec_float) :
  SFle a b
  <-> a <> S754_nan /\ b <> S754_nan /\ placeLe (placeOf a) (placeOf b).
Proof.
  unfold SFle, SFleb.
  destruct a as [sa| [] | | [] ma ea]; destruct b as [sb| [] | | [] mb eb];
    simpl; unfold cmpFinite;
    repeat match goal with
           | |- context [Pos.compare_cont Eq ?x ?y] =>
               change (Pos.compare_cont Eq x y) with (Pos.compare x y)
           end;
    repeat match goal with
           | |- context [Z.compare ?x ?y] => destruct (Z.compare x y)
           | |- context [Pos.compare ?x ?y] => destruct (Pos.compare x y)
           end;
    simpl;
    (split;
     [ intro H; try discriminate H; repeat split; try discriminate;
       try exact I
     | intros (N1 & N2 & P); try reflexivity; try contradiction;
       congruence ]).
Qed.

Lemma placeLe_trans (p q r : place) :
  placeLe p q -> placeLe q r -> placeLe p r.
Proof.
  destruct p as [|m1 e1| |m1 e1|], q as [|m2 e2| |m2 e2|],
    r as [|m3 e3| |m3 e3|]; simpl; auto; try contradiction;
    intros H1 H2;
    pose proof (cmpFinite_spec m1 m2 e1 e2) as S1;
    pose proof (cmpFinite_spec m2 m3 e2 e3) as S2;
    pose proof (cmpFinite_spec m1 m3 e1 e3) as S3;
    destruct (cmpFinite m1 e1 m2 e2), (cmpFinite m2 e2 m3 e3),
      (cmpFinite m1 e1 m3 e3); try congruence; lia.
Qed.

(** The order of floats is transitive. *)
Lemma SFle_trans_any (a b c : spec_float) : SFle a b -> SFle b c -> SFle a c.
Proof.
  rewrite !SFle_place. intros (Na & Nb & H1) (_ & Nc & H2).
  split; [exact Na|]. split; [exact Nc|]. eapply placeLe_trans; eauto.
Qed.

(** ** The sign of a difference *)

(* above zero: a positive number or +infinity *)
Definition above (f : spec_float) : Prop :=
  match f with
  | S754_finite false _ _ | S754_infinity false => True
  | _ => False
  end.

Lemma above_lt (f : spec_float) :
  above f -> SFltb (S754_zero false) f = true.
Proof. destruct f as [s| [] | | [] m e]; simpl; intros []; reflexivity. Qed.

Lemma round_aux_opp (m e : Z) (l : location) :
  binary_round_aux prec emax true m e l
  = SFopp (binary_round_aux prec emax false m e l).
Proof.
  unfold binary_round_aux.
  destruct (shr_fexp prec emax m e l) as [mrs' e'].
  destruct (shr_fexp prec emax _ e' loc_Exact) as [mrs'' e''].
  destruct (shr_m mrs''); try reflexivity.
  destruct (e'' <=? emax - prec); reflexivity.
Qed.

Lemma round_opp (m : positive) (e : Z) :
  binary_round prec emax true m e = SFopp (binary_round prec emax false m e).
Proof.
  unfold binary_round.
  destruct (shl_align m e _) as [mz ez].
  apply round_aux_opp.
Qed.

(** A positive multiple of the smallest positive double does not round to
    zero. *)
Lemma round_above (M : positive) (E : Z) :
  -1074 <= E -> above (binary_round prec emax false M E).
Proof.
  intro HE.
  assert (Hv : vle 1 (-1074) (Zpos M) E).
  { exists (-1074). split; [lia|]. split; [lia|].
    pose proof (@pow2_pos (E - -1074) ltac:(lia)) as HP.
    rewrite Z.sub_diag. change (2 ^ 0) with 1.
    set (P := 2 ^ (E - -1074)) in *. nia. }
  apply round_mono in Hv.
  rewrite (@round_exact 1 1 (-1074) (-1074)) in Hv;
    [|reflexivity | lia | reflexivity].
  pose proof (round_nonneg M E) as N.
  destruct (binary_round prec emax false M E) as [s| [] | | [] m e];
    try contradiction; try exact I; discriminate.
Qed.

Lemma round_not_above (M : positive) (E : Z) :
  SFltb (S754_zero false) (binary_round prec emax true M E) = false.
Proof.
  rewrite round_opp. pose proof (round_nonneg M E) as N.
  destruct (binary_round prec emax false M E) as [s| [] | | [] m e];
    try contradiction; reflexivity.
Qed.

Lemma bounded_exponent (m : positive) (e : Z) :
  bounded prec emax m e = true -> -1074 <= e.
Proof.
  intro B. destruct (@bounded_facts m e B) as [C _].
  rewrite fexp_eq in C. lia.
Qed.

(** The order of two positive floats in canonical form is the order of
    their values, also from the values to the floats. *)
Lemma vle_SFle (m1 m2 : positive) (e1 e2 : Z) :
  bounded prec emax m1 e1 = true -> bounded prec emax m2 e2 = true ->
  vle (Zpos m1) e1 (Zpos m2) e2 ->
  SFle (S754_finite false m1 e1) (S754_finite false m2 e2).
Proof.
  intros B1 B2 Hv. apply round_mono in Hv.
  rewrite (@round_exact m1 m1 e1 e1), (@round_exact m2 m2 e2 e2) in Hv;
    auto; try lia; rewrite Z.sub_diag; simpl; lia.
Qed.

(** The difference of two positive doubles is above zero exactly when the
    first is the larger. *)
Lemma SFsub_sign_finite (mx my : positive) (ex ey : Z) :
  bounded prec emax mx ex = true -> bounded prec emax my ey = true ->
  SFltb (S754_zero false)
        (SFsub prec emax (S754_finite false mx ex) (S754_finite false my ey))
  = SFltb (S754_finite false my ey) (S754_finite false mx ex).
Proof.
  intros Bx By. rewrite SFsub_finite.
  set (ez := Z.min ex ey).
  assert (Hx : ez <= ex) by (unfold ez; lia).
  assert (Hy : ez <= ey) by (unfold ez; lia).
  pose proof (aligned_value mx Hx) as Vx.
  pose proof (aligned_value my Hy) as Vy.
  pose proof (@bounded_exponent _ _ Bx). pose proof (@bounded_exponent _ _ By).
  assert (Hz : -1074 <= ez) by (unfold ez; lia).
  set (ax := aligned mx ex ez) in *. set (ay := aligned my ey ez) in *.
  destruct (Z.lt_ge_cases (Zpos ay) (Zpos ax)) as [G | L].
  - (* the first is the larger *)
    assert (Ha : above (binary_normalize prec emax (Zpos ax - Zpos ay)
                                         ez false)).
    { destruct (Zpos ax - Zpos ay) as [|d|d] eqn:E; try lia.
      simpl. now apply round_above. }
    rewrite (above_lt _ Ha). symmetry.
    unfold SFltb.
    destruct (SFcompare (S754_finite false my ey) (S754_finite false mx ex))
      as [c|] eqn:E; [|discriminate E].
    destruct c; auto; exfalso;
      apply SFcompare_antisym in E;
      assert (Hle : SFle (S754_finite false mx ex) (S754_finite false my ey))
        by (unfold SFle, SFleb; rewrite E; reflexivity);
      apply SFle_vle in Hle; auto;
      pose proof (vle_at Hle Hx Hy); lia.
  - (* the first is not the larger *)
    assert (Hn : SFltb (S754_zero false)
                   (binary_normalize prec emax (Zpos ax - Zpos ay) ez false)
                 = false).
    { destruct (Zpos ax - Zpos ay) as [|d|d] eqn:E; try lia.
      - reflexivity.
      - simpl. apply round_not_above. }
    rewrite Hn. symmetry.
    assert (Hle : SFle (S754_finite false mx ex) (S754_finite false my ey)).
    { apply vle_SFle; auto. exists ez. split; [lia|]. split; [lia|]. lia. }
    unfold SFle, SFleb in Hle. unfold SFltb.
    destruct (SFcompare (S754_finite false mx ex) (S754_finite false my ey))
      as [c|] eqn:E; [|discriminate Hle].
    rewrite (SFcompare_antisym _ _ E). now destruct c.
Qed.

(** The difference of two floats is above zero exactly when the first is
    the larger. *)
Lemma SFsub_sign (x y : spec_float) :
  valid x -> valid y -> x <> S754_nan -> y <> S754_nan ->
  SFltb (S754_zero false) (SFsub prec emax x y) = SFltb y x.
Proof.
  intros Vx Vy Nx Ny. unfold valid in *.
  destruct x as [sx| sx | | sx mx ex]; try congruence;
    destruct y as [sy| sy | | sy my ey]; try congruence;
    try (destruct sx, sy; reflexivity).
  simpl in Vx, Vy.
  pose proof (@bounded_exponent _ _ Vx). pose proof (@bounded_exponent _ _ Vy).
  destruct sx, sy.
  - (* both below zero: the difference of the magnitudes, reversed *)
    transitivity (SFltb (S754_zero false)
                    (SFsub prec emax (S754_finite false my ey)
                           (S754_finite false mx ex))).
    + unfold SFsub. rewrite (Z.min_comm ey ex). reflexivity.
    + rewrite SFsub_sign_finite by auto.
      unfold SFltb, SFcompare.
      rewrite (Z.compare_antisym ex ey).
      destruct (ex ?= ey); simpl; try reflexivity.
      change (Pos.compare_cont Eq mx my) with (Pos.compare mx my).
      change (Pos.compare_cont Eq my mx) with (Pos.compare my mx).
      rewrite (Pos.compare_antisym mx my).
      destruct (Pos.compare mx my); reflexivity.
  - (* below zero less above zero *)
    unfold SFsub. cbn [cond_Zopp Z.sub Z.opp Z.add binary_normalize].
    apply round_not_above.
  - (* above zero less below zero *)
    unfold SFsub. cbn [cond_Zopp Z.sub Z.opp Z.add binary_normalize].
    apply above_lt. apply round_above. lia.
  - now apply SFsub_sign_finite.
Qed.

End Rounding.

(** * The engine in double arithmetic *)

Module Binary64.

Import Rounding.

Open Scope float_scope.

(* x <= y holds as the program tests it *)
Definition le (x y : float) : Prop := (x <=? y) = true.

(* a number that is not negative: not NaN, possibly +Infinity *)
Definition amount (x : float) : Prop := le 0 x.

(* an amount that is not +Infinity *)
Definition finite (x : float) : Prop := amount x /\ (x <? infinity) = true.

(* x < 0 fails: an amount or NaN *)
Definition notNegative (x : float) : Prop := (x <? 0) = false.

Lemma le_SF (x y : float) : le x y <-> SFle (Prim2SF x) (Prim2SF y).
Proof. unfold le, SFle. now rewrite leb_spec. Qed.

Lemma amount_SF (x : float) : amount x <-> nonneg (Prim2SF x).
Proof.
  unfold amount. rewrite le_SF.
  change (Prim2SF 0) with (S754_zero false).
  split; [apply SFle_nonneg; exact I | apply SFle_zero_nonneg].
Qed.

Lemma finite_SF (x : float) : finite x <-> bounded_amount (Prim2SF x).
Proof.
  unfold finite, bounded_amount. rewrite amount_SF, ltb_spec.
  change (Prim2SF infinity) with (S754_infinity false).
  destruct (Prim2SF x) as [s| [] | | [] m e]; simpl;
    split; intros [N F]; try contradiction; try discriminate;
    try congruence; split; auto; discriminate.
Qed.

Lemma notNegative_SF (x : float) :
  notNegative x <-> nonneg (Prim2SF x) \/ Prim2SF x = S754_nan.
Proof.
  unfold notNegative. rewrite ltb_spec.
  change (Prim2SF 0) with (S754_zero false).
  destruct (Prim2SF x) as [s| [] | | [] m e]; simpl; unfold SFltb; simpl;
    split; try discriminate; auto; intros [[]|E]; discriminate.
Qed.

Lemma valid_SF (x : float) : valid (Prim2SF x).
Proof. apply Prim2SF_valid. Qed.

Lemma amount_zero : amount 0.
Proof. reflexivity. Qed.

Lemma amount_notNegative (x : float) : amount x -> notNegative x.
Proof. rewrite amount_SF, notNegative_SF. now left. Qed.

Lemma finite_amount (x : float) : finite x -> amount x.
Proof. now intros [H _]. Qed.

Lemma lt_amount (x : float) : (0 <? x) = true -> amount x.
Proof.
  rewrite amount_SF, ltb_spec. change (Prim2SF 0) with (S754_zero false).
  destruct (Prim2SF x) as [s| [] | | [] m e]; simpl; unfold SFltb; simpl;
    auto; discriminate.
Qed.

Lemma le_refl (x : float) : amount x -> le x x.
Proof. rewrite amount_SF, le_SF. apply SFle_refl. Qed.

Lemma le_amount (a b : float) : amount a -> le a b -> amount b.
Proof. rewrite !amount_SF, le_SF. apply SFle_nonneg. Qed.

Lemma le_trans (a b c : float) : amount a -> le a b -> le b c -> le a c.
Proof.
  intros Na Hab Hbc.
  pose proof (le_amount Na Hab) as Nb. pose proof (le_amount Nb Hbc) as Nc.
  rewrite amount_SF in *. rewrite le_SF in *.
  now apply SFle_trans with (b := Prim2SF b).
Qed.

Lemma le_finite (a b : float) : amount a -> le a b -> finite b -> finite a.
Proof. rewrite amount_SF, le_SF, !finite_SF. apply SFle_bounded. Qed.

(** Products of finite amounts keep the order. *)
Lemma mul_mono (a a' r : float) :
  amount a -> le a a' -> finite a' -> finite r ->
  amount (a * r) /\ le (a * r) (a' * r).
Proof.
  intros Na H Fa' Fr.
  pose proof (le_finite Na H Fa') as Fa.
  rewrite amount_SF, le_SF, !mul_spec.
  rewrite le_SF in H. rewrite finite_SF in *.
  pose proof (SFmul_bounded (valid_SF a) (valid_SF r) Fa Fr) as P.
  pose proof (SFmul_bounded (valid_SF a') (valid_SF r) Fa' Fr) as P'.
  split; [exact P|].
  apply SFmul_mono; auto using valid_SF;
    try (now destruct Fa); try (now destruct Fa'); try (now destruct Fr).
  - intro E. unfold SF64mul in *. rewrite E in P. exact P.
  - intro E. unfold SF64mul in *. rewrite E in P'. exact P'.
Qed.

(** A product at or below a finite amount has finite factors. *)
Lemma mul_factors (a r m : float) :
  amount a -> amount r -> le (a * r) m -> (m <? infinity) = true ->
  finite a /\ finite r.
Proof.
  intros Na Nr H Fm.
  assert (Nm : amount m).
  { rewrite amount_SF in *. rewrite le_SF, mul_spec in H.
    apply SFle_nonneg with (2 := H).
    apply SFmul_nonneg; auto using valid_SF.
    intro E. unfold SF64mul in *. rewrite E in H. discriminate H. }
  rewrite !finite_SF. rewrite amount_SF in Na, Nr.
  rewrite le_SF, mul_spec in H.
  eapply SFmul_factors; eauto.
  apply finite_SF. split; assumption.
Qed.

Lemma add_amount (a c : float) : amount a -> amount c -> amount (a + c).
Proof. rewrite !amount_SF, add_spec. apply SFadd_nonneg. Qed.

Lemma add_notNegative (a c : float) :
  notNegative a -> notNegative c -> notNegative (a + c).
Proof.
  rewrite !notNegative_SF, add_spec. unfold SF64add.
  intros [Na | ->]; [|now right].
  intros [Nc | ->]; [left; now apply SFadd_nonneg|].
  right. now destruct (Prim2SF a).
Qed.

(** Sums of amounts keep the order. *)
Lemma add_mono (a a' c c' : float) :
  amount a -> le a a' -> amount c -> le c c' -> le (a + c) (a' + c').
Proof.
  intros Na Ha Nc Hc.
  pose proof (le_amount Na Ha) as Na'. pose proof (le_amount Nc Hc) as Nc'.
  apply le_trans with (b := a' + c).
  - now apply add_amount.
  - rewrite amount_SF in *. rewrite le_SF in *. rewrite !add_spec.
    apply SFadd_mono_l; auto using valid_SF.
  - rewrite amount_SF in *. rewrite le_SF in *. rewrite !add_spec.
    apply SFadd_mono_r; auto using valid_SF.
Qed.

Lemma add_ge (m e : float) : amount m -> amount e -> le m (m + e).
Proof.
  rewrite !amount_SF, le_SF, add_spec.
  intros Nm Ne. apply SFadd_ge; auto using valid_SF.
Qed.

(** Taking a finite amount from one at least as large. *)
Lemma sub_le (b p : float) :
  amount p -> le p b -> finite p -> amount (b - p) /\ le (b - p) b.
Proof.
  intros Np H Fp. pose proof (le_amount Np H) as Nb.
  rewrite amount_SF in *. rewrite le_SF in *. rewrite finite_SF in Fp.
  rewrite sub_spec.
  apply SFsub_le; auto using valid_SF. now destruct Fp.
Qed.

(** Taking anything not above it from an amount never gives a negative
    number (Infinity - Infinity is NaN). *)
Lemma sub_notNegative (b p : float) :
  amount b -> le p b -> notNegative (b - p).
Proof.
  rewrite amount_SF, le_SF, notNegative_SF, sub_spec. unfold SF64sub.
  intros Nb H.
  pose proof (valid_SF b) as Vb. pose proof (valid_SF p) as Vp.
  destruct (Prim2SF p) as [sp| [] | | [] mp ep] eqn:Ep.
  - left. apply SFsub_le; auto; [exact I | discriminate].
  - left. destruct (Prim2SF b) as [sb| [] | | [] mb eb]; try contradiction;
      exact I.
  - destruct (Prim2SF b) as [sb| [] | | [] mb eb]; try contradiction;
      try discriminate H.
    now right.
  - discriminate H.
  - left. destruct (Prim2SF b) as [sb| [] | | [] mb eb] eqn:Eb;
      try contradiction; try exact I.
    change (SFsub prec emax (S754_finite false mb eb) (S754_finite true mp ep))
      with (SFadd prec emax (S754_finite false mb eb)
                  (S754_finite false mp ep)).
    apply SFadd_nonneg; exact I.
  - left. apply SFsub_le; auto; [exact I | discriminate].
Qed.

(** Dividing an amount by a positive constant. *)
Lemma div_amount (x c : float) :
  amount x ->
  (exists m e, Prim2SF c = S754_finite false m e) ->
  amount (x / c).
Proof.
  rewrite !amount_SF, div_spec. intros Nx (m & e & ->).
  now apply SFdiv_nonneg.
Qed.

(** *** Comparisons *)

Lemma is_nan_SF (x : float) : is_nan x = false <-> Prim2SF x <> S754_nan.
Proof.
  unfold is_nan. rewrite <- Bool.not_true_iff_false, negb_true_iff.
  rewrite eqb_spec. unfold SFeqb.
  destruct (Prim2SF x) as [s| [] | | [] m e]; simpl;
    try (rewrite ?Z.compare_refl, ?Pos.compare_cont_refl);
    split; intro N; try discriminate; try congruence; tauto.
Qed.

Lemma amount_is_nan (x : float) : amount x -> is_nan x = false.
Proof.
  rewrite amount_SF, is_nan_SF.
  destruct (Prim2SF x); try contradiction; discriminate.
Qed.

(* neither comparison fails for lack of an order *)
Lemma not_lt_le (a b : float) :
  is_nan a = false -> is_nan b = false -> (b <? a) = false -> le a b.
Proof.
  rewrite !is_nan_SF, ltb_spec, le_SF. unfold SFltb, SFle, SFleb.
  intros Na Nb H.
  destruct (SFcompare (Prim2SF b) (Prim2SF a)) as [c|] eqn:E.
  - rewrite (SFcompare_antisym _ _ E). destruct c; try reflexivity.
    discriminate.
  - destruct (Prim2SF a), (Prim2SF b); try discriminate E; congruence.
Qed.

Lemma lt_le (a b : float) : (a <? b) = true -> le a b.
Proof.
  rewrite ltb_spec, le_SF. unfold SFltb, SFle, SFleb.
  destruct (SFcompare (Prim2SF a) (Prim2SF b)) as [[]|]; auto.
Qed.

Lemma lt_asym (a b : float) : (a <? b) = true -> (b <? a) = false.
Proof.
  rewrite !ltb_spec. unfold SFltb.
  destruct (SFcompare (Prim2SF a) (Prim2SF b)) as [c|] eqn:E;
    [|discriminate].
  rewrite (SFcompare_antisym _ _ E). now destruct c.
Qed.

(** Math.min of two numbers is one of them and is not above the second. *)
Lemma min_le (x b : float) :
  is_nan x = false -> is_nan b = false ->
  (Float.min x b = x \/ Float.min x b = b) /\ le (Float.min x b) b.
Proof.
  intros Nx Nb. unfold Float.min. rewrite Nx, Nb.
  assert (Rb : le b b).
  { apply not_lt_le; auto.
    destruct (b <? b) eqn:E; auto. now rewrite (lt_asym E) in E. }
  destruct (x <? b) eqn:L1; [split; auto using lt_le|].
  destruct (b <? x) eqn:L2; [split; auto|].
  destruct (get_sign x); split; auto.
  now apply not_lt_le.
Qed.

(** Math.max of two values is never below the first as the guard of the
    engine tests it: [a > Math.max a b] fails, also at NaN. *)
Lemma max_not_below (a b : float) : (Float.max a b <? a) = false.
Proof.
  assert (Irr : forall x, (x <? x) = false).
  { intro x. destruct (x <? x) eqn:E; auto. now rewrite (lt_asym E) in E. }
  unfold Float.max.
  destruct (is_nan a) eqn:Na; [apply Irr|].
  destruct (is_nan b) eqn:Nb.
  { rewrite ltb_spec. unfold SFltb.
    assert (E : Prim2SF b = S754_nan).
    { destruct (Prim2SF b) eqn:Eb; auto;
        assert (N : is_nan b = false)
          by (apply is_nan_SF; rewrite Eb; discriminate);
        congruence. }
    now rewrite E. }
  destruct (a <? b) eqn:L1; [now apply lt_asym|].
  destruct (b <? a) eqn:L2; [apply Irr|].
  destruct (get_sign a); auto.
Qed.

(** *** The comparators of the three policies *)

Lemma le_trans_any (a b c : float) : le a b -> le b c -> le a c.
Proof. rewrite !le_SF. apply SFle_trans_any. Qed.

(** A difference is above zero exactly when its first term is the larger:
    doubles have no difference that rounds to zero. *)
Lemma sub_positive (x y : float) :
  is_nan x = false -> is_nan y = false -> (0 <? x - y) = (y <? x).
Proof.
  rewrite !is_nan_SF, !ltb_spec, sub_spec. intros Nx Ny.
  apply SFsub_sign; auto using valid_SF.
Qed.

(** For debts whose keys are numbers each policy hands the engine its debts
    sorted by the keys as doubles. *)
Lemma policies_sort_doubles (debts : list (Debt.t float)) :
  (Forall (fun debt => is_nan (Debt.balance debt) = false) debts ->
   StronglySorted (fun a b => le (Debt.balance a) (Debt.balance b))
                  (snowballOrder debts))
  /\ (Forall (fun debt => is_nan (Debt.interestRate debt) = false) debts ->
      StronglySorted
        (fun a b => le (Debt.interestRate b) (Debt.interestRate a))
        (avalancheOrder debts))
  /\ (Forall (fun debt => is_nan (blendedScore debt) = false) debts ->
      StronglySorted (fun a b => le (blendedScore a) (blendedScore b))
                     (hybridOrder debts)).
Proof.
  apply (@policies_sort float _ le (fun x => is_nan x = false)).
  - apply le_trans_any.
  - intros x y Nx Ny E. apply lt_le.
    rewrite <- (@sub_positive x y Nx Ny). exact E.
  - intros x y Nx Ny E. apply not_lt_le; auto.
    rewrite <- (@sub_positive x y Nx Ny). exact E.
Qed.

(** *** The monthly pass *)

(* a debt whose minimum payment is a finite amount that covers the interest
   on its balance, each condition as the program would test it *)
Definition covered (debt : Debt.t float) : Prop :=
  amount (Debt.balance debt)
  /\ amount (Debt.interestRate debt)
  /\ le (Debt.balance debt * calculateMonthlyRate (Debt.interestRate debt))
        (Debt.minimumPayment debt)
  /\ (Debt.minimumPayment debt <? infinity) = true.

Lemma monthlyRate_amount (rate : float) :
  amount rate -> amount (calculateMonthlyRate rate).
Proof.
  intro Hr. unfold calculateMonthlyRate.
  apply div_amount; [apply div_amount; auto|];
    eexists; eexists; vm_compute; reflexivity.
Qed.

Lemma covered_setBalance (debt : Debt.t float) (b : float) :
  covered debt -> amount b -> le b (Debt.balance debt) ->
  covered (Debt.setBalance b debt).
Proof.
  intros (Hb & Hr & Hi & Hm) Nb Hle.
  destruct (mul_factors Hb (monthlyRate_amount Hr) Hi Hm) as [Fb Fr].
  destruct (mul_mono Nb Hle Fb Fr) as [Na Hmono].
  repeat split; simpl; auto.
  eapply le_trans; eauto.
Qed.

Lemma processDebt_covered (i : nat) (debt : Debt.t float)
  (acc : @MonthAcc float) :
  covered debt ->
  covered (fst (processDebt i debt acc))
  /\ le (Debt.balance (fst (processDebt i debt acc))) (Debt.balance debt).
Proof.
  intros Hc. pose proof Hc as (Hb & Hr & Hi & Hm).
  unfold processDebt.
  destruct (Debt.balance debt <=? lit 0.01%Q)%js eqn:Hskip.
  { simpl. split; [exact Hc | now apply le_refl]. }
  destruct (mul_factors Hb (monthlyRate_amount Hr) Hi Hm) as [Fb Fr].
  destruct (mul_mono Hb (le_refl Hb) Fb Fr) as [Ni _].
  set (rate := calculateMonthlyRate (Debt.interestRate debt)) in *.
  set (interest := (Debt.balance debt * rate)%js) in *.
  assert (Nm : amount (Debt.minimumPayment debt))
    by (eapply le_amount; eauto).
  assert (Fi : finite interest).
  { apply le_finite with (b := Debt.minimumPayment debt); auto.
    split; auto. }
  set (payment :=
         if ((extraPayment acc >? lit 0%Q)%js && (i =? 0)%nat)%bool
         then (Debt.minimumPayment debt + extraPayment acc)%js
         else Debt.minimumPayment debt).
  assert (Hp : le interest payment).
  { unfold payment.
    destruct ((extraPayment acc >? lit 0%Q)%js) eqn:He; simpl; auto.
    destruct (i =? 0)%nat; simpl; auto.
    apply le_trans with (b := Debt.minimumPayment debt); auto.
    apply add_ge; auto. apply lt_amount. exact He. }
  destruct (sub_le Ni Hp Fi) as [Nx _].
  change (amount (payment - interest)%js) in Nx.
  destruct (@min_le (payment - interest)%js (Debt.balance debt)
              (amount_is_nan Nx) (amount_is_nan Hb)) as [Hone Hle].
  set (principal := mathMin (payment - interest)%js (Debt.balance debt)) in *.
  change (Float.min (payment - interest)%js (Debt.balance debt))
    with principal in Hle, Hone.
  assert (Np : amount principal) by (destruct Hone as [-> | ->]; auto).
  destruct (sub_le Np Hle (le_finite Np Hle Fb)) as [Nn Hn].
  destruct ((_ <=? _)%js && negb _)%bool; simpl.
  - split; [|exact Hb].
    apply covered_setBalance; auto; first [exact amount_zero | exact Hb].
  - split; [|exact Hn]. now apply covered_setBalance.
Qed.

(** Whatever the payment, the balance a month leaves is not negative when the
    balance it found was not: it is an amount or NaN. *)
Lemma processDebt_notNegative (i : nat) (debt : Debt.t float)
  (acc : @MonthAcc float) :
  notNegative (Debt.balance debt) ->
  notNegative (Debt.balance (fst (processDebt i debt acc))).
Proof.
  intros Hb. unfold processDebt.
  destruct (Debt.balance debt <=? lit 0.01%Q)%js eqn:Hskip; [exact Hb|].
  match goal with
  | |- context [mathMin ?x ?b] => set (principal := mathMin x b);
                                  set (offer := x) in *
  end.
  assert (Hn : notNegative (Debt.balance debt - principal)).
  { unfold principal. simpl. unfold Float.min.
    destruct (is_nan offer) eqn:No.
    { apply notNegative_SF. right. rewrite sub_spec.
      assert (E : Prim2SF offer = S754_nan).
      { destruct (Prim2SF offer) eqn:Eo; auto;
          assert (N : is_nan offer = false)
            by (apply is_nan_SF; rewrite Eo; discriminate);
          congruence. }
      rewrite E. unfold SF64sub. now destruct (Prim2SF (Debt.balance debt)). }
    destruct (is_nan (Debt.balance debt)) eqn:Nb.
    { apply notNegative_SF. right. rewrite sub_spec.
      assert (E : Prim2SF (Debt.balance debt) = S754_nan).
      { destruct (Prim2SF (Debt.balance debt)) eqn:Eo; auto;
          assert (N : is_nan (Debt.balance debt) = false)
            by (apply is_nan_SF; rewrite Eo; discriminate);
          congruence. }
      rewrite E. reflexivity. }
    assert (Na : amount (Debt.balance debt)).
    { apply notNegative_SF in Hb as [Hb | Hb]; [now apply amount_SF|].
      apply is_nan_SF in Nb. contradiction. }
    apply sub_notNegative; auto.
    pose proof (@min_le offer (Debt.balance debt) No Nb) as [_ M].
    unfold Float.min in M. now rewrite No, Nb in M. }
  destruct ((_ <=? _)%js && negb _)%bool; simpl; auto.
  apply amount_notNegative. exact amount_zero.
Qed.

Lemma forDebts_covered (debtCopies : list (Debt.t float)) :
  forall (i : nat) (acc : @MonthAcc float),
    Forall covered debtCopies ->
    Forall covered (fst (forDebts i debtCopies acc))
    /\ Forall2 (fun debt debt' => le (Debt.balance debt') (Debt.balance debt))
               debtCopies (fst (forDebts i debtCopies acc)).
Proof.
  induction debtCopies as [|debt rest IH]; intros i acc Hall; simpl.
  - split; constructor.
  - inversion Hall as [|d ds Hd Hds]; subst.
    pose proof (@processDebt_covered i debt acc Hd) as [P1 P2].
    destruct (processDebt i debt acc) as [debt' acc1].
    specialize (IH (S i) acc1 Hds).
    destruct (forDebts (S i) rest acc1) as [rest' acc2].
    destruct IH as [Q1 Q2]. simpl in *. split; constructor; auto.
Qed.

Lemma forDebts_notNegative (debtCopies : list (Debt.t float)) :
  forall (i : nat) (acc : @MonthAcc float),
    Forall (fun debt => notNegative (Debt.balance debt)) debtCopies ->
    Forall (fun debt => notNegative (Debt.balance debt))
           (fst (forDebts i debtCopies acc)).
Proof.
  induction debtCopies as [|debt rest IH]; intros i acc Hall; simpl.
  - constructor.
  - inversion Hall as [|d ds Hd Hds]; subst.
    pose proof (@processDebt_notNegative i debt acc Hd) as P.
    destruct (processDebt i debt acc) as [debt' acc1].
    specialize (IH (S i) acc1 Hds).
    destruct (forDebts (S i) rest acc1) as [rest' acc2].
    simpl in *. constructor; auto.
Qed.

(** *** The balance a record shows *)

(* the running sum of a reduce over balances *)
Definition runningBalance (start : float) (debts : list (Debt.t float))
  : float :=
  fold_left (fun sum debt => (sum + Debt.balance debt)%js) debts start.

Lemma runningBalance_le (debts debts' : list (Debt.t float)) :
  Forall2 (fun debt debt' => le (Debt.balance debt') (Debt.balance debt))
          debts debts' ->
  Forall (fun debt => amount (Debt.balance debt)) debts' ->
  forall start start',
    amount start' -> le start' start ->
    le (runningBalance start' debts') (runningBalance start debts).
Proof.
  induction 1 as [|debt debt' rest rest' Hd _ IH]; intros Hall start start'
    Ns Hs; simpl; auto.
  inversion Hall as [|d ds Nd Nds]; subst.
  apply IH; auto.
  - now apply add_amount.
  - now apply add_mono.
Qed.

Lemma runningBalance_amount (debts : list (Debt.t float)) :
  Forall (fun debt => amount (Debt.balance debt)) debts ->
  forall start, amount start -> amount (runningBalance start debts).
Proof.
  induction 1 as [|debt rest Hd _ IH]; intros start Hs; simpl; auto.
  apply IH. now apply add_amount.
Qed.

Lemma runningBalance_notNegative (debts : list (Debt.t float)) :
  Forall (fun debt => notNegative (Debt.balance debt)) debts ->
  forall start, notNegative start -> notNegative (runningBalance start debts).
Proof.
  induction 1 as [|debt rest Hd _ IH]; intros start Hs; simpl; auto.
  apply IH. now apply add_notNegative.
Qed.

Lemma covered_amount (debts : list (Debt.t float)) :
  Forall covered debts ->
  Forall (fun debt => amount (Debt.balance debt)) debts.
Proof. apply Forall_impl. now intros d (Hb & _). Qed.

(** *** The loop *)

(* each record's remaining balance is at most the one before it *)
Definition neverIncreases (schedule : list (PaymentBreakdown.t float))
  : Prop :=
  forall (i : nat) (p q : PaymentBreakdown.t float),
    nth_error schedule i = Some p ->
    nth_error schedule (S i) = Some q ->
    le (PaymentBreakdown.balance q) (PaymentBreakdown.balance p).

Lemma neverIncreases_snoc (schedule : list (PaymentBreakdown.t float))
  (r : PaymentBreakdown.t float) :
  neverIncreases schedule ->
  Forall (fun p => le (PaymentBreakdown.balance r) (PaymentBreakdown.balance p))
         schedule ->
  neverIncreases (schedule ++ [r]).
Proof.
  intros Hs Hr i p q Hp Hq.
  destruct (Nat.lt_ge_cases (S i) (length schedule)) as [Hlt | Hge].
  - rewrite nth_error_app1 in Hp, Hq by lia. eauto.
  - rewrite nth_error_app2 in Hq by lia.
    destruct (S i - length schedule)%nat as [|k] eqn:Hk.
    + simpl in Hq. inversion Hq; subst q.
      rewrite nth_error_app1 in Hp by lia.
      rewrite Forall_forall in Hr. apply Hr. eapply nth_error_In; eauto.
    + destruct k; discriminate.
Qed.

(* kept by the loop when no balance starts below zero *)
Definition notNegativeInvariant (st : @LoopState float) : Prop :=
  Forall (fun debt => notNegative (Debt.balance debt)) (st_debtCopies st)
  /\ Forall (fun p => notNegative (PaymentBreakdown.balance p))
            (st_paymentSchedule st).

(* kept by the loop when the debts start covered *)
Definition coveredInvariant (st : @LoopState float) : Prop :=
  Forall covered (st_debtCopies st)
  /\ Forall (fun p => amount (PaymentBreakdown.balance p))
            (st_paymentSchedule st)
  /\ Forall (fun p => le (sumOf (@Debt.balance float) (st_debtCopies st))
                         (PaymentBreakdown.balance p))
            (st_paymentSchedule st)
  /\ neverIncreases (st_paymentSchedule st).

Lemma notNegativeInvariant_step (availablePayment totalMinimums : float)
  (st : @LoopState float) :
  notNegativeInvariant st ->
  notNegativeInvariant (loopBody availablePayment totalMinimums st).
Proof.
  intros [Hc Hs]. unfold loopBody.
  pose proof (@forDebts_notNegative (st_debtCopies st) 0
    (mkAcc (lit 0%Q) (lit 0%Q) (availablePayment - totalMinimums)%js
           (st_debtOrder st)) Hc) as P.
  destruct (forDebts _ _ _) as [copies acc]. simpl in P.
  split; simpl; auto.
  apply Forall_app; split; auto. constructor; auto. simpl.
  apply runningBalance_notNegative; auto.
  apply amount_notNegative. exact amount_zero.
Qed.

Lemma coveredInvariant_step (availablePayment totalMinimums : float)
  (st : @LoopState float) :
  coveredInvariant st ->
  coveredInvariant (loopBody availablePayment totalMinimums st).
Proof.
  intros (Hc & Hn & Hs & Hm). unfold loopBody.
  pose proof (@forDebts_covered (st_debtCopies st) 0
    (mkAcc (lit 0%Q) (lit 0%Q) (availablePayment - totalMinimums)%js
           (st_debtOrder st)) Hc) as P.
  destruct (forDebts _ _ _) as [copies acc]. simpl in P.
  destruct P as [Ha1 Ha2].
  assert (Nsum : amount (sumOf (@Debt.balance float) copies)).
  { apply runningBalance_amount; auto using covered_amount.
    exact amount_zero. }
  assert (Hsum : le (sumOf (@Debt.balance float) copies)
                    (sumOf (@Debt.balance float) (st_debtCopies st))).
  { apply runningBalance_le; auto using covered_amount.
    - exact amount_zero.
    - exact amount_zero. }
  assert (Hall : Forall (fun p => le (sumOf (@Debt.balance float) copies)
                                     (PaymentBreakdown.balance p))
                        (st_paymentSchedule st)).
  { apply Forall_impl with (2 := Hs). intros p Hp.
    eapply le_trans; eauto. }
  split; simpl; auto. split; [|split].
  - apply Forall_app; split; auto.
  - apply Forall_app; split; auto. constructor; auto. simpl.
    now apply le_refl.
  - apply neverIncreases_snoc; auto.
Qed.

(** *** Inputs that are numbers *)

(* Number.isFinite(x): neither NaN nor an infinity *)
Definition isFinite (x : float) : bool := abs x <? infinity.

Lemma isFinite_SF (x : float) :
  isFinite x = true <->
  match Prim2SF x with
  | S754_zero _ | S754_finite _ _ _ => True
  | _ => False
  end.
Proof.
  unfold isFinite. rewrite ltb_spec, abs_spec.
  change (Prim2SF infinity) with (S754_infinity false).
  destruct (Prim2SF x) as [s| s | | s m e]; simpl; unfold SFltb; simpl;
    split; auto; try discriminate; try contradiction.
Qed.

Lemma isFinite_is_nan (x : float) : isFinite x = true -> is_nan x = false.
Proof.
  rewrite isFinite_SF, is_nan_SF.
  destruct (Prim2SF x); try contradiction; discriminate.
Qed.

Lemma isFinite_lt_infinity (x : float) :
  isFinite x = true -> (x <? infinity) = true.
Proof.
  rewrite isFinite_SF, ltb_spec.
  change (Prim2SF infinity) with (S754_infinity false).
  destruct (Prim2SF x) as [s| s | | s m e]; try contradiction; reflexivity.
Qed.

Lemma not_le_lt (a b : float) :
  is_nan a = false -> is_nan b = false -> (a <=? b) = false ->
  (b <? a) = true.
Proof.
  rewrite !is_nan_SF, ltb_spec, leb_spec. unfold SFltb, SFleb.
  intros Na Nb H.
  destruct (SFcompare (Prim2SF a) (Prim2SF b)) as [c|] eqn:E.
  - rewrite (SFcompare_antisym _ _ E). destruct c; try reflexivity;
      discriminate.
  - destruct (Prim2SF a), (Prim2SF b); try discriminate E; congruence.
Qed.

Lemma lt_not_le (a b : float) : (a <? b) = true -> (b <=? a) = false.
Proof.
  rewrite ltb_spec, leb_spec. unfold SFltb, SFleb.
  destruct (SFcompare (Prim2SF a) (Prim2SF b)) as [c|] eqn:E;
    [|discriminate].
  rewrite (SFcompare_antisym _ _ E). now destruct c.
Qed.

Lemma notNegative_amount (x : float) :
  is_nan x = false -> notNegative x -> amount x.
Proof.
  rewrite is_nan_SF, notNegative_SF, amount_SF. intros N [P | E]; tauto.
Qed.

(** The product of a positive finite number and an amount is a number. *)
Lemma mul_defined (b r : float) :
  isFinite b = true -> (0 <? b) = true -> amount r -> is_nan (b * r) = false.
Proof.
  rewrite isFinite_SF, ltb_spec, amount_SF, is_nan_SF, mul_spec.
  change (Prim2SF 0) with (S754_zero false). unfold SF64mul.
  destruct (Prim2SF b) as [sb| sb | | [] mb eb]; try contradiction;
    try discriminate;
    destruct (Prim2SF r) as [sr| [] | | [] mr er]; try contradiction;
    intros _ _ _; try discriminate.
  rewrite SFmul_finite. intro E.
  pose proof (@round_aux_any_nonneg (Zpos (mb * mr)) (eb + er) loc_Exact) as P.
  rewrite E in P. apply P. lia.
Qed.

(** Sums of zeros *)
Lemma sumOf_zero {A} (f : A -> float) (arr : list A) :
  Forall (fun x => f x = lit 0%Q) arr -> sumOf f arr = 0.
Proof.
  unfold sumOf. change (lit 0%Q) with 0.
  induction 1 as [|x rest E _ IH]; simpl; [reflexivity|].
  rewrite E. exact IH.
Qed.

(* the state of the loop after [k] runs of its body *)
Definition afterMonths (k : nat) (availablePayment : float)
  (sortedDebts : list (Debt.t float)) : @LoopState float :=
  Nat.iter k
    (loopBody availablePayment
       (sumOf (@Debt.minimumPayment float) sortedDebts))
    (initialState sortedDebts).

(* what the loop keeps true when the debts are covered *)
Lemma schedule_of_covered (sortedDebts : list (Debt.t float))
  (availablePayment : float) (strategy : RepaymentStrategy)
  (a : DebtAnalysis.t float) :
  calculateDebtStrategy sortedDebts availablePayment strategy = Returned a ->
  Forall covered sortedDebts ->
  Forall (fun p => (0 <=? PaymentBreakdown.balance p) = true)
         (DebtAnalysis.paymentSchedule a)
  /\ forall (i : nat) (p q : PaymentBreakdown.t float),
       nth_error (DebtAnalysis.paymentSchedule a) i = Some p ->
       nth_error (DebtAnalysis.paymentSchedule a) (S i) = Some q ->
       (PaymentBreakdown.balance q <=? PaymentBreakdown.balance p) = true.
Proof.
  intros R Hc.
  apply calculateDebtStrategy_returned in R as (Hb & st & W & ->).
  cbn [DebtAnalysis.paymentSchedule].
  apply while_invariant with (P := coveredInvariant) in W
    as [(_ & Hs & _ & Hm) _]; auto.
  - intros s Ps _. now apply coveredInvariant_step.
  - split; [exact Hc|]. split; [constructor|]. split; [constructor|].
    intros i p q Hp. destruct i; discriminate.
Qed.

(** C2 (as amended). With a budget that the minimum payments do not exceed,
    the simulation returns, with at most 600 payment records (on any carrier
    of numbers).  In the double arithmetic of the program: when no input
    balance is below zero, no record shows a remaining balance below zero
    (it is a non-negative number or NaN); and when every debt has a
    non-negative balance and rate and a finite minimum payment that covers
    the monthly interest on its balance, every remaining balance is a
    non-negative number and none is above the one of the month before. *)
Theorem schedule_bounded (strategy : RepaymentStrategy) :
  (forall (F : Type) (N : Number F) (sortedDebts : list (Debt.t F))
          (availablePayment : F),
      (sumOf (@Debt.minimumPayment F) sortedDebts >? availablePayment)%js
      = false ->
      exists a,
        calculateDebtStrategy sortedDebts availablePayment strategy
        = Returned a
        /\ (length (DebtAnalysis.paymentSchedule a) <= 600)%nat)
  /\ (forall (sortedDebts : list (Debt.t float)) (availablePayment : float)
             (a : DebtAnalysis.t float),
      calculateDebtStrategy sortedDebts availablePayment strategy
      = Returned a ->
      (Forall (fun debt => (Debt.balance debt <? 0) = false) sortedDebts ->
       Forall (fun p => (PaymentBreakdown.balance p <? 0) = false)
              (DebtAnalysis.paymentSchedule a))
      /\ (Forall covered sortedDebts ->
          Forall (fun p => (0 <=? PaymentBreakdown.balance p) = true)
                 (DebtAnalysis.paymentSchedule a)
          /\ forall (i : nat) (p q : PaymentBreakdown.t float),
              nth_error (DebtAnalysis.paymentSchedule a) i = Some p ->
              nth_error (DebtAnalysis.paymentSchedule a) (S i) = Some q ->
              (PaymentBreakdown.balance q <=? PaymentBreakdown.balance p)
              = true)).
Proof.
  split.
  - intros F N sortedDebts availablePayment Hb.
    destruct (returns_within_ceiling sortedDebts availablePayment strategy Hb)
      as (a & R & L & _).
    eauto.
  - intros sortedDebts availablePayment a R.
    apply calculateDebtStrategy_returned in R as (Hb & st & W & ->).
    cbn [DebtAnalysis.paymentSchedule]. split.
    + intro Hn.
      apply while_invariant with (P := notNegativeInvariant) in W
        as [[_ Hs] _]; auto.
      * intros s Ps _. now apply notNegativeInvariant_step.
      * split; [exact Hn | constructor].
    + intro Hc.
      apply while_invariant with (P := coveredInvariant) in W
        as [(_ & Hs & _ & Hm) _]; auto.
      * intros s Ps _. now apply coveredInvariant_step.
      * split; [exact Hc|]. split; [constructor|]. split; [constructor|].
        intros i p q Hp. destruct i; discriminate.
Qed.

(** X3. In double arithmetic no simulated balance goes below zero, whatever
    the budget: when no input balance is below zero, no debt copy has a
    balance below zero after any number of simulated months. *)
Theorem balances_never_negative (sortedDebts : list (Debt.t float))
  (availablePayment : float) (k : nat) :
  Forall (fun debt => (Debt.balance debt <? 0) = false) sortedDebts ->
  Forall (fun debt => (Debt.balance debt <? 0) = false)
         (st_debtCopies (afterMonths k availablePayment sortedDebts)).
Proof.
  intros Hn.
  assert (Inv : notNegativeInvariant
                  (afterMonths k availablePayment sortedDebts)).
  { induction k as [|k IH]; simpl.
    - split; [exact Hn | constructor].
    - now apply notNegativeInvariant_step. }
  apply Inv.
Qed.

End Binary64.

(** ** Concrete runs in double arithmetic *)

Module Runs.

Open Scope float_scope.

(* two interest-free debts with a minimum payment of 50 each *)
Definition cardA : Debt.t float :=
  Debt.mk "A" "Card A" 100 0 50 1 credit_card.
Definition loanB : Debt.t float :=
  Debt.mk "B" "Loan B" 1000 0 50 1 personal_loan.

(* the principal paid and the balance left, month by month *)
Definition principals (a : DebtAnalysis.t float) : list float :=
  map (@PaymentBreakdown.principal float) (DebtAnalysis.paymentSchedule a).
Definition balances (a : DebtAnalysis.t float) : list float :=
  map (@PaymentBreakdown.balance float) (DebtAnalysis.paymentSchedule a).

(* [acc] with another amount of extra payment *)
Definition withExtra {F} (x : F) (acc : @MonthAcc F) : @MonthAcc F :=
  mkAcc (monthlyInterest acc) (monthlyPrincipal acc) x (order acc).

(** C1, what the code does.  The extra payment is tested against the index
    0 of the array, not against the first debt that still owes: at any other
    index the pass neither reads nor changes the extra amount.  With a
    budget of 200 for A (100 owed) and B (1000 owed), minimum 50 each, A is
    paid off in month 1; from month 2 on B is the first debt still owing and
    yet is paid its minimum of 50 only, never the extra 100: the plan takes
    20 months. *)
Theorem extra_stays_at_index_0 :
  (forall (F : Type) (N : Number F) (i : nat) (debt : Debt.t F)
          (acc : @MonthAcc F) (x : F),
      fst (processDebt (S i) debt (withExtra x acc))
      = fst (processDebt (S i) debt acc)
      /\ extraPayment (snd (processDebt (S i) debt acc)) = extraPayment acc)
  /\ exists a,
      calculateSnowballStrategy [cardA; loanB] 200 = Returned a
      /\ firstn 3 (principals a) = [150; 50; 50]
      /\ firstn 3 (balances a) = [950; 900; 850]
      /\ DebtAnalysis.payoffTimeMonths a = 20%Z
      /\ DebtAnalysis.debtOrder a = ["A"%string; "B"%string].
Proof.
  split.
  - intros F N i debt acc x. unfold processDebt, withExtra; simpl.
    rewrite !andb_false_r.
    destruct (_ <=? _)%js; simpl; auto.
    destruct (_ && _)%bool; simpl; auto.
  - eexists. split; [vm_compute; reflexivity|].
    repeat split; reflexivity.
Qed.

(* balance 1000 at 24% a year accrues 20 a month; the minimum payment is 15 *)
Definition underwater : Debt.t float :=
  Debt.mk "U" "Card U" 1000 24 15 1 credit_card.

(** C2, the claim as stated fails: the budget 15 covers the only minimum
    payment, and the remaining balance rises from 1005 after month 1 to more
    after month 2. *)
Lemma balance_grows_below_interest :
  (sumOf (@Debt.minimumPayment float) [underwater] >? 15)%js = false
  /\ exists a p q,
      calculateDebtStrategy [underwater] 15 snowball = Returned a
      /\ nth_error (DebtAnalysis.paymentSchedule a) 0 = Some p
      /\ nth_error (DebtAnalysis.paymentSchedule a) 1 = Some q
      /\ PaymentBreakdown.balance p = 1005
      /\ (PaymentBreakdown.balance p <? PaymentBreakdown.balance q) = true.
Proof.
  split; [reflexivity|].
  eexists. eexists. eexists.
  split; [vm_compute; reflexivity|].
  repeat split; reflexivity.
Qed.

(* a debt already at zero, and one that owes 100 *)
Definition settled : Debt.t float :=
  Debt.mk "S" "Old card" 0 0 50 1 credit_card.
Definition loanC : Debt.t float :=
  Debt.mk "C" "Loan C" 100 0 50 1 personal_loan.

(** C4, the claim as stated fails: every debt is paid off after 2 months,
    far from the ceiling, and the payoff order holds one id for two input
    debts, the debt that started at zero being skipped by the pass. *)
Lemma settled_debt_not_in_payoff_order :
  exists a st,
    calculateSnowballStrategy [settled; loanC] 100 = Returned a
    /\ finalState (snowballOrder [settled; loanC]) 100 = Some st
    /\ Forall paidOff (st_debtCopies st)
    /\ DebtAnalysis.payoffTimeMonths a = 2%Z
    /\ DebtAnalysis.debtOrder a = ["C"%string]
    /\ length (DebtAnalysis.debtOrder a) <> length [settled; loanC].
Proof.
  eexists. eexists.
  split; [vm_compute; reflexivity|].
  split; [vm_compute; reflexivity|].
  split; [repeat constructor|].
  split; [reflexivity|]. split; [reflexivity|]. discriminate.
Qed.

(* the analysis of [loanC] alone under a budget of 100 *)
Definition loanC_analysis : DebtAnalysis.t float :=
  DebtAnalysis.mk snowball 0 1%Z 100
    [PaymentBreakdown.mk 1%Z 100 0 0 100] ["C"%string].

Lemma loanC_returned :
  calculateDebtStrategy [loanC] 100 snowball = Returned loanC_analysis.
Proof. vm_compute. reflexivity. Defined.

Lemma payoff_order_witness :
  NoDup (DebtAnalysis.debtOrder loanC_analysis)
  /\ length (DebtAnalysis.debtOrder loanC_analysis) = length [loanC].
Proof.
  destruct (payoff_order [loanC] 100 snowball loanC_returned)
    as (Hnd & _ & _ & Hfull).
  split; [exact Hnd|].
  destruct (Hfull (mkState [Debt.setBalance 0 loanC]
                     [PaymentBreakdown.mk 1%Z 100 0 0 100] ["C"%string]
                     2%Z 0)) as [_ L].
  - vm_compute. reflexivity.
  - repeat constructor. simpl. tauto.
  - repeat constructor.
  - repeat constructor.
  - exact L.
Defined.

Lemma total_interest_is_sum_witness :
  DebtAnalysis.totalInterest loanC_analysis
  = fold_left (fun sum p => (sum + PaymentBreakdown.interest p)%js)
      (DebtAnalysis.paymentSchedule loanC_analysis) (lit 0).
Proof.
  exact (total_interest_is_sum [loanC] 100 snowball loanC_returned).
Defined.

Lemma empty_debt_list_witness :
  strategyFunction avalanche [] 250
  = Returned (DebtAnalysis.mk avalanche 0 0%Z 250 [] []).
Proof.
  destruct (empty_debt_list avalanche) as (_ & _ & D).
  apply (D 250). reflexivity.
Defined.




(* the caller's store: two records, and the array [debts] behind reference 0
   that lists loan B before card A *)
Definition callerRecords : list (@Store.Obj float) :=
  [Store.mkObj loanB None; Store.mkObj cardA None].
Definition callerStore : @Store.heap float :=
  Store.mkHeap callerRecords [[0; 1]%nat].

Lemma callerStore_holds : Ownership.holds callerStore 0%nat callerRecords.
Proof. exists [0; 1]%nat. split; [reflexivity|]. repeat constructor. Defined.

Lemma strategies_leave_input_unchanged_witness :
  exists h',
    Store.strategyFunctionAt snowball 0%nat 200 callerStore
    = Some (strategyFunction snowball (map (@Store.fields float) callerRecords)
              200, h')
    /\ Ownership.extends callerStore h'
    /\ Ownership.holds h' 0%nat callerRecords.
Proof.
  destruct (Ownership.strategies_leave_input_unchanged snowball 200
              callerStore_holds)
    as (h' & R & X & Hh & _).
  exists h'. split; [exact R|]. split; [exact X | exact Hh].
Defined.

(** The store tells a copy from the original: sorting the caller's array
    itself, without the copy that [...debts] makes, would reorder it. *)
Lemma sort_without_copy_reorders_input :
  exists h',
    Store.sortByKey (fun debt => Some (Debt.balance (Store.fields debt)))
      (fun a b => (a - b)%js) 0%nat callerStore = Some (0%nat, h')
    /\ nth_error (Store.arrays callerStore) 0 = Some [0; 1]%nat
    /\ nth_error (Store.arrays h') 0 = Some [1; 0]%nat.
Proof. eexists. split; [vm_compute; reflexivity|]. split; reflexivity. Qed.

(** *** The examples of the specification *)

(* one debt: balance 1200 at 12%, minimum payment 200, budget 200 *)
Definition onlyDebt : Debt.t float :=
  Debt.mk "only" "Card" 1200 12 200 1 credit_card.

(* two debts: A owes 500 at 20% (minimum 50), B owes 5000 at 10% (minimum
   100); the budget is 200 *)
Definition exampleA : Debt.t float :=
  Debt.mk "A" "Debt A" 500 20 50 1 credit_card.
Definition exampleB : Debt.t float :=
  Debt.mk "B" "Debt B" 5000 10 100 1 personal_loan.

(** The two worked examples, in double arithmetic.  One debt of 1200 at
    12% paid 200 a month: the monthly rate is 1%, month 1 has interest 12,
    principal 188 and 1012 remaining, and the payoff order is that debt's
    id.  Debts A and B under avalanche with a budget of 200: A is ordered
    before B and is paid its minimum plus the extra 50 in month 1 (100 in
    all), B its minimum of 100. *)
Theorem specification_examples :
  (calculateMonthlyRate (Debt.interestRate onlyDebt) = lit 0.01
   /\ exists a first,
       calculateSnowballStrategy [onlyDebt] 200 = Returned a
       /\ nth_error (DebtAnalysis.paymentSchedule a) 0 = Some first
       /\ PaymentBreakdown.interest first = 12
       /\ PaymentBreakdown.principal first = 188
       /\ PaymentBreakdown.balance first = 1012
       /\ DebtAnalysis.debtOrder a = ["only"%string])
  /\ (avalancheOrder [exampleB; exampleA] = [exampleA; exampleB]
      /\ (let accA := snd (processDebt 0 exampleA (mkAcc 0 0 50 [])) in
          monthlyInterest accA + monthlyPrincipal accA = 100
          /\ extraPayment accA = 0)
      /\ (let accB := snd (processDebt 1 exampleB (mkAcc 0 0 0 [])) in
          monthlyInterest accB + monthlyPrincipal accB = 100)
      /\ exists a first,
          calculateAvalancheStrategy [exampleB; exampleA] 200 = Returned a
          /\ nth_error (DebtAnalysis.paymentSchedule a) 0 = Some first
          /\ PaymentBreakdown.totalPayment first = 200
          /\ DebtAnalysis.debtOrder a = ["A"%string; "B"%string]).
Proof.
  split.
  - split; [reflexivity|].
    eexists. eexists. split; [vm_compute; reflexivity|].
    repeat split; reflexivity.
  - split; [reflexivity|]. split; [split; reflexivity|].
    split; [reflexivity|].
    eexists. eexists. split; [vm_compute; reflexivity|].
    repeat split; reflexivity.
Qed.

Lemma returned_analysis_shape_witness :
  DebtAnalysis.payoffTimeMonths loanC_analysis
  = Z.of_nat (length (DebtAnalysis.paymentSchedule loanC_analysis)).
Proof.
  destruct (returned_analysis_shape [loanC] 100 snowball loanC_returned)
    as (_ & _ & L & _).
  exact L.
Defined.

Lemma schedule_bounded_witness :
  exists a,
    calculateDebtStrategy [onlyDebt] 200 snowball = Returned a
    /\ (length (DebtAnalysis.paymentSchedule a) <= 600)%nat
    /\ Forall (fun p => (PaymentBreakdown.balance p <? 0) = false)
              (DebtAnalysis.paymentSchedule a)
    /\ Forall (fun p => (0 <=? PaymentBreakdown.balance p) = true)
              (DebtAnalysis.paymentSchedule a)
    /\ forall (i : nat) (p q : PaymentBreakdown.t float),
         nth_error (DebtAnalysis.paymentSchedule a) i = Some p ->
         nth_error (DebtAnalysis.paymentSchedule a) (S i) = Some q ->
         (PaymentBreakdown.balance q <=? PaymentBreakdown.balance p) = true.
Proof.
  destruct (Binary64.schedule_bounded snowball) as [T E].
  destruct (T float float_Number [onlyDebt] 200) as (a & R & L);
    [reflexivity|].
  destruct (E [onlyDebt] 200 a R) as [Hn Hm].
  exists a. split; [exact R|]. split; [exact L|]. split.
  - apply Hn. repeat constructor.
  - apply Hm. repeat constructor.
Defined.

Lemma balances_never_negative_witness :
  Forall (fun debt => (Debt.balance debt <? 0) = false)
         (st_debtCopies (Binary64.afterMonths 3 200 [onlyDebt])).
Proof.
  apply (@Binary64.balances_never_negative [onlyDebt] 200 3).
  repeat constructor.
Defined.

End Runs.

(** ** How the functions compose *)

Section Composition.

Context {F : Type} `{Number F}.

Lemma orderByPolicy_perm (policy : RepaymentStrategy)
  (debts : list (Debt.t F)) :
  Permutation (orderByPolicy policy debts) debts.
Proof.
  destruct policy; simpl; try apply sortBy_perm.
  unfold hybridOrder.
  rewrite <- (scoreDebts_scored debts) at 2.
  apply Permutation_map, sortBy_perm.
Qed.

(** No problem is reported exactly when no debt violates a check. *)
Lemma validateDebts_nil (debts : list (Debt.t F)) :
  validateDebts debts = []
  <-> Forall (fun debt => forall c, violated debt c = false) debts.
Proof.
  destruct (validateDebts_spec debts) as (_ & L & _).
  rewrite <- length_zero_iff_nil, L. clear L.
  induction debts as [|debt rest IH]; cbn [map list_sum].
  - split; auto.
  - rewrite Forall_cons_iff, <- IH.
    change (list_sum (?x :: ?l)) with (x + list_sum l)%nat.
    rewrite Nat.eq_add_0, length_zero_iff_nil.
    assert (E : filter (violated debt) checks = []
                <-> forall c, violated debt c = false).
    { split.
      - intros E c. destruct (violated debt c) eqn:V; auto.
        assert (Hin : In c (filter (violated debt) checks)).
        { apply filter_In. split; auto. unfold checks.
          destruct c; simpl; auto. }
        rewrite E in Hin. destruct Hin.
      - intro V. unfold checks. cbn [filter]. now rewrite !V. }
    tauto.
Qed.

(** *** Debts that the pass has settled *)

(* 0 is at or below the threshold, as it is on every carrier in use *)
Hypothesis zero_settled : (lit 0 <=? lit 0.01) = true.

Lemma processDebt_settles (i : nat) (debt : Debt.t F) (acc : @MonthAcc F) :
  let '(debt', acc') := processDebt i debt acc in
  Debt.id debt' = Debt.id debt
  /\ ((order acc' = order acc
       /\ (Debt.balance debt = lit 0 -> debt' = debt))
      \/ (order acc' = order acc ++ [Debt.id debt]
          /\ Debt.balance debt' = lit 0)).
Proof.
  unfold processDebt.
  destruct (Debt.balance debt <=? lit 0.01) eqn:Hskip.
  - split; auto.
  - match goal with
    | |- context [if ?c then _ else _] => destruct c
    end; simpl; split; auto.
    left. split; auto. intro Z. rewrite Z, zero_settled in Hskip.
    discriminate.
Qed.

Lemma forDebts_settles (debtCopies : list (Debt.t F)) :
  forall (i : nat) (acc : @MonthAcc F),
    NoDup (map (@Debt.id F) debtCopies) ->
    Forall (fun debt => In (Debt.id debt) (order acc) ->
                        Debt.balance debt = lit 0) debtCopies ->
    let '(copies', acc') := forDebts i debtCopies acc in
    map (@Debt.id F) copies' = map (@Debt.id F) debtCopies
    /\ (forall id, In id (order acc') ->
          In id (order acc) \/ In id (map (@Debt.id F) debtCopies))
    /\ Forall (fun debt => In (Debt.id debt) (order acc') ->
                           Debt.balance debt = lit 0) copies'.
Proof.
  induction debtCopies as [|debt rest IH]; intros i acc Hnd Hz; simpl.
  - repeat split; auto.
  - inversion Hnd as [|x xs Hfresh Hndr]; subst.
    inversion Hz as [|d ds Hd Hds]; subst.
    pose proof (processDebt_settles i debt acc) as P.
    destruct (processDebt i debt acc) as [debt' acc1].
    destruct P as [Hid P].
    assert (Hrest : Forall (fun debt => In (Debt.id debt) (order acc1) ->
                                        Debt.balance debt = lit 0) rest).
    { rewrite Forall_forall in *. intros d Hdin Ho.
      destruct P as [[E _] | [E _]]; rewrite E in Ho; auto.
      apply in_app_or in Ho as [Ho | [E' | []]]; auto.
      exfalso. apply Hfresh. rewrite E'. now apply in_map. }
    specialize (IH (S i) acc1 Hndr Hrest).
    destruct (forDebts (S i) rest acc1) as [rest' acc2].
    destruct IH as (Hids & Hnew & Hzero).
    split; [simpl; congruence|]. split.
    + intros id Ho. destruct (Hnew id Ho) as [Ho1 | Hr]; auto.
      destruct P as [[E _] | [E _]]; rewrite E in Ho1; auto.
      apply in_app_or in Ho1 as [Ho1 | [<- | []]]; auto.
    + constructor; auto. intro Ho.
      destruct P as [[E Hsame] | [_ Z]]; auto.
      rewrite Hid in Ho.
      destruct (Hnew _ Ho) as [Ho1 | Hr]; [|contradiction].
      rewrite E in Ho1. rewrite (Hsame (Hd Ho1)). auto.
Qed.

(* kept by the loop when the ids are pairwise distinct: a recorded debt has
   balance 0, and the last record carries the sum of the balances *)
Definition settledInvariant (sortedDebts : list (Debt.t F))
  (st : @LoopState F) : Prop :=
  map (@Debt.id F) (st_debtCopies st) = map (@Debt.id F) sortedDebts
  /\ Forall (fun debt => In (Debt.id debt) (st_debtOrder st) ->
                         Debt.balance debt = lit 0) (st_debtCopies st)
  /\ (st = initialState sortedDebts
      \/ exists earlier p,
           st_paymentSchedule st = earlier ++ [p]
           /\ PaymentBreakdown.balance p
              = sumOf (@Debt.balance F) (st_debtCopies st)).

Lemma settledInvariant_step (sortedDebts : list (Debt.t F))
  (availablePayment totalMinimums : F) (st : @LoopState F) :
  NoDup (map (@Debt.id F) sortedDebts) ->
  settledInvariant sortedDebts st ->
  settledInvariant sortedDebts (loopBody availablePayment totalMinimums st).
Proof.
  intros Hnd (Hids & Hz & _). unfold loopBody.
  pose proof (@forDebts_settles (st_debtCopies st) 0
    (mkAcc (lit 0) (lit 0) (availablePayment - totalMinimums)
           (st_debtOrder st))) as P.
  destruct (forDebts _ _ _) as [copies acc].
  destruct P as (Hids' & _ & Hz'); [now rewrite Hids | exact Hz |].
  split; [simpl; congruence|]. split; [exact Hz'|].
  right. simpl. eauto.
Qed.

End Composition.

Module Plans.

Open Scope Q_scope.

(* the sum of [f] over [arr], term by term *)
Fixpoint total {A} (f : A -> Q) (arr : list A) : Q :=
  match arr with
  | [] => 0
  | x :: rest => f x + total f rest
  end.

Lemma sumOf_from {A} (f : A -> Q) (arr : list A) :
  forall start,
    fold_left (fun sum x => (sum + f x)%js) arr start == start + total f arr.
Proof.
  induction arr as [|x rest IH]; intro start; simpl.
  - ring.
  - rewrite IH. simpl. ring.
Qed.

Lemma sumOf_total {A} (f : A -> Q) (arr : list A) :
  sumOf f arr == total f arr.
Proof. unfold sumOf. rewrite sumOf_from. simpl. ring. Qed.

Lemma total_perm {A} (f : A -> Q) (l l' : list A) :
  Permutation l l' -> total f l == total f l'.
Proof.
  induction 1 as [|x l l' _ IH|x y l|l l' l'' _ IH1 _ IH2]; simpl.
  - reflexivity.
  - now rewrite IH.
  - ring.
  - now rewrite IH1.
Qed.

(** The sum that a reduce computes does not depend on the order of the
    array. *)
Lemma sumOf_perm {A} (f : A -> Q) (l l' : list A) :
  Permutation l l' -> sumOf f l == sumOf f l'.
Proof.
  intro P. rewrite !sumOf_total. now apply total_perm.
Qed.

(* the policy's strategy function throws *)
Definition throws (policy : RepaymentStrategy) (debts : list (Debt.t Q))
  (availablePayment : Q) : Prop :=
  exists msg, strategyFunction policy debts availablePayment = Thrown msg.

Lemma throws_iff (policy : RepaymentStrategy) (debts : list (Debt.t Q))
  (availablePayment : Q) :
  throws policy debts availablePayment
  <-> availablePayment < sumOf (@Debt.minimumPayment Q) debts.
Proof.
  unfold throws. rewrite strategyFunction_unfold.
  rewrite <- (sumOf_perm (@Debt.minimumPayment Q)
                (orderByPolicy_perm policy debts)).
  rewrite <- Exact.gtb_true. split.
  - intros [msg E]. now apply calculateDebtStrategy_thrown in E.
  - intro E. exists insufficientPayment.
    now apply calculateDebtStrategy_thrown.
Qed.

Lemma returns_iff (policy : RepaymentStrategy) (debts : list (Debt.t Q))
  (availablePayment : Q) :
  (exists a, strategyFunction policy debts availablePayment = Returned a)
  <-> sumOf (@Debt.minimumPayment Q) debts <= availablePayment.
Proof.
  rewrite strategyFunction_unfold.
  rewrite <- (sumOf_perm (@Debt.minimumPayment Q)
                (orderByPolicy_perm policy debts)).
  rewrite <- Exact.gtb_false. split.
  - intros [a E]. now apply calculateDebtStrategy_returned in E.
  - intro E. destruct (returns_within_ceiling _ _ policy E) as (a & R & _).
    eauto.
Qed.

(** *** Failing is a matter of the budget, not of the policy *)

#[local] Set Warnings "-inexact-float".

(* three debts whose minimum payments 0.1, 0.2 and 0.3 sum to a different
   double in the order of their balances and in the order of their rates *)
Definition dime : Debt.t float :=
  Debt.mk "a" "Card a" 100%float 10%float 0.1%float 1%float credit_card.
Definition pair : Debt.t float :=
  Debt.mk "b" "Card b" 200%float 20%float 0.2%float 1%float credit_card.
Definition trio : Debt.t float :=
  Debt.mk "c" "Card c" 300%float 30%float 0.3%float 1%float credit_card.

(** X4. In exact arithmetic the three strategy functions throw for the
    same inputs: whether the budget is insufficient does not depend on the
    policy, the policies summing the same minimum payments in different
    orders.  In double arithmetic the order of summation matters, and two
    policies can disagree on the same debts and budget. *)
Theorem strategies_fail_together :
  (forall (p1 p2 : RepaymentStrategy) (debts : list (Debt.t Q))
          (availablePayment : Q),
      throws p1 debts availablePayment <-> throws p2 debts availablePayment)
  /\ exists msg a,
      calculateSnowballStrategy [dime; pair; trio] 0.6%float = Thrown msg
      /\ calculateAvalancheStrategy [dime; pair; trio] 0.6%float = Returned a.
Proof.
  split.
  - intros p1 p2 debts availablePayment. now rewrite !throws_iff.
  - eexists. eexists. split; vm_compute; reflexivity.
Qed.

#[local] Set Warnings "+inexact-float".

(** *** The order a policy gives *)

#[local] Set Warnings "-inexact-float".

(* three debts, on either carrier: 50000 owed at 1%, 20000 at 3% and 100 at
   4%; the blended scores of the first two are both 2.6 *)
Definition threeDebts {F} `{Number F} : list (Debt.t F) :=
  [Debt.mk "big" "Home loan" (lit 50000) (lit 1) (lit 500) (lit 1) mortgage;
   Debt.mk "mid" "Car loan" (lit 20000) (lit 3) (lit 300) (lit 1) auto_loan;
   Debt.mk "low" "Store card" (lit 100) (lit 4) (lit 25) (lit 1)
     credit_card].

(* the order the policies sort by, in exact arithmetic *)
Lemma sorted_by_exact_keys (debts : list (Debt.t Q)) :
  StronglySorted (fun a b => Debt.balance a <= Debt.balance b)
                 (snowballOrder debts)
  /\ StronglySorted (fun a b => Debt.interestRate b <= Debt.interestRate a)
                    (avalancheOrder debts)
  /\ StronglySorted (fun a b => blendedScore a <= blendedScore b)
                    (hybridOrder debts).
Proof.
  assert (Hok : Forall (fun _ : Debt.t Q => True) debts)
    by (apply Forall_forall; intros d _; exact I).
  destruct (@policies_sort Q _ Qle (fun _ => True)) with (debts := debts)
    as (S1 & S2 & S3).
  - intros x y z. apply Qle_trans.
  - intros x y _ _ E. apply Exact.gtb_true in E. simpl in E. lra.
  - intros x y _ _ E. apply Exact.gtb_false in E. simpl in E. lra.
  - auto.
Qed.

(** X1. In double arithmetic each policy hands the engine its debts sorted
    by the keys as doubles, when no key is NaN: snowball by ascending
    balance, avalanche by descending interest rate, hybrid by ascending
    blended score (a difference of doubles is above zero exactly when its
    first term is the larger).  In exact arithmetic the debts are sorted by
    the exact keys, and the two orders can differ: of the three debts above
    the first two have the same exact score 2.6 and keep their input order,
    while in double arithmetic the score of the second is rounded to less
    than the score of the first and the hybrid policy swaps them. *)
Theorem orders_are_sorted :
  (forall debts : list (Debt.t float),
      (Forall (fun debt => PrimFloat.is_nan (Debt.balance debt) = false)
              debts ->
       StronglySorted
         (fun a b => PrimFloat.leb (Debt.balance a) (Debt.balance b) = true)
         (snowballOrder debts))
      /\ (Forall (fun debt => PrimFloat.is_nan (Debt.interestRate debt)
                              = false) debts ->
          StronglySorted
            (fun a b => PrimFloat.leb (Debt.interestRate b)
                                      (Debt.interestRate a) = true)
            (avalancheOrder debts))
      /\ (Forall (fun debt => PrimFloat.is_nan (blendedScore debt) = false)
                 debts ->
          StronglySorted
            (fun a b => PrimFloat.leb (blendedScore a) (blendedScore b)
                        = true)
            (hybridOrder debts)))
  /\ (forall debts : list (Debt.t Q),
        StronglySorted (fun a b => Debt.balance a <= Debt.balance b)
                       (snowballOrder debts)
        /\ StronglySorted
             (fun a b => Debt.interestRate b <= Debt.interestRate a)
             (avalancheOrder debts)
        /\ StronglySorted (fun a b => blendedScore a <= blendedScore b)
                          (hybridOrder debts))
  /\ map (@Debt.id Q) (hybridOrder threeDebts)
     = ["low"; "big"; "mid"]%string
  /\ map (@Debt.id float) (hybridOrder threeDebts)
     = ["low"; "mid"; "big"]%string
  /\ (let scores := map (@blendedScore float _) threeDebts in
      PrimFloat.ltb (nth 1 scores 0%float) (nth 0 scores 0%float) = true).
Proof.
  split; [exact Binary64.policies_sort_doubles|].
  split; [exact sorted_by_exact_keys|].
  split; [vm_compute; reflexivity|].
  split; vm_compute; reflexivity.
Qed.

(** *** The recommended payment *)

Lemma mathMax_bounds (a b : Q) : a <= mathMax a b /\ b <= mathMax a b.
Proof.
  simpl. destruct (Qle_bool a b) eqn:E.
  - apply Qle_bool_iff in E. split; lra.
  - apply Exact.leb_false in E. split; lra.
Qed.

(* three debts whose minimum payments 120.3, 75.2 and 50.1 sum to
   245.59999999999999 in this order and to 245.60000000000002 in the order
   of their balances *)
Definition rent : Debt.t float :=
  Debt.mk "r" "Card r" 300%float 10%float 120.3%float 1%float credit_card.
Definition fuel : Debt.t float :=
  Debt.mk "f" "Card f" 200%float 20%float 75.2%float 1%float credit_card.
Definition food : Debt.t float :=
  Debt.mk "d" "Card d" 100%float 30%float 50.1%float 1%float credit_card.

(** X5. The payment [calculateDebtMetrics] recommends is the total of the
    minimum payments or 20% of the monthly income.  In double arithmetic,
    whatever the debts and the income, the engine run with that payment on
    the debts in the order the metrics summed them returns an analysis and
    does not throw; a strategy function, which sums the minimum payments in
    its own order, can still throw: snowball does for the three debts
    above and an income of 1000.  In exact arithmetic, where the order of a
    sum is immaterial, no strategy function throws with the recommended
    payment. *)
Theorem recommended_payment_suffices :
  (forall (debts : list (Debt.t float)) (monthlyIncome : float)
          (strategy : RepaymentStrategy),
      let m := calculateDebtMetrics debts monthlyIncome in
      (recommendedPayment m = totalMinimumPayments m
       \/ recommendedPayment m = (monthlyIncome * lit 0.2)%js)
      /\ exists a,
          calculateDebtStrategy debts (recommendedPayment m) strategy
          = Returned a)
  /\ (exists msg,
        calculateSnowballStrategy [rent; fuel; food]
          (recommendedPayment
             (calculateDebtMetrics [rent; fuel; food] 1000%float))
        = Thrown msg)
  /\ (forall (policy : RepaymentStrategy) (debts : list (Debt.t Q))
             (monthlyIncome : Q),
        exists a,
          strategyFunction policy debts
            (recommendedPayment (calculateDebtMetrics debts monthlyIncome))
          = Returned a).
Proof.
  split; [|split].
  - intros debts monthlyIncome strategy m. split.
    + unfold m. cbn [calculateDebtMetrics recommendedPayment
                     totalMinimumPayments].
      cbn [mathMax float_Number]. unfold Float.max.
      repeat match goal with
             | |- context [if ?c then _ else _] => destruct c
             end; auto.
    + destruct (returns_within_ceiling debts (recommendedPayment m) strategy)
        as (a & R & _); [|eauto].
      apply Binary64.max_not_below.
  - eexists. vm_compute. reflexivity.
  - intros policy debts monthlyIncome. apply returns_iff.
    apply mathMax_bounds.
Qed.

#[local] Set Warnings "+inexact-float".

(** *** Validated debts *)

(* the three amounts of a debt are numbers: not NaN, not an infinity *)
Definition numeric (debt : Debt.t float) : Prop :=
  Binary64.isFinite (Debt.balance debt) = true
  /\ Binary64.isFinite (Debt.interestRate debt) = true
  /\ Binary64.isFinite (Debt.minimumPayment debt) = true.

Lemma validated_covered (debt : Debt.t float) :
  numeric debt -> (forall c, violated debt c = false) ->
  Binary64.covered debt.
Proof.
  intros (Fb & Fr & Fm) V.
  pose proof (V BalancePositive) as Vb.
  pose proof (V RateInRange) as Vr.
  pose proof (V MinimumCoversInterest) as Vi.
  cbn [violated] in Vb, Vr, Vi.
  apply orb_false_iff in Vr as [Vr _].
  pose proof (Binary64.isFinite_is_nan Fb) as Nb.
  pose proof (Binary64.isFinite_is_nan Fr) as Nr.
  pose proof (Binary64.isFinite_is_nan Fm) as Nm.
  assert (Pb : PrimFloat.ltb 0 (Debt.balance debt) = true)
    by (apply Binary64.not_le_lt; auto).
  assert (Ar : Binary64.amount (Debt.interestRate debt))
    by (apply Binary64.notNegative_amount; auto).
  pose proof (Binary64.monthlyRate_amount Ar) as Am.
  pose proof (Binary64.mul_defined Fb Pb Am) as Ni.
  split; [now apply Binary64.lt_amount|]. split; [exact Ar|]. split.
  - apply Binary64.lt_le. apply Binary64.not_le_lt; auto.
  - now apply Binary64.isFinite_lt_infinity.
Qed.

#[local] Set Warnings "-inexact-float".

(* 7000 owed at 21%: the interest of a month, 122.5 exactly, is
   122.49999999999999 in double arithmetic *)
Definition stalled : Debt.t float :=
  Debt.mk "s" "Loan s" 7000%float 21%float 122.5%float 1%float personal_loan.

(** X6. In double arithmetic: when [validateDebts] reports no problem for
    debts whose balance, rate and minimum payment are numbers, every debt
    has a non-negative balance and rate and a finite minimum payment that
    covers the rounded monthly interest on its balance, and every analysis a
    strategy function returns for them has remaining balances that are
    non-negative numbers and never increase from one month to the next.
    They need not decrease: the debt above passes validation, its interest
    rounding to just below its minimum payment, and paid that minimum it
    still owes 7000 after the 600 months of the ceiling. *)
Theorem validated_debts_amortize :
  (forall (policy : RepaymentStrategy) (debts : list (Debt.t float))
          (availablePayment : float) (a : DebtAnalysis.t float),
      validateDebts debts = [] ->
      Forall numeric debts ->
      strategyFunction policy debts availablePayment = Returned a ->
      Forall Binary64.covered debts
      /\ Forall (fun p => PrimFloat.leb 0 (PaymentBreakdown.balance p) = true)
                (DebtAnalysis.paymentSchedule a)
      /\ forall (i : nat) (p q : PaymentBreakdown.t float),
           nth_error (DebtAnalysis.paymentSchedule a) i = Some p ->
           nth_error (DebtAnalysis.paymentSchedule a) (S i) = Some q ->
           PrimFloat.leb (PaymentBreakdown.balance q)
                         (PaymentBreakdown.balance p) = true)
  /\ (validateDebts [stalled] = []
      /\ numeric stalled
      /\ exists a p,
           calculateSnowballStrategy [stalled] 122.5%float = Returned a
           /\ DebtAnalysis.payoffTimeMonths a = 600%Z
           /\ nth_error (DebtAnalysis.paymentSchedule a) 599 = Some p
           /\ PaymentBreakdown.balance p = 7000%float).
Proof.
  split.
  - intros policy debts availablePayment a V Hn R.
    apply validateDebts_nil in V.
    assert (Hc : Forall Binary64.covered debts).
    { rewrite Forall_forall in *. intros d Hd.
      apply validated_covered; auto. }
    split; [exact Hc|].
    rewrite strategyFunction_unfold in R.
    destruct (@Binary64.schedule_of_covered _ _ _ _ R) as [Hs Hm]; [|split; auto].
    rewrite Forall_forall in *. intros d Hd. apply Hc.
    apply (Permutation_in _ (orderByPolicy_perm policy debts) Hd).
  - split; [vm_compute; reflexivity|].
    split; [repeat split; reflexivity|].
    eexists. eexists. split; [vm_compute; reflexivity|].
    split; [reflexivity|]. split; reflexivity.
Qed.

#[local] Set Warnings "+inexact-float".

(** *** What a month costs *)

Lemma processDebt_cost (i : nat) (debt : Debt.t Q) (acc : @MonthAcc Q) :
  0 <= extraPayment acc ->
  0 <= Debt.minimumPayment debt ->
  let '(debt', acc') := processDebt i debt acc in
  Debt.minimumPayment debt' = Debt.minimumPayment debt
  /\ 0 <= extraPayment acc'
  /\ monthlyPrincipal acc' + monthlyInterest acc' + extraPayment acc'
     <= monthlyPrincipal acc + monthlyInterest acc + extraPayment acc
        + Debt.minimumPayment debt.
Proof.
  intros He Hm. unfold processDebt.
  destruct (Debt.balance debt <=? lit 0.01)%js.
  { split; [reflexivity|]. split; [exact He|]. lra. }
  match goal with
  | |- context [mathMin (?p - ?i)%js ?b] =>
      destruct (Exact.principal_bounds p i b) as [_ _];
      assert (Hp : mathMin (p - i)%js b <= p - i)
        by (destruct (Exact.mathMin_spec (p - i)%js b)
              as [[_ ->] | [L ->]]; simpl in *; lra);
      generalize dependent (mathMin (p - i)%js b)
  end.
  intros principal Hp.
  destruct ((extraPayment acc >? lit 0)%js && (i =? 0)%nat)%bool;
    destruct ((_ <=? _)%js && negb _)%bool; simpl in *;
    (split; [reflexivity|]; split; lra).
Qed.

Lemma forDebts_cost (debtCopies : list (Debt.t Q)) :
  forall (i : nat) (acc : @MonthAcc Q),
    0 <= extraPayment acc ->
    Forall (fun debt => 0 <= Debt.minimumPayment debt) debtCopies ->
    let '(copies', acc') := forDebts i debtCopies acc in
    map (@Debt.minimumPayment Q) copies'
    = map (@Debt.minimumPayment Q) debtCopies
    /\ 0 <= extraPayment acc'
    /\ monthlyPrincipal acc' + monthlyInterest acc' + extraPayment acc'
       <= monthlyPrincipal acc + monthlyInterest acc + extraPayment acc
          + total (@Debt.minimumPayment Q) debtCopies.
Proof.
  induction debtCopies as [|debt rest IH]; intros i acc He Hm; simpl.
  - split; [reflexivity|]. split; [exact He|]. lra.
  - inversion Hm as [|d ds Hd Hds]; subst.
    pose proof (@processDebt_cost i debt acc He Hd) as P.
    destruct (processDebt i debt acc) as [debt' acc1].
    destruct P as (M1 & E1 & C1).
    specialize (IH (S i) acc1 E1 Hds).
    destruct (forDebts (S i) rest acc1) as [rest' acc2].
    destruct IH as (M2 & E2 & C2).
    split; [simpl; congruence|]. split; [exact E2|]. lra.
Qed.

Lemma total_map_eq {A} (f : A -> Q) (l l' : list A) :
  map f l = map f l' -> total f l = total f l'.
Proof.
  revert l'; induction l as [|x l IH]; intros [|y l'] E; simpl in *;
    try discriminate; auto.
  inversion E. f_equal; auto.
Qed.

(* kept by the loop when the minimum payments are non-negative *)
Definition withinBudget (sortedDebts : list (Debt.t Q))
  (availablePayment : Q) (st : @LoopState Q) : Prop :=
  map (@Debt.minimumPayment Q) (st_debtCopies st)
  = map (@Debt.minimumPayment Q) sortedDebts
  /\ Forall (fun p => PaymentBreakdown.totalPayment p <= availablePayment)
            (st_paymentSchedule st).

Lemma withinBudget_step (sortedDebts : list (Debt.t Q))
  (availablePayment : Q) (st : @LoopState Q) :
  sumOf (@Debt.minimumPayment Q) sortedDebts <= availablePayment ->
  Forall (fun debt => 0 <= Debt.minimumPayment debt) sortedDebts ->
  withinBudget sortedDebts availablePayment st ->
  withinBudget sortedDebts availablePayment
    (loopBody availablePayment (sumOf (@Debt.minimumPayment Q) sortedDebts)
              st).
Proof.
  intros Hb Hm [Hmins Hs]. unfold loopBody.
  assert (Hcopies : Forall (fun debt => 0 <= Debt.minimumPayment debt)
                           (st_debtCopies st)).
  { clear -Hm Hmins. revert Hmins Hm. generalize (st_debtCopies st).
    induction sortedDebts as [|d ds IH]; intros [|c cs] E Hm;
      simpl in *; try discriminate; auto.
    inversion E. inversion Hm; subst. constructor; [congruence | auto]. }
  pose proof (@forDebts_cost (st_debtCopies st) 0
    (mkAcc (lit 0) (lit 0)
       (availablePayment - sumOf (@Debt.minimumPayment Q) sortedDebts)%js
       (st_debtOrder st))) as P.
  destruct (forDebts _ _ _) as [copies acc].
  destruct P as (M & E & C); [simpl; lra | exact Hcopies |].
  split; simpl.
  - congruence.
  - apply Forall_app; split; auto. constructor; auto. simpl.
    rewrite (total_map_eq _ _ _ Hmins) in C.
    rewrite <- sumOf_total in C. simpl in C. lra.
Qed.

(** X7. In exact arithmetic, when no minimum payment is negative, the
    total payment of every month of a returned analysis (principal plus
    interest over all debts) is at most the monthly budget.  In double
    arithmetic it can exceed the budget by a rounding error: for the two
    debts of the worked example (500 at 20% with minimum 50, 5000 at 10%
    with minimum 100) and a budget of 200 under avalanche, the total payment
    of month 3 is 200.00000000000003. *)
Theorem monthly_payment_within_budget :
  (forall (policy : RepaymentStrategy) (debts : list (Debt.t Q))
          (availablePayment : Q) (a : DebtAnalysis.t Q),
      strategyFunction policy debts availablePayment = Returned a ->
      Forall (fun debt => 0 <= Debt.minimumPayment debt) debts ->
      Forall (fun p => PaymentBreakdown.totalPayment p <= availablePayment)
             (DebtAnalysis.paymentSchedule a))
  /\ exists a p,
       calculateAvalancheStrategy [Runs.exampleB; Runs.exampleA] 200%float
       = Returned a
       /\ nth_error (DebtAnalysis.paymentSchedule a) 2 = Some p
       /\ PrimFloat.ltb 200 (PaymentBreakdown.totalPayment p) = true.
Proof.
  split.
  - intros policy debts availablePayment a R Hm.
    rewrite strategyFunction_unfold in R.
    assert (Hs : Forall (fun debt => 0 <= Debt.minimumPayment debt)
                        (orderByPolicy policy debts)).
    { rewrite Forall_forall in *. intros d Hd. apply Hm.
      apply (Permutation_in _ (orderByPolicy_perm policy debts) Hd). }
    apply calculateDebtStrategy_returned in R as (Hb & st & W & ->).
    apply Exact.budget_nonneg_extra in Hb. simpl.
    apply while_invariant
      with (P := withinBudget (orderByPolicy policy debts) availablePayment)
      in W as [[_ Hp] _]; auto.
    + intros s Ps _. now apply withinBudget_step.
    + split; simpl; auto.
  - eexists. eexists. split; [vm_compute; reflexivity|].
    split; reflexivity.
Qed.

(** *** Plans that end before the ceiling *)

(** X8. In double arithmetic, for a non-empty list of debts with pairwise
    distinct ids that all start above the 0.01 threshold, each with a
    non-negative balance and rate and a finite minimum payment that covers
    the monthly interest on its balance: when a returned plan is shorter
    than the 600-month ceiling, every debt has been paid off. The payoff
    order is a permutation of the input ids, the schedule is not empty and
    the balance of its last record is 0. *)
Theorem early_finish_is_full_payoff (policy : RepaymentStrategy)
  (debts : list (Debt.t float)) (availablePayment : float)
  (a : DebtAnalysis.t float) :
  strategyFunction policy debts availablePayment = Returned a ->
  debts <> [] ->
  NoDup (map (@Debt.id float) debts) ->
  Forall Binary64.covered debts ->
  Forall (fun debt => (Debt.balance debt >? lit 0.01)%js = true) debts ->
  (DebtAnalysis.payoffTimeMonths a < 600)%Z ->
  Permutation (DebtAnalysis.debtOrder a) (map (@Debt.id float) debts)
  /\ exists earlier p,
       DebtAnalysis.paymentSchedule a = earlier ++ [p]
       /\ PaymentBreakdown.balance p = 0%float.
Proof.
  intros R Hne Hnd Hcov Hab Hm. rewrite strategyFunction_unfold in R.
  pose proof (orderByPolicy_perm policy debts) as Perm.
  set (sortedDebts := orderByPolicy policy debts) in *.
  assert (Hnds : NoDup (map (@Debt.id float) sortedDebts)).
  { apply Permutation_NoDup with (2 := Hnd).
    apply Permutation_map, Permutation_sym, Perm. }
  assert (Hos : Forall owing sortedDebts).
  { rewrite Forall_forall in *. intros d Hd.
    apply Binary64.lt_not_le, Hab, (Permutation_in _ Perm Hd). }
  assert (Hcs : Forall Binary64.covered sortedDebts).
  { rewrite Forall_forall in *. intros d Hd.
    apply Hcov, (Permutation_in _ Perm Hd). }
  assert (Hnes : sortedDebts <> []).
  { intro E. rewrite E in Perm. apply Permutation_nil in Perm. auto. }
  assert (Z : (lit 0 <=? lit 0.01)%js = true) by reflexivity.
  apply calculateDebtStrategy_returned in R as (_ & st & W & ->).
  cbn [DebtAnalysis.payoffTimeMonths DebtAnalysis.debtOrder
       DebtAnalysis.paymentSchedule] in *.
  apply while_invariant
    with (P := fun s => orderInvariant sortedDebts s
                        /\ settledInvariant sortedDebts s
                        /\ Binary64.coveredInvariant s)
    in W as [[Hord [(Hids & Hz & Hlast) (Hcf & _)]] Hc].
  2:{ intros s (Po & Ps & Pc) _. split; [|split].
      - now apply orderInvariant_step.
      - now apply settledInvariant_step.
      - now apply Binary64.coveredInvariant_step. }
  2:{ split; [apply orderInvariant_initial|]. split.
      - split; [reflexivity|]. split; [|now left].
        simpl. apply Forall_forall. intros d _ [].
      - split; [exact Hcs|]. split; [constructor|]. split; [constructor|].
        intros i p q Hp. destruct i; discriminate. }
  unfold loopCond in Hc. apply andb_false_iff in Hc as [Hc | Hc].
  2:{ apply Z.leb_gt in Hc. lia. }
  assert (Hp : Forall paidOff (st_debtCopies st)).
  { apply Forall_forall. intros d Hd.
    rewrite Forall_forall in Hcf. destruct (Hcf d Hd) as (Ab & _).
    apply Binary64.not_lt_le.
    - now apply Binary64.amount_is_nan.
    - reflexivity.
    - change ((Debt.balance d >? lit 0.01)%js = false).
      destruct (Debt.balance d >? lit 0.01)%js eqn:E; auto.
      rewrite <- Hc. symmetry. apply existsb_exists. eauto. }
  pose proof (paid_order_complete Hord Hnds Hos Hp) as Pfin.
  split.
  - rewrite Pfin. apply Permutation_map, Perm.
  - destruct Hlast as [-> | (earlier & p & Hs & Hb)].
    + exfalso. simpl in Hp. destruct sortedDebts as [|d ds]; [auto|].
      inversion Hp as [|x xs Hpd _]; inversion Hos as [|y ys Hod _]; subst.
      unfold paidOff, owing in *. congruence.
    + exists earlier, p. split; auto.
      rewrite Hb. apply Binary64.sumOf_zero.
      rewrite Forall_forall in *. intros d Hd. apply Hz; auto.
      apply (Permutation_in _ (Permutation_sym Pfin)).
      rewrite <- Hids. now apply in_map.
Qed.

End Plans.

(** * The rate limiter of the recommendation service *)

Module GeminiService.

Open Scope Z_scope.

(* the two mutable fields of the service that [checkRateLimit] touches *)
Record t : Type := mk {
  requestCount : Z;
  lastRequestTime : Z
}.

Definition maxRequestsPerMinute : Z := 10.
Definition requestInterval : Z := 60000.

(* the fields of a freshly constructed service *)
Definition initial : t := mk 0 0.

(* [currentTime] is the value Date.now() returns for this call; the result
   is the returned boolean and the fields after the call *)
Definition checkRateLimit (currentTime : Z) (this : t) : bool * t :=
  let this :=
    if currentTime - lastRequestTime this >? requestInterval
    then mk 0 (lastRequestTime this)
    else this in
  if requestCount this >=? maxRequestsPerMinute then (false, this)
  else (true, mk (requestCount this + 1) currentTime).

(* successive calls at the given clock readings; the log lists the
   readings of the calls that were let through, latest first *)
Fixpoint serve (times : list Z) (this : t) (log : list Z) : t * list Z :=
  match times with
  | [] => (this, log)
  | currentTime :: later =>
      let '(allowed, this) := checkRateLimit currentTime this in
      serve later this (if allowed then currentTime :: log else log)
  end.

Definition allowedCalls (times : list Z) : list Z :=
  snd (serve times initial []).

(* the entries of a log that fall in the minute starting at [from] *)
Definition within (from : Z) (log : list Z) : list Z :=
  filter (fun x => (from <=? x) && (x <=? from + requestInterval)) log.

(* what the fields say about the calls let through so far: the last
   [requestCount] of them are the current batch, every earlier one is more
   than a minute older than each call of the batch *)
Definition batched (this : t) (log : list Z) : Prop :=
  exists batch earlier,
    log = batch ++ earlier
    /\ Z.of_nat (length batch) = requestCount this
    /\ requestCount this <= maxRequestsPerMinute
    /\ (batch = [] -> earlier = [])
    /\ (forall x, In x log -> x <= lastRequestTime this)
    /\ (forall x y, In x earlier -> In y batch -> x + requestInterval < y)
    /\ (forall from,
          (length (within from log) <= Z.to_nat maxRequestsPerMinute)%nat).

Lemma within_none (from : Z) (log : list Z) :
  (forall x, In x log -> x < from) -> within from log = [].
Proof.
  intro Hold. induction log as [|x log IH]; simpl; auto.
  assert (Hx : x < from) by (apply Hold; simpl; auto).
  apply Z.leb_gt in Hx. rewrite Hx. simpl.
  apply IH. intros y Hy. apply Hold. simpl; auto.
Qed.

Lemma within_length (from : Z) (log : list Z) :
  (length (within from log) <= length log)%nat.
Proof. apply filter_length_le. Qed.

Lemma batched_initial : batched initial [].
Proof.
  exists [], []. unfold maxRequestsPerMinute. simpl.
  repeat split; auto; try lia; try (intros x []).
Qed.

Lemma checkRateLimit_batched (currentTime : Z) (this : t) (log : list Z) :
  batched this log ->
  (forall x, In x log -> x <= currentTime) ->
  let '(allowed, this') := checkRateLimit currentTime this in
  batched this' (if allowed then currentTime :: log else log).
Proof.
  intros (batch & earlier & Hlog & Hlen & Hmax & Hfirst & Hlast & Hgap & Hwin)
         Hclock.
  unfold checkRateLimit.
  destruct (currentTime - lastRequestTime this >? requestInterval) eqn:Hreset.
  - (* a minute has passed since the last call let through *)
    apply Z.gtb_lt in Hreset.
    change (requestCount (mk 0 (lastRequestTime this)) >=? maxRequestsPerMinute)
      with false. cbv iota.
    exists [currentTime], log. simpl.
    split; [reflexivity|]. split; [reflexivity|].
    split; [unfold maxRequestsPerMinute; lia|].
    split; [discriminate|]. split; [|split].
    + intros x [<- | Hx]; [lia | auto].
    + intros x y Hx [<- | []]. specialize (Hlast x Hx). lia.
    + intro from. unfold within in *. simpl.
      destruct ((from <=? currentTime)
                && (currentTime <=? from + requestInterval)) eqn:Hin.
      * apply andb_true_iff in Hin as [_ Hin]. apply Z.leb_le in Hin.
        fold (within from log). rewrite within_none; [simpl; lia|].
        intros x Hx. specialize (Hlast x Hx). lia.
      * apply Hwin.
  - rewrite Z.gtb_ltb in Hreset. apply Z.ltb_ge in Hreset.
    destruct (requestCount this >=? maxRequestsPerMinute) eqn:Hfull.
    + (* refused: nothing changes *)
      exists batch, earlier. auto 10.
    + rewrite Z.geb_leb in Hfull. apply Z.leb_gt in Hfull.
      exists (currentTime :: batch), earlier. simpl length. simpl app.
      cbn [requestCount lastRequestTime].
      split; [now rewrite Hlog|]. split; [lia|]. split; [lia|].
      split; [discriminate|]. split; [|split].
      * intros x [<- | Hx]; [lia | auto].
      * intros x y Hx [<- | Hy]; auto.
        destruct batch as [|z batch]; [now rewrite Hfirst in Hx|].
        specialize (Hgap x z Hx (or_introl eq_refl)).
        assert (z <= currentTime)
          by (apply Hclock; rewrite Hlog; simpl; auto).
        lia.
      * intro from. unfold within in *. simpl.
        destruct ((from <=? currentTime)
                  && (currentTime <=? from + requestInterval)) eqn:Hin;
          [|apply Hwin].
        apply andb_true_iff in Hin as [_ Hin]. apply Z.leb_le in Hin.
        fold (within from log). rewrite Hlog. unfold within.
        rewrite filter_app. fold (within from batch) (within from earlier).
        rewrite (@within_none from earlier).
        -- rewrite app_nil_r. simpl.
           pose proof (within_length from batch).
           unfold maxRequestsPerMinute in *. lia.
        -- intros x Hx.
           destruct batch as [|z batch]; [now rewrite Hfirst in Hx|].
           specialize (Hgap x z Hx (or_introl eq_refl)).
           assert (z <= currentTime)
             by (apply Hclock; rewrite Hlog; simpl; auto).
           lia.
Qed.

Lemma serve_batched (times : list Z) :
  forall (this : t) (log : list Z),
    StronglySorted Z.le times ->
    batched this log ->
    (forall x t, In x log -> In t times -> x <= t) ->
    batched (fst (serve times this log)) (snd (serve times this log)).
Proof.
  induction times as [|currentTime later IH]; intros this log Hs Hb Hclock;
    simpl; auto.
  inversion Hs as [|t ts Hlater Hnow]; subst.
  pose proof (@checkRateLimit_batched currentTime this log Hb) as P.
  destruct (checkRateLimit currentTime this) as [allowed this'].
  apply IH; auto.
  - apply P. intros x Hx. apply Hclock; simpl; auto.
  - intros x t Hx Ht. rewrite Forall_forall in Hnow.
    destruct allowed; [destruct Hx as [<- | Hx]|]; auto;
      apply Hclock; simpl; auto.
Qed.

(** X9. When the clock never runs backwards, the rate limiter of a freshly
    constructed service lets through at most 10 calls in any interval of
    60000 ms, whatever the times of the calls are; a call it refuses
    leaves its fields as they were, so a call that comes more than 60000 ms
    after the last one let through is always let through. *)
Theorem at_most_ten_calls_a_minute :
  (forall (times : list Z) (from : Z),
     StronglySorted Z.le times ->
     (length (within from (allowedCalls times)) <= 10)%nat)
  /\ (forall (currentTime : Z) (this this' : t),
        checkRateLimit currentTime this = (false, this') -> this' = this)
  /\ (forall (currentTime : Z) (this : t),
        lastRequestTime this + 60000 < currentTime ->
        fst (checkRateLimit currentTime this) = true).
Proof.
  split; [|split].
  - intros times from Hs.
    destruct (@serve_batched times initial [] Hs batched_initial)
      as (_ & _ & _ & _ & _ & _ & _ & _ & Hwin).
    + intros x t [].
    + apply Hwin.
  - intros currentTime this this'. unfold checkRateLimit.
    destruct (currentTime - lastRequestTime this >? requestInterval).
    + change (requestCount (mk 0 (lastRequestTime this))
              >=? maxRequestsPerMinute) with false.
      discriminate.
    + destruct (requestCount this >=? maxRequestsPerMinute);
        congruence.
  - intros currentTime this Hlate. unfold checkRateLimit.
    replace (currentTime - lastRequestTime this >? requestInterval)
      with true by (symmetry; apply Z.gtb_lt; unfold requestInterval; lia).
    reflexivity.
Qed.

End GeminiService.

(** * The payment schedule of a single debt *)

Module Amortization.

Section Generic.

Context {F : Type} `{Number F}.

(* the variables of [generatePaymentSchedule] that its loop assigns *)
Record Vars : Type := mkVars {
  remainingBalance : F;
  month : Z;
  schedule : list (PaymentBreakdown.t F)
}.

Definition scheduleCond (v : Vars) : bool :=
  (remainingBalance v >? lit 0.01) && (month v <=? 600)%Z.

Definition scheduleBody (monthlyPayment monthlyRate : F) (v : Vars) : Vars :=
  let interestPayment := remainingBalance v * monthlyRate in
  let principalPayment :=
    mathMin (monthlyPayment - interestPayment) (remainingBalance v) in
  (* Ensure we don't go negative *)
  let actualPayment :=
    mathMin monthlyPayment (remainingBalance v + interestPayment) in
  let actualPrincipal := actualPayment - interestPayment in
  let remainingBalance' := remainingBalance v - actualPrincipal in
  mkVars remainingBalance' (month v + 1)%Z
    (schedule v ++
     [PaymentBreakdown.mk (month v) actualPrincipal interestPayment
        (mathMax (lit 0) remainingBalance') actualPayment]).

Definition scheduleStart (debt : Debt.t F) : Vars :=
  mkVars (Debt.balance debt) 1%Z [].

(* [None] when the loop is still running after [fuel] iterations *)
Definition generatePaymentScheduleFuel (fuel : nat) (debt : Debt.t F)
  (monthlyPayment : F) : option (list (PaymentBreakdown.t F)) :=
  let monthlyRate := calculateMonthlyRate (Debt.interestRate debt) in
  option_map schedule
    (while fuel scheduleCond (scheduleBody monthlyPayment monthlyRate)
           (scheduleStart debt)).

Definition generatePaymentSchedule (debt : Debt.t F) (monthlyPayment : F)
  : option (list (PaymentBreakdown.t F)) :=
  generatePaymentScheduleFuel 600 debt monthlyPayment.

(* the records so far are numbered from 1 and the counter is one ahead *)
Definition counted (v : Vars) : Prop :=
  (1 <= month v)%Z
  /\ Z.of_nat (length (schedule v)) = (month v - 1)%Z
  /\ forall (i : nat) (p : PaymentBreakdown.t F),
       nth_error (schedule v) i = Some p ->
       PaymentBreakdown.month p = (Z.of_nat i + 1)%Z.

Lemma counted_step (monthlyPayment monthlyRate : F) (v : Vars) :
  counted v -> counted (scheduleBody monthlyPayment monthlyRate v).
Proof.
  intros (H1 & Hl & Hn). unfold scheduleBody, counted. simpl.
  rewrite length_app. simpl. split; [lia|]. split; [lia|].
  intros i p Hp.
  destruct (Nat.lt_ge_cases i (length (schedule v))) as [Hi | Hi].
  - rewrite nth_error_app1 in Hp by exact Hi. auto.
  - rewrite nth_error_app2 in Hp by exact Hi.
    destruct (i - length (schedule v))%nat as [|k] eqn:E.
    + inversion Hp; subst p; simpl. lia.
    + destruct k; discriminate.
Qed.

Lemma schedule_terminates (monthlyPayment monthlyRate : F)
  (debt : Debt.t F) (extra : nat) :
  exists v,
    while (600 + extra) scheduleCond (scheduleBody monthlyPayment monthlyRate)
          (scheduleStart debt) = Some v.
Proof.
  apply while_terminates
    with (measure := fun v => Z.to_nat (601 - month v)).
  - intros v Hc. unfold scheduleCond in Hc.
    apply andb_true_iff in Hc as [_ Hc]. apply Z.leb_le in Hc.
    unfold scheduleBody. cbn [month]. lia.
  - unfold scheduleStart. cbn [month]. lia.
Qed.

(** X10. [generatePaymentSchedule] always returns, in any arithmetic and
    for any debt and payment, also one that never covers the interest: the
    fuel of the model is never used up and more of it gives the same
    schedule. The schedule has at most 600 records, numbered 1, 2, 3, ...,
    and is empty exactly when the balance of the debt is not above 0.01. *)
Theorem payment_schedule_shape (debt : Debt.t F) (monthlyPayment : F) :
  exists records,
    generatePaymentSchedule debt monthlyPayment = Some records
    /\ (forall extra,
          generatePaymentScheduleFuel (600 + extra) debt monthlyPayment
          = Some records)
    /\ (length records <= 600)%nat
    /\ (forall (i : nat) (p : PaymentBreakdown.t F),
          nth_error records i = Some p ->
          PaymentBreakdown.month p = (Z.of_nat i + 1)%Z)
    /\ (records = [] <-> (Debt.balance debt >? lit 0.01) = false).
Proof.
  unfold generatePaymentSchedule, generatePaymentScheduleFuel.
  set (body := scheduleBody monthlyPayment
                 (calculateMonthlyRate (Debt.interestRate debt))).
  destruct (schedule_terminates monthlyPayment
              (calculateMonthlyRate (Debt.interestRate debt)) debt 0)
    as [v W].
  fold body in W. rewrite Nat.add_0_r in W.
  exists (schedule v). rewrite W. split; [reflexivity|].
  split; [intro extra; now rewrite (while_more_fuel _ _ _ _ extra W)|].
  pose proof W as W'.
  apply while_invariant
    with (P := fun s => counted s
                 /\ (s = scheduleStart debt \/ (2 <= month s)%Z
                     /\ (Debt.balance debt >? lit 0.01) = true)
                 /\ (month s <= 601)%Z)
    in W' as [((H1 & Hl & Hn) & Hfirst & Hm) Hc].
  - split; [lia|]. split; [exact Hn|].
    destruct Hfirst as [-> | [Hfirst Hb]].
    + clear W. simpl in *. split; auto. intros _.
      unfold scheduleCond in Hc. simpl in Hc.
      now rewrite andb_true_r in Hc.
    + split; [|congruence]. intro E. rewrite E in Hl. simpl in Hl. lia.
  - intros s (Cs & Hfirst & _) Hc. split; [now apply counted_step|].
    unfold scheduleCond in Hc. apply andb_true_iff in Hc as [Hb Hc].
    apply Z.leb_le in Hc. destruct Cs as (H1 & _).
    split; [|simpl; lia]. right. split; [simpl; lia|].
    destruct Hfirst as [-> | [_ Hfirst]]; auto.
  - split; [|split; [now left | simpl; lia]].
    split; [simpl; lia|]. split; [reflexivity|].
    intros i p Hp. destruct i; discriminate.
Qed.

(* the balance after the last record, the initial balance when there is none *)
Definition lastBalance (start : F) (records : list (PaymentBreakdown.t F))
  : F :=
  last (map (@PaymentBreakdown.balance F) records) start.

Lemma lastBalance_snoc (start : F) (records : list (PaymentBreakdown.t F))
  (r : PaymentBreakdown.t F) :
  lastBalance start (records ++ [r]) = PaymentBreakdown.balance r.
Proof.
  unfold lastBalance. rewrite map_app. simpl. apply last_last.
Qed.

Lemma lastBalance_cons (start : F) (p : PaymentBreakdown.t F)
  (later : list (PaymentBreakdown.t F)) :
  lastBalance start (p :: later)
  = lastBalance (PaymentBreakdown.balance p) later.
Proof.
  unfold lastBalance. simpl map.
  generalize (PaymentBreakdown.balance p)
             (map (@PaymentBreakdown.balance F) later).
  intros x l. revert x start.
  induction l as [|y l IH]; intros x d; [reflexivity|].
  change (last (x :: y :: l) d) with (last (y :: l) d).
  now rewrite (IH y d), (IH y x).
Qed.

(* the balance the last record shows is the one the loop holds, floored *)
Definition shown (debt : Debt.t F) (v : Vars) : Prop :=
  (schedule v = [] /\ remainingBalance v = Debt.balance debt)
  \/ exists earlier p,
       schedule v = earlier ++ [p]
       /\ PaymentBreakdown.balance p = mathMax (lit 0) (remainingBalance v).

Lemma shown_step (debt : Debt.t F) (monthlyPayment monthlyRate : F)
  (v : Vars) :
  shown debt (scheduleBody monthlyPayment monthlyRate v).
Proof. right. unfold scheduleBody. cbn [schedule remainingBalance]. eauto. Qed.

(* the number of records when the loop exits early *)
Lemma schedule_ends_early (debt : Debt.t F) (monthlyPayment : F)
  (v : Vars) :
  while 600 scheduleCond
    (scheduleBody monthlyPayment
       (calculateMonthlyRate (Debt.interestRate debt)))
    (scheduleStart debt) = Some v ->
  (length (schedule v) < 600)%nat ->
  (remainingBalance v >? lit 0.01) = false /\ shown debt v.
Proof.
  intros W Hlen.
  apply while_invariant with (P := fun s => counted s /\ shown debt s) in W
    as [[(_ & Hcount & _) Hs] Hcond].
  - split; [|exact Hs]. unfold scheduleCond in Hcond.
    apply andb_false_iff in Hcond as [Hcond | Hcond]; auto.
    apply Z.leb_gt in Hcond. lia.
  - intros s [Cs _] _. split; [now apply counted_step | apply shown_step].
  - split.
    + split; [simpl; lia|]. split; [reflexivity|].
      intros i p Hp. destruct i; discriminate.
    + left. split; reflexivity.
Qed.

End Generic.

(** ** In double arithmetic *)

Section Doubles.

Open Scope float_scope.

(* Math.min is never above its first argument as the program would test it *)
Lemma min_not_above (a b : float) : (a <? Float.min a b) = false.
Proof.
  assert (Irr : forall x, (x <? x) = false).
  { intro x. destruct (x <? x) eqn:E; auto.
    now rewrite (Binary64.lt_asym E) in E. }
  unfold Float.min.
  destruct (is_nan a) eqn:Na; [apply Irr|].
  destruct (is_nan b) eqn:Nb.
  { rewrite ltb_spec. unfold SFltb.
    assert (E : Prim2SF b = S754_nan).
    { destruct (Prim2SF b) eqn:Eb; auto;
        assert (N : is_nan b = false)
          by (apply Binary64.is_nan_SF; rewrite Eb; discriminate);
        congruence. }
    rewrite E. now destruct (Prim2SF a). }
  destruct (a <? b) eqn:L1; [apply Irr|].
  destruct (b <? a) eqn:L2; [exact L1|].
  destruct (get_sign a); auto.
Qed.

(* the floor of a balance that is not above the threshold is not above it *)
Lemma floor_settled (b : float) :
  (b >? lit 0.01%Q)%js = false ->
  (mathMax (lit 0%Q) b >? lit 0.01%Q)%js = false.
Proof.
  intro Hb. cbn [mathMax float_Number]. unfold Float.max.
  change (is_nan (lit 0%Q)) with false. cbn iota.
  destruct (is_nan b); [exact Hb|].
  destruct (lit 0%Q <? b); [exact Hb|].
  destruct (b <? lit 0%Q); [reflexivity|].
  change (get_sign (lit 0%Q)) with false. reflexivity.
Qed.

(* what a record of the schedule satisfies for a monthly payment *)
Definition settled (monthlyPayment : float) (p : PaymentBreakdown.t float)
  : Prop :=
  (monthlyPayment <? PaymentBreakdown.totalPayment p) = false
  /\ (PaymentBreakdown.balance p <? 0) = false.

Lemma settled_step (monthlyPayment monthlyRate : float)
  (v : @Vars float) :
  Forall (settled monthlyPayment) (schedule v) ->
  Forall (settled monthlyPayment)
         (schedule (scheduleBody monthlyPayment monthlyRate v)).
Proof.
  intro Hs. unfold scheduleBody. cbn [schedule].
  apply Forall_app; split; auto. constructor; auto.
  split; cbn [PaymentBreakdown.totalPayment PaymentBreakdown.balance].
  - apply min_not_above.
  - apply (Binary64.max_not_below 0).
Qed.

End Doubles.

#[local] Set Warnings "-inexact-float".

(* 3500 owed at 15.24%, paid 99.99 a month *)
Definition revolving : Debt.t float :=
  Debt.mk "v" "Card v" 3500%float 15.24%float 99.99%float 1%float
    credit_card.

(** ** In exact arithmetic *)

Open Scope Q_scope.

(* each record's balance is the balance before it less its principal *)
Fixpoint conserved (start : Q) (records : list (PaymentBreakdown.t Q)) : Prop :=
  match records with
  | [] => True
  | p :: later =>
      PaymentBreakdown.balance p == start - PaymentBreakdown.principal p
      /\ conserved (PaymentBreakdown.balance p) later
  end.

Lemma conserved_snoc (records : list (PaymentBreakdown.t Q))
  (r : PaymentBreakdown.t Q) :
  forall start,
    conserved start records ->
    PaymentBreakdown.balance r
    == lastBalance start records - PaymentBreakdown.principal r ->
    conserved start (records ++ [r]).
Proof.
  induction records as [|p later IH]; intros start Hc Hr; simpl in *.
  - split; auto.
  - destruct Hc as [Hp Hc]. split; auto. apply IH; auto.
    now rewrite <- lastBalance_cons with (start := start).
Qed.

(* what a record of the schedule satisfies for a monthly payment *)
Definition settles (monthlyPayment : Q) (p : PaymentBreakdown.t Q) : Prop :=
  PaymentBreakdown.totalPayment p <= monthlyPayment
  /\ PaymentBreakdown.totalPayment p
     == PaymentBreakdown.principal p + PaymentBreakdown.interest p
  /\ 0 <= PaymentBreakdown.balance p.

Definition ledger (debt : Debt.t Q) (monthlyPayment : Q) (v : @Vars Q)
  : Prop :=
  Forall (settles monthlyPayment) (schedule v)
  /\ conserved (Debt.balance debt) (schedule v)
  /\ lastBalance (Debt.balance debt) (schedule v) == remainingBalance v.

Lemma mathMax_zero (b : Q) : 0 <= b -> mathMax (lit 0) b == b.
Proof.
  intro Hb. simpl. destruct (Qle_bool 0 b) eqn:E; [reflexivity|].
  apply Exact.leb_false in E. lra.
Qed.

Lemma ledger_step (debt : Debt.t Q) (monthlyPayment monthlyRate : Q)
  (v : @Vars Q) :
  ledger debt monthlyPayment v ->
  ledger debt monthlyPayment (scheduleBody monthlyPayment monthlyRate v).
Proof.
  intros (Hs & Hc & Hl). unfold scheduleBody.
  set (interest := (remainingBalance v * monthlyRate)%js).
  destruct (Exact.mathMin_spec monthlyPayment
              (remainingBalance v + interest)%js) as [[Hm E] | [Hm E]];
    rewrite E; simpl in Hm |- *.
  - assert (Hb : 0 <= remainingBalance v - (monthlyPayment - interest))
      by lra.
    split; [|split]; simpl.
    + apply Forall_app; split; auto. constructor; auto.
      split; simpl; [lra|]. split; [ring|].
      rewrite (mathMax_zero Hb). exact Hb.
    + apply conserved_snoc; auto. simpl.
      rewrite (mathMax_zero Hb), Hl. reflexivity.
    + rewrite lastBalance_snoc. simpl. apply (mathMax_zero Hb).
  - assert (Hb : 0 <= remainingBalance v
                      - (remainingBalance v + interest - interest)) by lra.
    split; [|split]; simpl.
    + apply Forall_app; split; auto. constructor; auto.
      split; simpl; [lra|]. split; [ring|].
      rewrite (mathMax_zero Hb). exact Hb.
    + apply conserved_snoc; auto. simpl.
      rewrite (mathMax_zero Hb), Hl. reflexivity.
    + rewrite lastBalance_snoc. simpl. apply (mathMax_zero Hb).
Qed.

(* kept by the loop when the payment covers the interest on the debt *)
Definition reducing (debt : Debt.t Q) (v : @Vars Q) : Prop :=
  remainingBalance v <= Debt.balance debt
  /\ Forall (fun p => 0 <= PaymentBreakdown.principal p) (schedule v).

Lemma reducing_step (debt : Debt.t Q) (monthlyPayment : Q) (v : @Vars Q) :
  0 <= Debt.interestRate debt ->
  Exact.monthlyInterestOf debt <= monthlyPayment ->
  scheduleCond v = true ->
  reducing debt v ->
  reducing debt
    (scheduleBody monthlyPayment
       (calculateMonthlyRate (Debt.interestRate debt)) v).
Proof.
  intros Hr Hp Hc [Hb Hs]. unfold scheduleCond in Hc.
  apply andb_true_iff in Hc as [Hc _]. apply Exact.gtb_true in Hc.
  simpl in Hc.
  pose proof (@Exact.interest_monotone _ _ _ Hr Hb) as Hi.
  unfold Exact.monthlyInterestOf in Hp.
  unfold scheduleBody, reducing.
  set (interest := (remainingBalance v
                    * calculateMonthlyRate (Debt.interestRate debt))%js)
    in *.
  assert (Hi0 : 0 <= interest).
  { apply Qmult_le_0_compat; [lra | now apply Exact.monthlyRate_nonneg]. }
  change (remainingBalance v * calculateMonthlyRate (Debt.interestRate debt))
    with interest in Hi.
  destruct (Exact.mathMin_spec monthlyPayment
              (remainingBalance v + interest)%js) as [[Hm E] | [Hm E]];
    rewrite E; simpl in Hm |- *.
  - split; [lra|]. apply Forall_app; split; auto.
    constructor; auto. simpl. lra.
  - split; [lra|]. apply Forall_app; split; auto.
    constructor; auto. simpl. lra.
Qed.

(** X11. In double arithmetic every record of the schedule
    [generatePaymentSchedule] returns pays no more than the monthly payment
    and shows a balance that is not below zero, and a schedule with fewer
    than 600 records ends with a balance that is not above the 0.01
    threshold.  The total payment of a record is not always the sum of its
    principal and its interest: the principal is the rounded difference of
    the two, and for 3500 owed at 15.24% and paid 99.99 a month the sum is
    off in month 13.  In exact arithmetic the total payment is that sum,
    every balance is the balance of the month before (the balance of the
    debt, for the first record) less the principal and is not negative, so
    the guard against a negative balance never changes a value; and when
    the rate is not negative and the payment covers the first month's
    interest, no record has a negative principal. *)
Theorem payment_schedule_ledger :
  (forall (debt : Debt.t float) (monthlyPayment : float)
          (records : list (PaymentBreakdown.t float)),
      generatePaymentSchedule debt monthlyPayment = Some records ->
      Forall (fun p =>
                PrimFloat.ltb monthlyPayment (PaymentBreakdown.totalPayment p)
                = false
                /\ PrimFloat.ltb (PaymentBreakdown.balance p) 0 = false)
             records
      /\ ((length records < 600)%nat ->
          (lastBalance (Debt.balance debt) records >? lit 0.01)%js = false))
  /\ (exists records p,
        generatePaymentSchedule revolving 99.99%float = Some records
        /\ nth_error records 12 = Some p
        /\ PaymentBreakdown.totalPayment p
           <> PrimFloat.add (PaymentBreakdown.principal p)
                            (PaymentBreakdown.interest p))
  /\ (forall (debt : Debt.t Q) (monthlyPayment : Q)
             (records : list (PaymentBreakdown.t Q)),
        generatePaymentSchedule debt monthlyPayment = Some records ->
        Forall (fun p =>
                  PaymentBreakdown.totalPayment p <= monthlyPayment
                  /\ PaymentBreakdown.totalPayment p
                     == PaymentBreakdown.principal p
                        + PaymentBreakdown.interest p
                  /\ 0 <= PaymentBreakdown.balance p) records
        /\ conserved (Debt.balance debt) records
        /\ ((length records < 600)%nat ->
            lastBalance (Debt.balance debt) records <= 0.01)
        /\ (0 <= Debt.interestRate debt ->
            Exact.monthlyInterestOf debt <= monthlyPayment ->
            Forall (fun p => 0 <= PaymentBreakdown.principal p) records)).
Proof.
  split; [|split].
  - intros debt monthlyPayment records.
    unfold generatePaymentSchedule, generatePaymentScheduleFuel.
    destruct (while _ _ _ _) as [v|] eqn:W; [|discriminate].
    intro E. inversion E; subst records. clear E. split.
    + apply while_invariant
        with (P := fun s => Forall (settled monthlyPayment) (schedule s))
        in W as [Hs _]; auto.
      intros s Ps _. now apply settled_step.
    + intro Hlen.
      destruct (schedule_ends_early _ _ W Hlen)
        as [Hb [[-> <-] | (earlier & p & -> & Hp)]]; [exact Hb|].
      rewrite lastBalance_snoc, Hp. now apply floor_settled.
  - eexists. eexists. split; [vm_compute; reflexivity|].
    split; [reflexivity|].
    intro E. apply (f_equal Prim2SF) in E. vm_compute in E. discriminate.
  - intros debt monthlyPayment records.
    unfold generatePaymentSchedule, generatePaymentScheduleFuel.
    destruct (while _ _ _ _) as [v|] eqn:W; [|discriminate].
    intro E. inversion E; subst records. clear E.
    pose proof W as W1. pose proof W as W2.
    apply while_invariant with (P := ledger debt monthlyPayment)
      in W as [(Hs & Hc & Hl) Hcond].
    2:{ intros s Ps _. now apply ledger_step. }
    2:{ repeat split; simpl; auto. }
    split; [exact Hs|]. split; [exact Hc|]. split.
    + intro Hlen.
      apply while_invariant with (P := @counted Q) in W1
        as [(_ & Hcount & _) _].
      2:{ intros s Ps _. now apply counted_step. }
      2:{ split; [simpl; lia|]. split; [reflexivity|].
          intros i p Hp. destruct i; discriminate. }
      unfold scheduleCond in Hcond.
      apply andb_false_iff in Hcond as [Hcond | Hcond].
      * rewrite Hl. apply Exact.gtb_false in Hcond. exact Hcond.
      * apply Z.leb_gt in Hcond. lia.
    + intros Hr Hp.
      apply while_invariant with (P := reducing debt) in W2 as [[_ Hpr] _]; auto.
      * intros s Ps Cs. now apply reducing_step.
      * split; simpl; auto. lra.
Qed.

End Amortization.

(** * The conversation history *)

Module ConversationHistory.

Record Entry : Type := mkEntry {
  timestamp : Z;          (* the clock reading new Date() wraps *)
  userMessage : string;
  aiResponse : string
}.

(* arr.slice(-n): the last n elements, all of them when there are fewer *)
Definition sliceFromEnd {A} (n : nat) (arr : list A) : list A :=
  skipn (length arr - n) arr.

(* [now] is the clock reading at the call; the result is the array handed
   to setHistory *)
Definition addConversation (history : list Entry) (now : Z)
  (userMessage aiResponse : string) : list Entry :=
  let newEntry := mkEntry now userMessage aiResponse in
  (* Keep only the last 20 conversations to prevent storage bloat *)
  sliceFromEnd 20 (history ++ [newEntry]).

Definition clearHistory (history : list Entry) : list Entry := [].

(* one call after the other, each on the history the one before stored *)
Definition addConversations (history : list Entry) (calls : list Entry)
  : list Entry :=
  fold_left
    (fun history call =>
       addConversation history (timestamp call) (userMessage call)
                       (aiResponse call))
    calls history.

Lemma sliceFromEnd_length {A} (n : nat) (arr : list A) :
  length (sliceFromEnd n arr) = Nat.min n (length arr).
Proof. unfold sliceFromEnd. rewrite length_skipn. lia. Qed.

Lemma sliceFromEnd_snoc {A} (n : nat) (arr : list A) (x : A) :
  (1 <= n)%nat ->
  sliceFromEnd n (sliceFromEnd n arr ++ [x]) = sliceFromEnd n (arr ++ [x]).
Proof.
  intro Hn. unfold sliceFromEnd at 1 3.
  rewrite !length_app, sliceFromEnd_length. simpl length.
  unfold sliceFromEnd.
  destruct (Nat.le_gt_cases (length arr) n) as [Hle | Hgt].
  - replace (length arr - n)%nat with 0%nat by lia. simpl skipn.
    now replace (Nat.min n (length arr)) with (length arr) by lia.
  - rewrite !skipn_app, length_skipn, skipn_skipn.
    replace (Nat.min n (length arr) + 1 - n)%nat with 1%nat by lia.
    replace (1 + (length arr - n))%nat with (length arr + 1 - n)%nat by lia.
    replace (1 - (length arr - (length arr - n)))%nat with 0%nat by lia.
    replace (length arr + 1 - n - length arr)%nat with 0%nat by lia.
    reflexivity.
Qed.

Lemma addConversations_snoc (history calls : list Entry) (call : Entry) :
  addConversations history (calls ++ [call])
  = sliceFromEnd 20 (addConversations history calls ++ [call]).
Proof.
  unfold addConversations. rewrite fold_left_app. simpl.
  unfold addConversation. now destruct call.
Qed.

Lemma addConversations_slice (history : list Entry) :
  forall earlier call,
    addConversations history (earlier ++ [call])
    = sliceFromEnd 20 (history ++ earlier ++ [call]).
Proof.
  induction earlier as [|before earlier IH] using rev_ind; intro call.
  - unfold addConversations, addConversation. simpl. now destruct call.
  - rewrite addConversations_snoc, IH, sliceFromEnd_snoc by lia.
    now rewrite <- !app_assoc.
Qed.

Lemma sliceFromEnd_last {A} (n : nat) (arr : list A) (x : A) :
  (1 <= n)%nat ->
  exists kept, sliceFromEnd n (arr ++ [x]) = kept ++ [x].
Proof.
  intro Hn. exists (skipn (length arr + 1 - n) arr).
  unfold sliceFromEnd. rewrite length_app, skipn_app. simpl length.
  now replace (length arr + 1 - n - length arr)%nat with 0%nat by lia.
Qed.

(** X13. After any series of calls of [addConversation], each made on the
    history the one before stored, the stored history is the last 20
    entries of the history the series started from followed by the entries
    added, in that order. It has at most 20 entries, only the oldest
    entries are dropped, and the entry added last is at its end. *)
Theorem history_keeps_last_twenty (history calls : list Entry) :
  calls <> [] ->
  addConversations history calls = sliceFromEnd 20 (history ++ calls)
  /\ (length (addConversations history calls) <= 20)%nat
  /\ (exists dropped,
        history ++ calls = dropped ++ addConversations history calls)
  /\ exists kept call,
       calls = removelast calls ++ [call]
       /\ addConversations history calls = kept ++ [call].
Proof.
  intro Hne.
  destruct (exists_last Hne) as (earlier & call & ->).
  rewrite addConversations_slice.
  split; [reflexivity|]. split; [|split].
  - rewrite sliceFromEnd_length. lia.
  - exists (firstn (length (history ++ earlier ++ [call]) - 20)
                   (history ++ earlier ++ [call])).
    unfold sliceFromEnd. now rewrite firstn_skipn.
  - rewrite app_assoc.
    destruct (@sliceFromEnd_last _ 20 (history ++ earlier) call) as [kept E];
      [lia|].
    exists kept, call. split; [|exact E].
    now rewrite removelast_last.
Qed.

End ConversationHistory.

(** * The yearly summaries of the analysis view *)

Module YearlyData.

Section Generic.

Context {F : Type} `{Number F}.

Record Summary : Type := mkSummary {
  totalPrincipal : F;
  totalInterest : F;
  endBalance : F
}.

(* the object the reduce builds: its keys with their values, in the order
   the keys were created *)
Definition Years : Type := list (Z * Summary).

Fixpoint lookup (year : Z) (acc : Years) : option Summary :=
  match acc with
  | [] => None
  | (key, summary) :: others =>
      if (key =? year)%Z then Some summary else lookup year others
  end.

(* acc[year] = summary *)
Fixpoint assign (year : Z) (summary : Summary) (acc : Years) : Years :=
  match acc with
  | [] => [(year, summary)]
  | (key, old) :: others =>
      if (key =? year)%Z then (year, summary) :: others
      else (key, old) :: assign year summary others
  end.

(* Math.floor((month - 1) / 12) + 1 *)
Definition yearOf (month : Z) : Z := ((month - 1) / 12 + 1)%Z.

(* one step of the reduce: the summary of the year is created with zeros
   when the year has none, then its three fields are updated *)
Definition addPayment (acc : Years) (payment : PaymentBreakdown.t F)
  : Years :=
  let year := yearOf (PaymentBreakdown.month payment) in
  let acc :=
    match lookup year acc with
    | None => assign year (mkSummary (lit 0) (lit 0) (lit 0)) acc
    | Some _ => acc
    end in
  match lookup year acc with
  | Some summary =>
      assign year
        (mkSummary
           (totalPrincipal summary + PaymentBreakdown.principal payment)
           (totalInterest summary + PaymentBreakdown.interest payment)
           (PaymentBreakdown.balance payment))
        acc
  | None => acc
  end.

Definition yearlyData (paymentSchedule : list (PaymentBreakdown.t F))
  : Years :=
  fold_left addPayment paymentSchedule [].

Definition years (acc : Years) : list Z := map fst acc.

Lemma lookup_assign (year : Z) (summary : Summary) (acc : Years) :
  lookup year (assign year summary acc) = Some summary.
Proof.
  induction acc as [|[key old] others IH]; simpl.
  - now rewrite Z.eqb_refl.
  - destruct (key =? year)%Z eqn:E; simpl.
    + now rewrite Z.eqb_refl.
    + now rewrite E.
Qed.

Lemma lookup_years (year : Z) (acc : Years) :
  lookup year acc = None <-> ~ In year (years acc).
Proof.
  induction acc as [|[key old] others IH]; simpl.
  - split; auto.
  - destruct (key =? year)%Z eqn:E.
    + apply Z.eqb_eq in E. split; [discriminate | intro N; tauto].
    + apply Z.eqb_neq in E. rewrite IH. tauto.
Qed.

Lemma assign_years (year : Z) (summary : Summary) (acc : Years) :
  years (assign year summary acc)
  = match lookup year acc with
    | Some _ => years acc
    | None => years acc ++ [year]
    end.
Proof.
  induction acc as [|[key old] others IH]; simpl; auto.
  destruct (key =? year)%Z eqn:E; simpl.
  - apply Z.eqb_eq in E. now subst.
  - rewrite IH. now destruct (lookup year others).
Qed.

(** The keys after a step: the year of the payment is appended when it is
    new, and nothing changes otherwise. *)
Lemma addPayment_years (acc : Years) (payment : PaymentBreakdown.t F) :
  let year := yearOf (PaymentBreakdown.month payment) in
  years (addPayment acc payment)
  = match lookup year acc with
    | Some _ => years acc
    | None => years acc ++ [year]
    end.
Proof.
  intro year. unfold addPayment. fold year.
  destruct (lookup year acc) as [summary|] eqn:E.
  - rewrite E, assign_years, E. reflexivity.
  - rewrite lookup_assign, !assign_years, E, lookup_assign. reflexivity.
Qed.

Lemma sorted_snoc (keys : list Z) (key : Z) :
  StronglySorted Z.lt keys ->
  (forall k, In k keys -> (k < key)%Z) ->
  StronglySorted Z.lt (keys ++ [key]).
Proof.
  induction 1 as [|k keys Hs IH Hk]; intro Hlt; simpl.
  - repeat constructor.
  - constructor.
    + apply IH. intros j Hj. apply Hlt. simpl; auto.
    + apply Forall_app; split; auto.
      constructor; auto. apply Hlt. simpl; auto.
Qed.

Lemma yearOf_mono (m n : Z) : (m <= n)%Z -> (yearOf m <= yearOf n)%Z.
Proof.
  intro L. unfold yearOf.
  assert ((m - 1) / 12 <= (n - 1) / 12)%Z by (apply Z.div_le_mono; lia).
  lia.
Qed.

Lemma yearOf_range (m : Z) :
  (1 <= m <= 600)%Z -> (1 <= yearOf m <= 50)%Z.
Proof.
  intros [L U]. unfold yearOf.
  assert (0 <= (m - 1) / 12)%Z by (apply Z.div_pos; lia).
  assert ((m - 1) / 12 <= 599 / 12)%Z by (apply Z.div_le_mono; lia).
  change (599 / 12)%Z with 49%Z in *. lia.
Qed.

(* what the reduce keeps true when it is given months in ascending order *)
Lemma fold_years (paymentSchedule : list (PaymentBreakdown.t F)) :
  forall acc : Years,
    StronglySorted
      (fun p q => (PaymentBreakdown.month p <= PaymentBreakdown.month q)%Z)
      paymentSchedule ->
    Forall (fun p => (1 <= PaymentBreakdown.month p <= 600)%Z)
           paymentSchedule ->
    StronglySorted Z.lt (years acc) ->
    Forall (fun key => (1 <= key <= 50)%Z) (years acc) ->
    (forall key p, In key (years acc) -> In p paymentSchedule ->
                   (key <= yearOf (PaymentBreakdown.month p))%Z) ->
    StronglySorted Z.lt (years (fold_left addPayment paymentSchedule acc))
    /\ Forall (fun key => (1 <= key <= 50)%Z)
              (years (fold_left addPayment paymentSchedule acc)).
Proof.
  induction paymentSchedule as [|p later IH];
    intros acc Hm Hr Hs Hk Hb; simpl; auto.
  inversion Hm as [|x xs Hml Hmp]; inversion Hr as [|y ys Hrp Hrl]; subst.
  pose proof (addPayment_years acc p) as Hy. simpl in Hy.
  assert (Hnext : forall key q,
             In key (years (addPayment acc p)) -> In q later ->
             (key <= yearOf (PaymentBreakdown.month q))%Z).
  { intros key q Hkey Hq. rewrite Hy in Hkey.
    assert (Hold : In key (years acc) ->
                   (key <= yearOf (PaymentBreakdown.month q))%Z)
      by (intro Hin; apply Hb; simpl; auto).
    destruct (lookup _ acc); auto.
    apply in_app_or in Hkey as [Hkey | [<- | []]]; auto.
    apply yearOf_mono. rewrite Forall_forall in Hmp. auto. }
  apply IH; auto; rewrite Hy;
    destruct (lookup (yearOf (PaymentBreakdown.month p)) acc) eqn:E; auto.
  - apply sorted_snoc; auto. intros k Hin.
    apply lookup_years in E.
    assert (k <> yearOf (PaymentBreakdown.month p)) by congruence.
    assert (k <= yearOf (PaymentBreakdown.month p))%Z
      by (apply Hb; simpl; auto).
    lia.
  - apply Forall_app; split; auto. constructor; auto.
    now apply yearOf_range.
Qed.

Lemma ascending_months (paymentSchedule : list (PaymentBreakdown.t F)) :
  forall first : Z,
    (forall (i : nat) (p : PaymentBreakdown.t F),
       nth_error paymentSchedule i = Some p ->
       PaymentBreakdown.month p = (Z.of_nat i + first)%Z) ->
    StronglySorted
      (fun p q => (PaymentBreakdown.month p <= PaymentBreakdown.month q)%Z)
      paymentSchedule.
Proof.
  induction paymentSchedule as [|p later IH]; intros first Hn;
    constructor.
  - apply (IH (first + 1)%Z). intros i q Hq.
    rewrite (Hn (S i) q Hq). lia.
  - apply Forall_forall. intros q Hq.
    apply In_nth_error in Hq as [i Hq].
    rewrite (Hn 0%nat p eq_refl), (Hn (S i) q Hq). lia.
Qed.

End Generic.

Open Scope Q_scope.

Import Plans.

(* the summary of a year, zeros when the year has none *)
Definition summaryOf (year : Z) (acc : @Years Q) : @Summary Q :=
  match lookup year acc with
  | Some summary => summary
  | None => mkSummary 0 0 0
  end.

Lemma assign_total (f : @Summary Q -> Q) (year : Z) (summary : @Summary Q)
  (acc : @Years Q) :
  f (mkSummary 0 0 0) == 0 ->
  total f (map snd (assign year summary acc))
  == total f (map snd acc) - f (summaryOf year acc) + f summary.
Proof.
  intro Hz. unfold summaryOf.
  induction acc as [|[key old] others IH]; simpl.
  - rewrite Hz. ring.
  - destruct (key =? year)%Z; simpl; [ring|]. rewrite IH. ring.
Qed.

Lemma addPayment_total (acc : @Years Q) (payment : PaymentBreakdown.t Q) :
  total (@totalPrincipal Q) (map snd (addPayment acc payment))
  == total (@totalPrincipal Q) (map snd acc)
     + PaymentBreakdown.principal payment
  /\ total (@totalInterest Q) (map snd (addPayment acc payment))
     == total (@totalInterest Q) (map snd acc)
        + PaymentBreakdown.interest payment.
Proof.
  unfold addPayment.
  set (year := yearOf (PaymentBreakdown.month payment)).
  destruct (lookup year acc) as [summary|] eqn:E.
  - rewrite E, !assign_total by reflexivity.
    unfold summaryOf. rewrite E. simpl. split; ring.
  - rewrite lookup_assign, !assign_total by reflexivity.
    unfold summaryOf. rewrite lookup_assign, E. simpl. split; ring.
Qed.

Lemma yearlyData_total (paymentSchedule : list (PaymentBreakdown.t Q)) :
  forall acc : @Years Q,
    total (@totalPrincipal Q) (map snd (fold_left addPayment paymentSchedule acc))
    == total (@totalPrincipal Q) (map snd acc)
       + total (@PaymentBreakdown.principal Q) paymentSchedule
    /\ total (@totalInterest Q)
             (map snd (fold_left addPayment paymentSchedule acc))
       == total (@totalInterest Q) (map snd acc)
          + total (@PaymentBreakdown.interest Q) paymentSchedule.
Proof.
  induction paymentSchedule as [|p later IH]; intro acc; simpl.
  - split; ring.
  - destruct (IH (addPayment acc p)) as [-> ->].
    destruct (addPayment_total acc p) as [-> ->]. split; ring.
Qed.

#[local] Set Warnings "-inexact-float".

(** X14. The yearly summaries the analysis view computes from the schedule
    of a returned analysis, in any arithmetic: their years are in ascending
    order, between 1 and 50, so the view shows them in that order and at
    most 50 of them.  In exact arithmetic the interest of the years adds up
    to the total interest of the analysis, the principal of the years to
    the principal of all the months.  In double arithmetic the sums are
    rounded in a different order and can differ: for the two debts of the
    worked example under avalanche with a budget of 200, the principal of
    the six years adds up to 5500.0000000000009, the principal of the 65
    months to 5500. *)
Theorem yearly_summaries_add_up :
  (forall (F : Type) (N : Number F) (policy : RepaymentStrategy)
          (debts : list (Debt.t F)) (availablePayment : F)
          (a : DebtAnalysis.t F),
      strategyFunction policy debts availablePayment = Returned a ->
      let summaries := yearlyData (DebtAnalysis.paymentSchedule a) in
      StronglySorted Z.lt (years summaries)
      /\ Forall (fun year => (1 <= year <= 50)%Z) (years summaries))
  /\ (forall (policy : RepaymentStrategy) (debts : list (Debt.t Q))
             (availablePayment : Q) (a : DebtAnalysis.t Q),
        strategyFunction policy debts availablePayment = Returned a ->
        let summaries := yearlyData (DebtAnalysis.paymentSchedule a) in
        total (@totalInterest Q) (map snd summaries)
        == DebtAnalysis.totalInterest a
        /\ total (@totalPrincipal Q) (map snd summaries)
           == total (@PaymentBreakdown.principal Q)
                (DebtAnalysis.paymentSchedule a))
  /\ exists a,
       calculateAvalancheStrategy [Runs.exampleB; Runs.exampleA] 200%float
       = Returned a
       /\ let summaries := yearlyData (DebtAnalysis.paymentSchedule a) in
          length summaries = 6%nat
          /\ sumOf (@totalPrincipal float) (map snd summaries)
             = 5500.0000000000009%float
          /\ sumOf (@PaymentBreakdown.principal float)
                   (DebtAnalysis.paymentSchedule a)
             = 5500%float
          /\ PrimFloat.ltb
               (sumOf (@PaymentBreakdown.principal float)
                      (DebtAnalysis.paymentSchedule a))
               (sumOf (@totalPrincipal float) (map snd summaries))
             = true.
Proof.
  split; [|split].
  - intros F N policy debts availablePayment a R summaries.
    subst summaries. unfold yearlyData.
    rewrite strategyFunction_unfold in R.
    apply calculateDebtStrategy_returned in R as (_ & st & W & ->).
    cbn [DebtAnalysis.paymentSchedule].
    apply while_invariant
      with (P := fun s => numbered s /\ (st_month s <= 601)%Z)
      in W as [[[Hl Hn] Hm] _].
    2:{ intros s [Ns Ms] Hc. split; [now apply numbered_step|].
        rewrite loopBody_month. apply loopCond_month in Hc. lia. }
    2:{ split; [|simpl; lia].
        split; [reflexivity|]. intros [|i] p Hp; discriminate. }
    apply (@fold_years F _ (st_paymentSchedule st) []).
    + apply ascending_months with (first := 1%Z).
      intros i p Hip. now destruct (Hn i p Hip).
    + apply Forall_forall. intros p Hp'.
      apply In_nth_error in Hp' as [i Hip].
      destruct (Hn i p Hip) as [-> _].
      assert (i < length (st_paymentSchedule st))%nat
        by (apply nth_error_Some; congruence).
      lia.
    + constructor.
    + constructor.
    + intros key p [].
  - intros policy debts availablePayment a R summaries.
    subst summaries. unfold yearlyData.
    rewrite strategyFunction_unfold in R.
    apply calculateDebtStrategy_returned in R as (_ & st & W & ->).
    cbn [DebtAnalysis.paymentSchedule DebtAnalysis.totalInterest].
    apply while_invariant with (P := @bookkeeping Q _)
      in W as [[Hi _] _].
    2:{ intros s Bs _. now apply bookkeeping_step. }
    2:{ apply bookkeeping_initial. }
    destruct (yearlyData_total (st_paymentSchedule st) []) as [Hp Ht].
    split.
    + rewrite Ht, Hi, sumOf_total. cbn [map total]. ring.
    + rewrite Hp. cbn [map total]. ring.
  - eexists. split; [vm_compute; reflexivity|].
    split; [reflexivity|]. split; [reflexivity|]. split; reflexivity.
Qed.

#[local] Set Warnings "+inexact-float".

End YearlyData.

(** * The average interest rate *)

Module Ratios.

Import Plans.

Open Scope Q_scope.

Lemma weighted_between (lo hi : Q) (debts : list (Debt.t Q)) :
  Forall (fun debt => 0 <= Debt.balance debt) debts ->
  Forall (fun debt => lo <= Debt.interestRate debt <= hi) debts ->
  lo * total (@Debt.balance Q) debts
  <= total (fun debt => Debt.interestRate debt * Debt.balance debt) debts
  /\ total (fun debt => Debt.interestRate debt * Debt.balance debt) debts
     <= hi * total (@Debt.balance Q) debts.
Proof.
  intros Hb Hr. induction debts as [|debt rest IH]; simpl.
  - split; lra.
  - inversion Hb as [|d ds Hb1 Hbs]; inversion Hr as [|e es [Hlo Hhi] Hrs];
      subst.
    destruct (IH Hbs Hrs) as [L U].
    assert (lo * Debt.balance debt
            <= Debt.interestRate debt * Debt.balance debt)
      by (apply Qmult_le_compat_r; assumption).
    assert (Debt.interestRate debt * Debt.balance debt
            <= hi * Debt.balance debt)
      by (apply Qmult_le_compat_r; assumption).
    split; lra.
Qed.

#[local] Set Warnings "-inexact-float".

(* a single debt: 1234.56 owed at 7.9% *)
Definition lone : Debt.t float :=
  Debt.mk "l" "Card l" 1234.56%float 7.9%float 40%float 1%float
    credit_card.

(** X15. In exact arithmetic, when no balance is negative and the total debt
    is positive, the average interest rate [calculateDebtMetrics] reports
    lies between the lowest and the highest rate of the debts: it is a
    mean of the rates weighted by the balances.  In double arithmetic the
    product and the quotient are rounded and the average can fall outside
    the rates: for the single debt above, whose rate is 7.9, it is
    7.8999999999999995, below the rate. *)
Theorem average_rate_between :
  (forall (debts : list (Debt.t Q)) (monthlyIncome lo hi : Q),
      let m := calculateDebtMetrics debts monthlyIncome in
      Forall (fun debt => 0 <= Debt.balance debt) debts ->
      0 < totalDebt m ->
      Forall (fun debt => lo <= Debt.interestRate debt <= hi) debts ->
      lo <= averageInterestRate m <= hi)
  /\ (averageInterestRate (calculateDebtMetrics [lone] 3000%float)
      = 7.8999999999999995%float
      /\ PrimFloat.ltb
           (averageInterestRate (calculateDebtMetrics [lone] 3000%float))
           (Debt.interestRate lone) = true).
Proof.
  split.
  - intros debts monthlyIncome lo hi m Hb Ht Hr. subst m.
    cbn [calculateDebtMetrics totalDebt averageInterestRate] in *.
    destruct (weighted_between Hb Hr) as [L U].
    rewrite <- !sumOf_total in L, U.
    split.
    + apply Qle_shift_div_l; [exact Ht | exact L].
    + apply Qle_shift_div_r; [exact Ht | exact U].
  - split; reflexivity.
Qed.

#[local] Set Warnings "+inexact-float".

End Ratios.

(** * Runs of the composed functions *)

Module Checks.

Import Plans.

Open Scope Q_scope.

(* 100 owed at 12%, paid 60 a month: cleared in the second month *)
Definition shortDebt : Debt.t Q :=
  Debt.mk "S" "Store card" 100 12 60 1 credit_card.
Definition shortDebt64 : Debt.t float :=
  Debt.mk "S" "Store card" 100%float 12%float 60%float 1%float credit_card.

Lemma validated_debts_amortize_witness :
  exists a,
    strategyFunction snowball [shortDebt64] 60%float = Returned a
    /\ Forall Binary64.covered [shortDebt64]
    /\ Forall (fun p => PrimFloat.leb 0 (PaymentBreakdown.balance p) = true)
              (DebtAnalysis.paymentSchedule a)
    /\ forall (i : nat) (p q : PaymentBreakdown.t float),
         nth_error (DebtAnalysis.paymentSchedule a) i = Some p ->
         nth_error (DebtAnalysis.paymentSchedule a) (S i) = Some q ->
         PrimFloat.leb (PaymentBreakdown.balance q)
                       (PaymentBreakdown.balance p) = true.
Proof.
  eexists. split; [vm_compute; reflexivity|].
  destruct validated_debts_amortize as [V _].
  apply (V snowball [shortDebt64] 60%float).
  - vm_compute; reflexivity.
  - repeat constructor.
  - vm_compute; reflexivity.
Defined.

Lemma monthly_payment_within_budget_witness :
  exists a,
    strategyFunction avalanche [shortDebt] 60 = Returned a
    /\ Forall (fun p => PaymentBreakdown.totalPayment p <= 60)
              (DebtAnalysis.paymentSchedule a).
Proof.
  eexists. split; [vm_compute; reflexivity|].
  destruct monthly_payment_within_budget as [B _].
  apply (B avalanche [shortDebt] 60).
  - vm_compute; reflexivity.
  - repeat constructor. discriminate.
Defined.

Lemma early_finish_is_full_payoff_witness :
  exists a,
    strategyFunction hybrid [shortDebt64] 60%float = Returned a
    /\ Permutation (DebtAnalysis.debtOrder a)
                   (map (@Debt.id float) [shortDebt64])
    /\ exists earlier p,
         DebtAnalysis.paymentSchedule a = earlier ++ [p]
         /\ PaymentBreakdown.balance p = 0%float.
Proof.
  eexists. split; [vm_compute; reflexivity|].
  apply (@early_finish_is_full_payoff hybrid [shortDebt64] 60%float).
  - vm_compute; reflexivity.
  - discriminate.
  - constructor; [intros [] | constructor].
  - repeat constructor.
  - repeat constructor.
  - vm_compute; reflexivity.
Defined.

Lemma payment_schedule_ledger_witness :
  exists records,
    Amortization.generatePaymentSchedule shortDebt64 60%float = Some records
    /\ Forall (fun p =>
                 PrimFloat.ltb 60 (PaymentBreakdown.totalPayment p) = false
                 /\ PrimFloat.ltb (PaymentBreakdown.balance p) 0 = false)
              records
    /\ ((length records < 600)%nat ->
        (Amortization.lastBalance (Debt.balance shortDebt64) records
         >? lit 0.01)%js = false).
Proof.
  eexists. split; [vm_compute; reflexivity|].
  destruct Amortization.payment_schedule_ledger as [L _].
  apply (L shortDebt64 60%float).
  vm_compute; reflexivity.
Defined.

Lemma history_keeps_last_twenty_witness :
  let calls := [ConversationHistory.mkEntry 1700000000000 "How long?"
                  "About two months."] in
  ConversationHistory.addConversations [] calls
  = ConversationHistory.sliceFromEnd 20 ([] ++ calls)
  /\ (length (ConversationHistory.addConversations [] calls) <= 20)%nat
  /\ (exists dropped,
        [] ++ calls
        = dropped ++ ConversationHistory.addConversations [] calls)
  /\ exists kept call,
       calls = removelast calls ++ [call]
       /\ ConversationHistory.addConversations [] calls = kept ++ [call].
Proof.
  intro calls.
  apply (@ConversationHistory.history_keeps_last_twenty [] calls).
  discriminate.
Defined.

Lemma yearly_summaries_add_up_witness :
  exists a,
    strategyFunction snowball [shortDebt64] 60%float = Returned a
    /\ let summaries :=
         YearlyData.yearlyData (DebtAnalysis.paymentSchedule a) in
       StronglySorted Z.lt (YearlyData.years summaries)
       /\ Forall (fun year => (1 <= year <= 50)%Z)
                 (YearlyData.years summaries).
Proof.
  eexists. split; [vm_compute; reflexivity|].
  destruct YearlyData.yearly_summaries_add_up as [Y _].
  apply (Y float float_Number snowball [shortDebt64] 60%float).
  vm_compute; reflexivity.
Defined.

Lemma average_rate_between_witness :
  0 <= averageInterestRate (calculateDebtMetrics [shortDebt] 1000) <= 50.
Proof.
  destruct Ratios.average_rate_between as [A _].
  apply (A [shortDebt] 1000 0 50).
  - repeat constructor. discriminate.
  - reflexivity.
  - repeat constructor; discriminate.
Defined.

End Checks.
